(** * Assistant: command store, phrase-conflict detection and command resolution

    A shallow embedding of the configuration store ([core/config_manager.py]),
    the record validator ([core/utils.py]) and the voice-command resolver
    ([core/command_manager.py]), followed by the properties proved about them.

    Conventions of the embedding.
    - A Python [str] is a [string]; its characters are the code points below
      256, and [lower], [strip], [isspace] and the regex class [\w] are the
      ones CPython uses at these code points.
    - A dynamically typed value is a [pyval]; a [dict] is an association list
      in insertion order, as Python dicts iterate.
    - An exception that the source catches is an explicit [None] branch of a
      small state-and-error monad; an exception that the source lets escape
      makes the embedded function return [None].
    - The environment enters as arguments: the outcome of
      [JsonUtils.save_json] as the boolean [disk_ok], the document that
      [JsonUtils.load_json] returns as a value, and the executors (browser,
      shell, keyboard, dialogs) as a function [io] from a request and a
      world to a result and a world.
    - The store operations are modelled on values; the accessors
      [get_command] and [get_all_commands], whose point is what their result
      shares with the store, and the settings with their cache, which holds
      the settings' own objects, are modelled on a heap of objects. *)

From Stdlib Require Import String Ascii List Bool ZArith NArith Arith Lia Sorted.
Import ListNotations.
Open Scope string_scope.
Set Warnings "-register-all".

(** ** Part I. The embedding *)

(** *** Python string methods *)

Module PyStr.

Definition isspace (c : ascii) : bool :=
let n := N_of_ascii c in
(((9 <=? n) && (n <=? 13)) || ((28 <=? n) && (n <=? 32))
 || (n =? 133) || (n =? 160))%N.

Definition lower_char (c : ascii) : ascii :=
let n := N_of_ascii c in
if ((((65 <=? n) && (n <=? 90))
     || ((192 <=? n) && (n <=? 222) && negb (n =? 215))))%N
then ascii_of_N (n + 32) else c.

(** The regex class [\w] of [re] on [str] patterns. *)
Definition isword (c : ascii) : bool :=
let n := N_of_ascii c in
(((48 <=? n) && (n <=? 57)) || ((65 <=? n) && (n <=? 90)) || (n =? 95)
 || ((97 <=? n) && (n <=? 122)) || (n =? 170) || (n =? 178) || (n =? 179)
 || (n =? 181) || (n =? 185) || (n =? 186) || ((188 <=? n) && (n <=? 190))
 || ((192 <=? n) && (n <=? 214)) || ((216 <=? n) && (n <=? 246))
 || (248 <=? n))%N.

Fixpoint lower (s : string) : string :=
match s with
| EmptyString => EmptyString
| String c s' => String (lower_char c) (lower s')
end.

Fixpoint lstrip (s : string) : string :=
match s with
| EmptyString => EmptyString
| String c s' => if isspace c then lstrip s' else s
end.

Fixpoint rstrip (s : string) : string :=
match s with
| EmptyString => EmptyString
| String c s' =>
    match rstrip s' with
    | EmptyString => if isspace c then EmptyString else String c EmptyString
    | r => String c r
    end
end.

Definition strip (s : string) : string := rstrip (lstrip s).

Fixpoint drop (n : nat) (s : string) : string :=
match n, s with
| O, _ => s
| S _, EmptyString => EmptyString
| S k, String _ s' => drop k s'
end.

(** [sub in s]. *)
Fixpoint contains (sub s : string) : bool :=
prefix sub s ||
match s with
| EmptyString => false
| String _ s' => contains sub s'
end.

(** [s.replace(old, "")] for a non-empty [old]: [skip] counts the characters
    of the occurrence being removed that are still to be passed over. *)
Fixpoint remove_from (old : string) (skip : nat) (s : string) : string :=
match s with
| EmptyString => EmptyString
| String c s' =>
    match skip with
    | S k => remove_from old k s'
    | O =>
        if prefix old s then remove_from old (String.length old - 1) s'
        else String c (remove_from old 0 s')
    end
end.

(** [s.replace(old, "")]: with an empty [old] the empty replacement is
    inserted between the characters, which leaves [s] as it is. *)
Definition replace_with_empty (old s : string) : string :=
match old with
| EmptyString => s
| _ => remove_from old 0 s
end.

Fixpoint join (sep : string) (l : list string) : string :=
match l with
| [] => EmptyString
| [x] => x
| x :: l' => x ++ sep ++ join sep l'
end.

Definition head (s : string) : option ascii :=
match s with
| EmptyString => None
| String c _ => Some c
end.

Fixpoint last_char (dflt : option ascii) (s : string) : option ascii :=
match s with
| EmptyString => dflt
| String c s' => last_char (Some c) s'
end.

(** The assertion [\b] between a character [before] and a character [after]
    ([None] at either end of the text). *)
Definition word_boundary (before after : option ascii) : bool :=
xorb (match before with Some c => isword c | None => false end)
     (match after with Some c => isword c | None => false end).

(** [\b lit \b] matched at the current position, [before] being the character
    just before it. *)
Definition match_bounded (before : option ascii) (lit s : string) : bool :=
word_boundary before (head s)
&& prefix lit s
&& word_boundary (last_char before lit) (head (drop (String.length lit) s)).

(** [re.search(r'\b' + re.escape(lit) + r'\b', s)], scanning start positions
    from the left. *)
Fixpoint search_bounded (before : option ascii) (lit s : string) : bool :=
match_bounded before lit s ||
match s with
| EmptyString => false
| String c s' => search_bounded (Some c) lit s'
end.

Definition nl : string := String (ascii_of_N 10) EmptyString.

End PyStr.

(** *** Dynamically typed values *)

Inductive pyval : Type :=
| PNone
| PBool (b : bool)
| PInt (z : Z)
| PStr (s : string)
| PList (l : list pyval)
| PDict (d : list (string * pyval)).

Module Py.

(** A dict keeps insertion order; assigning to a present key keeps its place. *)
Definition dict (V : Type) : Type := list (string * V).

Fixpoint dict_get {V} (k : string) (d : dict V) : option V :=
match d with
| [] => None
| (k', v) :: d' => if (k' =? k)%string then Some v else dict_get k d'
end.

Definition dict_mem {V} (k : string) (d : dict V) : bool :=
match dict_get k d with Some _ => true | None => false end.

Fixpoint dict_set {V} (k : string) (v : V) (d : dict V) : dict V :=
match d with
| [] => [(k, v)]
| (k', v') :: d' =>
    if (k' =? k)%string then (k', v) :: d' else (k', v') :: dict_set k v d'
end.

Fixpoint dict_del {V} (k : string) (d : dict V) : dict V :=
match d with
| [] => []
| (k', v') :: d' =>
    if (k' =? k)%string then d' else (k', v') :: dict_del k d'
end.

(** [d.get(k, dflt)]. *)
Definition get_or {V} (k : string) (dflt : V) (d : dict V) : V :=
match dict_get k d with Some v => v | None => dflt end.

(** Truth value of an object, as [if x:], [not x] and [x or y] test it. *)
Definition truthy (v : pyval) : bool :=
match v with
| PNone => false
| PBool b => b
| PInt z => negb (z =? 0)%Z
| PStr s => negb (s =? "")%string
| PList l => match l with [] => false | _ => true end
| PDict d => match d with [] => false | _ => true end
end.

Definition isinstance_dict (v : pyval) : bool :=
match v with PDict _ => true | _ => false end.

Definition isinstance_list (v : pyval) : bool :=
match v with PList _ => true | _ => false end.

Fixpoint chars (s : string) : list pyval :=
match s with
| EmptyString => []
| String c s' => PStr (String c EmptyString) :: chars s'
end.

(** [iter(v)]: the items a [for] loop visits; [None] is the TypeError of a
    value that is not iterable. *)
Definition iter (v : pyval) : option (list pyval) :=
match v with
| PList l => Some l
| PStr s => Some (chars s)
| PDict d => Some (map (fun kv => PStr (fst kv)) d)
| _ => None
end.

(** [v.strip()]: [None] is the AttributeError of a value that is no [str]. *)
Definition strip (v : pyval) : option string :=
match v with
| PStr s => Some (PyStr.strip s)
| _ => None
end.

(** [v.lower()]. *)
Definition lower (v : pyval) : option string :=
match v with
| PStr s => Some (PyStr.lower s)
| _ => None
end.

(** Whether [v.copy()] exists: dicts and lists have it, the other values
    raise AttributeError. *)
Definition has_copy (v : pyval) : bool :=
match v with
| PDict _ | PList _ => true
| _ => false
end.

(** [v == s] for a string literal [s]: only a [str] can be equal to it. *)
Definition eq_str (v : pyval) (s : string) : bool :=
match v with
| PStr t => (t =? s)%string
| _ => false
end.

(** [v in [s1, s2, ...]] for string literals. *)
Definition in_strs (v : pyval) (l : list string) : bool :=
existsb (eq_str v) l.

End Py.

(** *** A state-and-error monad for loops inside [try: ... except Exception:]

    The state is the object the loop mutates in place; what was written
    before an exception stays written. *)

Module Exc.

Definition t (S A : Type) : Type := S -> S * option A.

Definition ret {S A} (a : A) : t S A := fun s => (s, Some a).

Definition raise {S A} : t S A := fun s => (s, None).

Definition bind {S A B} (m : t S A) (f : A -> t S B) : t S B :=
fun s =>
  match m s with
  | (s', Some a) => f a s'
  | (s', None) => (s', None)
  end.

Definition lift {S A} (o : option A) : t S A :=
match o with
| Some a => ret a
| None => raise
end.

Definition modify {S} (f : S -> S) : t S unit := fun s => (f s, Some tt).

Fixpoint for_each {S A} (l : list A) (body : A -> t S unit) : t S unit :=
match l with
| [] => ret tt
| x :: l' => bind (body x) (fun _ => for_each l' body)
end.

(** The state left behind, whether or not an exception ended the run. *)
Definition exec {S A} (m : t S A) (s : S) : S := fst (m s).

End Exc.

Declare Scope exc_scope.
Delimit Scope exc_scope with exc.
Notation "x <- m ;; k" := (Exc.bind m (fun x => k))
  (at level 61, m at next level, right associativity) : exc_scope.

(** *** [ValidationUtils.is_valid_command_data] *)

Module ValidationUtils.

Definition required_fields : list string := ["Phrases"; "Action"; "Command"].

Definition is_valid_command_data (command_data : pyval) : bool :=
match command_data with
| PDict d =>
    if negb (forallb (fun field => Py.dict_mem field d) required_fields)
    then false
    else
      let phrases := Py.get_or "Phrases" (PList []) d in
      if negb (Py.isinstance_list phrases) || negb (Py.truthy phrases)
      then false
      else
        let action := Py.get_or "Action" (PStr "") d in
        if negb (Py.in_strs action ["browser"; "command"; "keys"])
        then false
        else
          let command := Py.get_or "Command" (PStr "") d in
          match command with
          | PStr c => negb (PyStr.strip c =? "")%string
          | _ => false
          end
| _ => false
end.

End ValidationUtils.

(** *** [ConfigManager]: the command store *)

Module ConfigManager.

Import Py.

(** The fields of the store that the command operations read or write. *)
Record state : Type := mk_state {
  _commands : dict pyval;
  _auto_save : bool;
  _last_error_message : string;
  _last_conflicts : dict string
}.

Definition with_commands (st : state) (c : dict pyval) : state :=
mk_state c (_auto_save st) (_last_error_message st) (_last_conflicts st).

Definition with_error (st : state) (msg : string) (c : dict string) : state :=
mk_state (_commands st) (_auto_save st) msg c.

(** [cmd.get('Phrases', []) if isinstance(cmd, dict) else []]. *)
Definition phrases_field (cmd : pyval) : pyval :=
match cmd with
| PDict d => get_or "Phrases" (PList []) d
| _ => PList []
end.

(** [[p.strip().lower() for p in items if p and p.strip()]]. *)
Fixpoint normalized (items : list pyval) : option (list string) :=
match items with
| [] => Some []
| p :: rest =>
    if truthy p then
      match strip p with
      | None => None
      | Some s =>
          if (s =? "")%string then normalized rest
          else option_map (cons (PyStr.lower s)) (normalized rest)
      end
    else normalized rest
end.

(** [exclude_description and desc == exclude_description]. *)
Definition excluded (exclude_description : option string) (desc : string)
  : bool :=
match exclude_description with
| Some e => negb (e =? "")%string && (desc =? e)%string
| None => false
end.

(** The innermost loop body: one pair of [zip(phrases, normalized_new)]. *)
Definition check_pair (desc ep_norm : string) (pr : pyval * string)
  : Exc.t (dict string) unit :=
let (np_raw, np_norm) := pr in
if (np_norm =? ep_norm)%string
then (k <- Exc.lift (strip np_raw) ;; Exc.modify (dict_set k desc))%exc
else Exc.ret tt.

(** The body of [for ep in existing_phrases]. *)
Definition check_existing (phrases : pyval) (normalized_new : list string)
  (desc : string) (ep : pyval) : Exc.t (dict string) unit :=
if negb (truthy ep) then Exc.ret tt
else
  (s <- Exc.lift (strip ep) ;;
   if (s =? "")%string then Exc.ret tt
   else
     let ep_norm := PyStr.lower s in
     raw <- Exc.lift (iter phrases) ;;
     Exc.for_each (combine raw normalized_new) (check_pair desc ep_norm))%exc.

(** The body of [for desc, cmd in self._commands.items()]. *)
Definition check_command (phrases : pyval) (normalized_new : list string)
  (exclude_description : option string) (entry : string * pyval)
  : Exc.t (dict string) unit :=
let (desc, cmd) := entry in
if excluded exclude_description desc then Exc.ret tt
else
  (existing_phrases <- Exc.lift (iter (phrases_field cmd)) ;;
   Exc.for_each existing_phrases
     (check_existing phrases normalized_new desc))%exc.

Definition find_body (commands : dict pyval) (phrases : pyval)
  (exclude_description : option string) : Exc.t (dict string) unit :=
(items <- Exc.lift (iter (if truthy phrases then phrases else PList [])) ;;
 normalized_new <- Exc.lift (normalized items) ;;
 match normalized_new with
 | [] => Exc.ret tt
 | _ =>
     Exc.for_each commands
       (check_command phrases normalized_new exclude_description)
 end)%exc.

(** [_find_phrase_conflicts]: the dict built so far is returned also when an
    exception ends the loops. [new_description] is not used by the source. *)
Definition _find_phrase_conflicts (commands : dict pyval)
  (new_description : string) (phrases : pyval)
  (exclude_description : option string) : dict string :=
Exc.exec (find_body commands phrases exclude_description) [].

(** [for ph, owner in cmd_conflicts.items(): if ph not in conflicts: ...]. *)
Definition merge_first (cmd_conflicts conflicts : dict string) : dict string :=
fold_left
  (fun acc entry =>
     if dict_mem (fst entry) acc then acc
     else dict_set (fst entry) (snd entry) acc)
  cmd_conflicts conflicts.

Definition validate_step (commands : dict pyval) (conflicts : dict string)
  (entry : string * pyval) : dict string :=
let (desc, cmd) := entry in
let phrases := phrases_field cmd in
if negb (truthy phrases) then conflicts
else
  merge_first (_find_phrase_conflicts commands desc phrases (Some desc))
    conflicts.

Definition _validate_all_phrase_conflicts (commands : dict pyval)
  : dict string :=
fold_left (validate_step commands) commands [].

Definition quoted_line (entry : string * string) : string :=
"'" ++ fst entry ++ "' -> " ++ snd entry.

Definition plain_line (entry : string * string) : string :=
fst entry ++ " -> " ++ snd entry.

Definition tail_message : string :=
". Remove the old command(s) or update the phrases to resolve the conflict.".

(** [save is True or (save is None and self._auto_save)]. *)
Definition wants_save (st : state) (save : option bool) : bool :=
match save with
| Some b => b
| None => _auto_save st
end.

(** [save_commands]; [disk_ok] is what [JsonUtils.save_json] returns. *)
Definition save_commands (disk_ok : bool) (st : state) : state * bool :=
let conflicts := _validate_all_phrase_conflicts (_commands st) in
match conflicts with
| _ :: _ =>
    let message :=
      "Duplicate phrase(s) detected across commands: "
      ++ PyStr.join ", " (map quoted_line conflicts) ++ tail_message in
    (with_error st message conflicts, false)
| [] => (st, disk_ok)
end.

Definition finish (disk_ok : bool) (st : state) (save : option bool)
  : state * bool :=
if wants_save st save then save_commands disk_ok st else (st, true).

Definition add_command (disk_ok : bool) (st : state) (description : string)
  (command_data : pyval) (save : option bool) : state * bool :=
if negb (ValidationUtils.is_valid_command_data command_data) then
  (with_error st ("Invalid command data for " ++ description) [], false)
else
  let conflicts :=
    _find_phrase_conflicts (_commands st) description
      (phrases_field command_data) None in
  match conflicts with
  | _ :: _ =>
      let message :=
        "Duplicate phrase(s) detected: " ++ PyStr.nl
        ++ PyStr.join PyStr.nl (map plain_line conflicts)
        ++ ". " ++ PyStr.nl
        ++ "Remove the old command(s) or Update the phrase(s) to resolve the conflict."
      in
      (with_error st message conflicts, false)
  | [] =>
      finish disk_ok
        (with_commands st (dict_set description command_data (_commands st)))
        save
  end.

(** [old_value = self._commands[description].copy()], taken before the
    store is written: [None] is the AttributeError of a stored value without
    [copy], which [update_command] and [remove_command] let escape. *)
Definition old_value_copy (st : state) (description : string) : option pyval :=
match dict_get description (_commands st) with
| Some v => if has_copy v then Some v else None
| None => None
end.

(** [update_command]; [None] when an exception escapes. *)
Definition update_command (disk_ok : bool) (st : state) (description : string)
  (command_data : pyval) (save : option bool) : option (state * bool) :=
if negb (dict_mem description (_commands st)) then Some (st, false)
else if negb (ValidationUtils.is_valid_command_data command_data) then
  Some (with_error st ("Invalid command data for " ++ description) [], false)
else
  let conflicts :=
    _find_phrase_conflicts (_commands st) description
      (phrases_field command_data) (Some description) in
  match conflicts with
  | _ :: _ =>
      let message :=
        "Duplicate phrase(s) detected: "
        ++ PyStr.join ", " (map quoted_line conflicts) ++ tail_message in
      Some (with_error st message conflicts, false)
  | [] =>
      match old_value_copy st description with
      | None => None
      | Some _ =>
          Some (finish disk_ok
                  (with_commands st
                     (dict_set description command_data (_commands st)))
                  save)
      end
  end.

(** [remove_command]; [None] when an exception escapes. *)
Definition remove_command (disk_ok : bool) (st : state) (description : string)
  (save : option bool) : option (state * bool) :=
if negb (dict_mem description (_commands st)) then Some (st, false)
else
  match old_value_copy st description with
  | None => None
  | Some _ =>
      Some (finish disk_ok
              (with_commands st (dict_del description (_commands st))) save)
  end.

(** The store after a call: an exception that escapes leaves it as it was. *)
Definition after (st : state) (r : option (state * bool)) : state :=
match r with
| Some r' => fst r'
| None => st
end.

Definition get_last_error_message (st : state) : string :=
let base := _last_error_message st in
match _last_conflicts st with
| _ :: _ =>
    let conflicts_text :=
      "Conflicting phrases: "
      ++ PyStr.join ", " (map quoted_line (_last_conflicts st)) in
    if (base =? "")%string then conflicts_text
    else base ++ PyStr.nl ++ conflicts_text
| [] => base
end.

(** The value of what [get_all_commands] returns (the objects themselves
    are modelled in [Heap] below). *)
Definition get_all_commands (st : state) : dict pyval := _commands st.

End ConfigManager.

(** *** [CommandManager]: resolution of an input text *)

Module CommandManager.

Import Py.

(** One entry of [matches]. *)
Record candidate : Type := mk_candidate {
  description : string;
  pattern : string;
  pattern_search : string;
  match_length : nat;
  is_word_boundary : bool;
  original_voice_text : string
}.

Definition _is_word_boundary_match (search_text pattern : string) : bool :=
PyStr.search_bounded None pattern search_text.

(** The body of [for pattern in phrases] ([partial_match] is always [True]);
    [None] is the AttributeError of [pattern.lower()] on a value that is no
    [str], which the source does not catch. *)
Fixpoint scan_phrases (desc voice_text voice_text_lower : string)
  (phrases : list pyval) (matches : list candidate)
  : option (list candidate) :=
match phrases with
| [] => Some matches
| PStr p :: rest =>
    let pattern_lower := PyStr.lower p in
    if PyStr.contains pattern_lower voice_text_lower then
      scan_phrases desc voice_text voice_text_lower rest
        (matches ++
         [mk_candidate desc p pattern_lower (String.length pattern_lower)
            (_is_word_boundary_match voice_text_lower pattern_lower)
            voice_text])
    else scan_phrases desc voice_text voice_text_lower rest matches
| _ :: _ => None
end.

(** The body of [for description, command_data in self.commands.items()];
    [command_data.get] needs a dict and the loop an iterable. *)
Fixpoint scan_commands (voice_text voice_text_lower : string)
  (commands : dict pyval) (matches : list candidate)
  : option (list candidate) :=
match commands with
| [] => Some matches
| (desc, PDict d) :: rest =>
    match iter (get_or "Phrases" (PList []) d) with
    | None => None
    | Some phrases =>
        match scan_phrases desc voice_text voice_text_lower phrases matches
        with
        | None => None
        | Some matches' =>
            scan_commands voice_text voice_text_lower rest matches'
        end
    end
| _ :: _ => None
end.

(** The sort key [(not is_word_boundary, -match_length, description)] and
    the order [<] of Python tuples on it. *)
Definition sort_key (m : candidate) : bool * Z * string :=
(negb (is_word_boundary m), (- Z.of_nat (match_length m))%Z, description m).

Definition bool_lt (a b : bool) : bool := negb a && b.

Definition key_lt (k1 k2 : bool * Z * string) : bool :=
match k1, k2 with
| (b1, z1, s1), (b2, z2, s2) =>
    if negb (Bool.eqb b1 b2) then bool_lt b1 b2
    else if negb (z1 =? z2)%Z then (z1 <? z2)%Z
    else String.ltb s1 s2
end.

(** [list.sort(key=...)] is stable; an element is inserted before the first
    element of the sorted rest that is not strictly smaller than it. *)
Fixpoint insert (x : candidate) (l : list candidate) : list candidate :=
match l with
| [] => [x]
| y :: l' =>
    if key_lt (sort_key y) (sort_key x) then y :: insert x l'
    else x :: y :: l'
end.

Fixpoint sort (l : list candidate) : list candidate :=
match l with
| [] => []
| x :: l' => insert x (sort l')
end.

(** [parse_voice_command] over the snapshot [commands] that the property
    [self.commands] returns: [(description, matched_pattern, additional_text)]. *)
Definition parse_voice_command (commands : dict pyval) (voice_text : string)
  : option (option string * string * string) :=
let voice_text_lower := PyStr.strip (PyStr.lower voice_text) in
match scan_commands voice_text voice_text_lower commands [] with
| None => None
| Some matches =>
    match sort matches with
    | best_match :: _ =>
        let pattern_to_remove := pattern best_match in
        let additional_text :=
          PyStr.strip (PyStr.replace_with_empty pattern_to_remove voice_text) in
        Some (Some (description best_match), pattern best_match,
              additional_text)
    | [] => Some (None, "", voice_text)
    end
end.

End CommandManager.

(** *** The objects behind [get_command] and [get_all_commands]

    Dicts and lists are objects in a heap and values refer to them, so
    that what [dict.copy()] shares with the original can be observed. *)

Module Heap.

Import Py.

Inductive hval : Type :=
| HNone
| HBool (b : bool)
| HInt (z : Z)
| HStr (s : string)
| HRef (a : nat).

Inductive obj : Type :=
| ODict (d : dict hval)
| OList (l : list hval).

(** The object at address [a] is the [a]-th of the heap. *)
Definition heap : Type := list obj.

Definition read (h : heap) (a : nat) : option obj := nth_error h a.

Fixpoint write (h : heap) (a : nat) (o : obj) : heap :=
match h, a with
| [], _ => []
| _ :: h', O => o :: h'
| x :: h', S a' => x :: write h' a' o
end.

Definition alloc (h : heap) (o : obj) : heap * hval :=
((h ++ [o])%list, HRef (length h)).

(** [v.copy()]: a new object with the same items; the items themselves are
    not copied. [None] is the AttributeError of a value without [copy]. *)
Definition copy (h : heap) (v : hval) : option (heap * hval) :=
match v with
| HRef a =>
    match read h a with
    | Some o => Some (alloc h o)
    | None => None
    end
| _ => None
end.

(** [self._commands.copy()], [_commands] being the address of the map. *)
Definition get_all_commands (h : heap) (_commands : nat)
  : option (heap * hval) :=
copy h (HRef _commands).

(** [self._commands.get(description, {}).copy() if description in
    self._commands else None]. *)
Definition get_command (h : heap) (_commands : nat) (description : string)
  : option (heap * hval) :=
match read h _commands with
| Some (ODict d) =>
    match dict_get description d with
    | Some v => copy h v
    | None => Some (h, HNone)
    end
| _ => None
end.

(** What a caller can do with a value it holds: [target[k]],
    [target[k] = v] and [target.append(v)]. *)
Definition getitem (h : heap) (target : hval) (k : string) : option hval :=
match target with
| HRef a =>
    match read h a with
    | Some (ODict d) => dict_get k d
    | _ => None
    end
| _ => None
end.

Definition setitem (h : heap) (target : hval) (k : string) (v : hval)
  : option heap :=
match target with
| HRef a =>
    match read h a with
    | Some (ODict d) => Some (write h a (ODict (dict_set k v d)))
    | _ => None
    end
| _ => None
end.

Definition append (h : heap) (target : hval) (v : hval) : option heap :=
match target with
| HRef a =>
    match read h a with
    | Some (OList l) => Some (write h a (OList (l ++ [v])%list))
    | _ => None
    end
| _ => None
end.

(** The value an object graph denotes, read to depth [fuel]. *)
Fixpoint reify (fuel : nat) (h : heap) (v : hval) : pyval :=
match v with
| HNone => PNone
| HBool b => PBool b
| HInt z => PInt z
| HStr s => PStr s
| HRef a =>
    match fuel with
    | O => PNone
    | S n =>
        match read h a with
        | Some (ODict d) =>
            PDict (map (fun kv => (fst kv, reify n h (snd kv))) d)
        | Some (OList l) => PList (map (reify n h) l)
        | None => PNone
        end
    end
end.

(** What a caller sees of a returned value. *)
Definition view (fuel : nat) (r : option (heap * hval)) : option pyval :=
match r with
| Some (h, v) => Some (reify fuel h v)
| None => None
end.

Definition obj_values (o : obj) : list hval :=
match o with
| ODict d => map snd d
| OList l => l
end.

Definition bounded (n : nat) (v : hval) : Prop :=
match v with
| HRef a => a < n
| _ => True
end.

(** No object of the heap refers outside the heap. *)
Definition closed (h : heap) : Prop :=
forall a o v, read h a = Some o -> In v (obj_values o) -> bounded (length h) v.

(** A store whose map, at address 0, holds the command ["X"] with the
    phrase list [["go"]]. *)
Definition go_heap : heap :=
[ODict [("X", HRef 1)];
 ODict [("Phrases", HRef 2); ("Action", HStr "keys");
        ("Command", HStr "ctrl+g")];
 OList [HStr "go"]].

(** [snapshot = get_all_commands(); snapshot["X"]["Phrases"].append("stop")]:
    the heap after the caller's statement. *)
Definition append_through_snapshot (h : heap) (_commands : nat)
  : option heap :=
match get_all_commands h _commands with
| Some (h1, snapshot) =>
    match getitem h1 snapshot "X" with
    | Some x =>
        match getitem h1 x "Phrases" with
        | Some phrases => append h1 phrases (HStr "stop")
        | None => None
        end
    | None => None
    end
| None => None
end.

(** [rec = get_command("X"); rec["Phrases"].append("stop")]. *)
Definition append_through_record (h : heap) (_commands : nat) : option heap :=
match get_command h _commands "X" with
| Some (h1, rec) =>
    match getitem h1 rec "Phrases" with
    | Some phrases => append h1 phrases (HStr "stop")
    | None => None
    end
| None => None
end.

(** The command map a later [get_all_commands] denotes. *)
Definition snapshot_value (h : option heap) (_commands : nat) : dict pyval :=
match h with
| Some h' =>
    match view 3 (get_all_commands h' _commands) with
    | Some (PDict d) => d
    | _ => []
    end
| None => []
end.

(** What a later [get_command] shows, after a caller's statements. *)
Definition later_get_command (h : option heap) (_commands : nat)
  (description : string) : option pyval :=
match h with
| Some h' => view 3 (get_command h' _commands description)
| None => None
end.

End Heap.

(** *** Vocabulary of the properties *)

Module Spec.

Import Py.

Definition is_str (v : pyval) : bool :=
match v with PStr _ => true | _ => false end.

(** A phrase is blank when nothing is left of it after trimming. *)
Definition blank (s : string) : bool := (PyStr.strip s =? "")%string.

(** The normal form of a phrase: trimmed, then lower-cased. *)
Definition norm (s : string) : string := PyStr.lower (PyStr.strip s).

(** The normal forms of the non-blank string items of a phrase list. *)
Fixpoint norms (items : list pyval) : list string :=
match items with
| [] => []
| PStr s :: rest => if blank s then norms rest else norm s :: norms rest
| _ :: rest => norms rest
end.

(** The normal forms of all string items, blank ones included. *)
Fixpoint all_norms (items : list pyval) : list string :=
match items with
| [] => []
| PStr s :: rest => norm s :: all_norms rest
| _ :: rest => all_norms rest
end.

(** The items of a candidate phrase list. *)
Definition phrase_list (phrases : pyval) : list pyval :=
match iter phrases with
| Some items => items
| None => []
end.

Definition phrase_items (cmd : pyval) : list pyval :=
phrase_list (ConfigManager.phrases_field cmd).

(** The non-blank normal forms a command record owns. *)
Definition owned (cmd : pyval) : list string := norms (phrase_items cmd).

(** A record whose phrases can be iterated and are all strings. *)
Definition typed_record (cmd : pyval) : Prop :=
exists items,
  iter (ConfigManager.phrases_field cmd) = Some items
  /\ forallb is_str items = true.

Definition typed_store (commands : dict pyval) : Prop :=
forall o cmd, In (o, cmd) commands -> typed_record cmd.

(** No two distinct descriptions own a common non-blank normal form. *)
Definition conflict_free (commands : dict pyval) : Prop :=
forall o1 c1 o2 c2 n,
  In (o1, c1) commands -> In (o2, c2) commands -> o1 <> o2 ->
  In n (owned c1) -> In n (owned c2) -> False.

(** The same with blank phrases counted: two distinct descriptions own
    phrases that are equal after trimming and lower-casing. *)
Definition overlap_after_normalizing (commands : dict pyval) : Prop :=
exists o1 c1 o2 c2 n,
  In (o1, c1) commands /\ In (o2, c2) commands /\ o1 <> o2
  /\ In n (all_norms (phrase_items c1)) /\ In n (all_norms (phrase_items c2)).

(** One call of a mutating operation of the store, on a record whose phrases
    are strings. *)
Inductive step (st : ConfigManager.state) : ConfigManager.state -> Prop :=
| step_add disk_ok description command_data save :
    typed_record command_data ->
    step st
      (fst (ConfigManager.add_command disk_ok st description command_data save))
| step_update disk_ok description command_data save :
    typed_record command_data ->
    step st
      (ConfigManager.after st
         (ConfigManager.update_command disk_ok st description command_data
            save))
| step_remove disk_ok description save :
    step st
      (ConfigManager.after st
         (ConfigManager.remove_command disk_ok st description save)).

(** Any finite sequence of such calls. *)
Inductive reachable (st : ConfigManager.state) : ConfigManager.state -> Prop :=
| reach_here : reachable st st
| reach_step st1 st2 : reachable st st1 -> step st1 st2 -> reachable st st2.

(** What justifies an entry [k -> o] of a conflict map computed for the
    candidate [phrases] with normal forms [nn]: a command [o] that is not
    excluded and owns the normal form paired with the item whose trimmed text
    is the key. *)
Definition justified (commands : dict pyval) (exclude : option string)
  (phrases : pyval) (nn : list string) (k o : string) : Prop :=
exists cmd raw item np,
  In (o, cmd) commands /\ ConfigManager.excluded exclude o = false
  /\ iter phrases = Some raw /\ In (item, np) (combine raw nn)
  /\ strip item = Some k /\ In np (owned cmd).

Definition all_entries (P : string -> string -> Prop) (s : dict string)
  : Prop :=
forall k o, In (k, o) s -> P k o.

(** A record without a usable phrase list: it is no dict, or its
    [Phrases] field is missing, is no list, or is the empty list. *)
Definition lacks_phrase_list (command_data : pyval) : Prop :=
forall d x l,
  command_data = PDict d -> dict_get "Phrases" d = Some (PList (x :: l)) ->
  False.

Definition nonblank_str (v : pyval) : bool :=
match v with PStr s => negb (blank s) | _ => false end.

Definition invalid_message (description : string) : string :=
"Invalid command data for " ++ description.

(** A command map the resolver can scan: every value is a dict whose
    [Phrases], when present, can be iterated and holds strings. *)
Definition resolvable (commands : dict pyval) : Prop :=
forall o cmd,
  In (o, cmd) commands ->
  exists d items,
    cmd = PDict d /\ iter (get_or "Phrases" (PList []) d) = Some items
    /\ forallb is_str items = true.

(** The comparison text of step 1: lower-cased, then trimmed. *)
Definition comparison_text (voice_text : string) : string :=
PyStr.strip (PyStr.lower voice_text).

(** The candidate recorded for phrase [p] of command [desc]. *)
Definition candidate_for (desc voice_text p : string)
  : CommandManager.candidate :=
CommandManager.mk_candidate desc p (PyStr.lower p)
  (String.length (PyStr.lower p))
  (CommandManager._is_word_boundary_match (comparison_text voice_text)
     (PyStr.lower p))
  voice_text.

(** [c] is a candidate: some phrase of some command, lower-cased, occurs in
    the comparison text. *)
Definition is_candidate (commands : dict pyval) (voice_text : string)
  (c : CommandManager.candidate) : Prop :=
exists desc d p,
  In (desc, PDict d) commands
  /\ In (PStr p) (phrase_list (get_or "Phrases" (PList []) d))
  /\ PyStr.contains (PyStr.lower p) (comparison_text voice_text) = true
  /\ c = candidate_for desc voice_text p.

(** The tie-break order: word-boundary matches first, then longer phrases,
    then descriptions in ascending lexicographic order. *)
Definition ranks_no_later (a b : CommandManager.candidate) : Prop :=
(CommandManager.is_word_boundary a = true
 /\ CommandManager.is_word_boundary b = false)
\/ (CommandManager.is_word_boundary a = CommandManager.is_word_boundary b
    /\ (CommandManager.match_length b < CommandManager.match_length a
        \/ (CommandManager.match_length a = CommandManager.match_length b
            /\ String.leb (CommandManager.description a)
                 (CommandManager.description b) = true))).

(** The remainder in the words of the specification: the first textual
    occurrence of [old] removed from [s]. *)
Fixpoint spec_remove_first (old s : string) : string :=
if prefix old s then PyStr.drop (String.length old) s
else
  match s with
  | EmptyString => EmptyString
  | String c s' => String c (spec_remove_first old s')
  end.

(** No occurrence of [p] starts inside [a] when [a] is followed by [rest]. *)
Definition no_start_within (p a rest : string) : Prop :=
forall a1 c a2,
  a = a1 ++ String c a2 -> prefix p (String c a2 ++ rest) = false.

(** Whether the character next to a place in a text is a word character;
    beyond either end of the text there is none. *)
Definition word_char (c : option ascii) : bool :=
match c with
| Some x => PyStr.isword x
| None => false
end.

(** The phrase [p] occurs in [text] at word boundaries: at some occurrence,
    exactly one of the two characters around the place where it starts is a
    word character, and likewise around the place where it ends. *)
Definition at_word_boundary (text p : string) : Prop :=
exists a b,
  text = a ++ p ++ b
  /\ word_char (PyStr.last_char None a) <> word_char (PyStr.head (p ++ b))
  /\ word_char (PyStr.last_char None (a ++ p)) <> word_char (PyStr.head b).

(** A match of step 2: the phrase [p] of the command [desc], lower-cased,
    is a substring of the comparison text. *)
Definition is_match (commands : dict pyval) (voice_text desc p : string)
  : Prop :=
exists d,
  In (desc, PDict d) commands
  /\ In (PStr p) (phrase_list (get_or "Phrases" (PList []) d))
  /\ PyStr.contains (PyStr.lower p) (comparison_text voice_text) = true.

(** The order of step 4 between the match of phrase [p1] of command [desc1]
    and that of phrase [p2] of command [desc2], the phrases lower-cased as
    they are compared with [text]: a match at word boundaries before one
    that is not; among ties the longer phrase; among remaining ties the
    description that is first in lexicographic order. *)
Definition comes_no_later (text desc1 p1 desc2 p2 : string) : Prop :=
(at_word_boundary text (PyStr.lower p1)
 /\ ~ at_word_boundary text (PyStr.lower p2))
\/ ((at_word_boundary text (PyStr.lower p1)
     <-> at_word_boundary text (PyStr.lower p2))
    /\ (String.length (PyStr.lower p2) < String.length (PyStr.lower p1)
        \/ (String.length (PyStr.lower p1) = String.length (PyStr.lower p2)
            /\ String.leb desc1 desc2 = true))).

(** [o] is the last command in map order that owns the normal form [n]. *)
Definition last_owner (commands : dict pyval) (n o : string) : Prop :=
exists before cmd after,
  commands = (before ++ (o, cmd) :: after)%list
  /\ In n (owned cmd)
  /\ forall o' cmd', In (o', cmd') after -> ~ In n (owned cmd').

End Spec.

(** *** Stores and command maps used as examples *)

Module Examples.

Import Py.

(** A record of the shape the data model describes. *)
Definition record (phrases : list string) (action command : string) : pyval :=
PDict [("Phrases", PList (map PStr phrases)); ("Action", PStr action);
       ("Command", PStr command)].

Definition empty_store : ConfigManager.state :=
ConfigManager.mk_state [] true "" [].

Definition notepad_store : ConfigManager.state :=
ConfigManager.mk_state
  [("Open Notepad", record ["notepad"] "command" "notepad.exe")] true "" [].

(** A store in which the command ["X"] owns the phrase ["go"]. *)
Definition go_store : ConfigManager.state :=
ConfigManager.mk_state [("X", record ["go"] "keys" "ctrl+g")] true "" [].

(** A store holding two commands that share a phrase, as a direct import
    can leave it, next to a third one. *)
Definition imported_store : ConfigManager.state :=
ConfigManager.mk_state
  [("D", record ["dee"] "keys" "ctrl+d");
   ("E1", record ["x"] "keys" "ctrl+e");
   ("E2", record ["x"] "keys" "ctrl+f")] true "" [].

Definition blank_store : ConfigManager.state :=
ConfigManager.mk_state [("Blank", record [""] "keys" "ctrl+b")] true "" [].

(** Two calls from the empty store, adding commands whose only phrases are
    blank. *)
Definition two_blank_commands : ConfigManager.state :=
fst (ConfigManager.add_command true
       (fst (ConfigManager.add_command true empty_store "A"
               (record [" "] "keys" "ctrl+a") None))
       "B" (record [""] "keys" "ctrl+b") None).

(** One call from the empty store, adding a command under the empty
    description. *)
Definition empty_description_command : ConfigManager.state :=
fst (ConfigManager.add_command true empty_store ""
       (record ["go"] "keys" "ctrl+g") None).

(** Command A owns ["open browser"], command B owns ["browser"]. *)
Definition browser_commands : dict pyval :=
[("A", record ["open browser"] "browser" "https://example.org/?q={query}");
 ("B", record ["browser"] "browser" "https://example.org")].

Definition go_commands : dict pyval := [("G", record ["go"] "keys" "ctrl+g")].

(** A command whose phrase ends with a space. *)
Definition trailing_space_commands : dict pyval :=
[("G", record ["go "] "keys" "ctrl+g")].

End Examples.

(** *** Further string methods *)

Module PyText.

Fixpoint take (n : nat) (s : string) : string :=
match n, s with
| O, _ => EmptyString
| S _, EmptyString => EmptyString
| S k, String c s' => String c (take k s')
end.

(** [s[:k]] for an integer [k]: a negative [k] counts from the end. *)
Definition slice_to (k : Z) (s : string) : string :=
if (0 <=? k)%Z then take (Z.to_nat k) s
else take (String.length s - Z.to_nat (- k)) s.

(** [s.split(sep)] for a separator of one character. *)
Fixpoint split (sep : ascii) (s : string) : list string :=
match s with
| EmptyString => [EmptyString]
| String c s' =>
    if Ascii.eqb c sep then EmptyString :: split sep s'
    else
      match split sep s' with
      | x :: rest => String c x :: rest
      | [] => [String c EmptyString]
      end
end.

(** [s.replace(old, new)] for a non-empty [old]; [skip] counts the
    characters of the occurrence being replaced that are still to be passed
    over. *)
Fixpoint replace_from (old new : string) (skip : nat) (s : string) : string :=
match s with
| EmptyString => EmptyString
| String c s' =>
    match skip with
    | S k => replace_from old new k s'
    | O =>
        if prefix old s
        then new ++ replace_from old new (String.length old - 1) s'
        else String c (replace_from old new 0 s')
    end
end.

Fixpoint intersperse (new s : string) : string :=
match s with
| EmptyString => EmptyString
| String c s' => String c (new ++ intersperse new s')
end.

(** [s.replace(old, new)]; an empty [old] matches before every character and
    at the end. *)
Definition replace (old new s : string) : string :=
match old with
| EmptyString => new ++ intersperse new s
| _ => replace_from old new 0 s
end.

(** [s.lstrip(chars)] and [s.rstrip(chars)], the set of characters given by
    its membership test. *)
Fixpoint lstrip_by (f : ascii -> bool) (s : string) : string :=
match s with
| EmptyString => EmptyString
| String c s' => if f c then lstrip_by f s' else s
end.

Fixpoint rstrip_by (f : ascii -> bool) (s : string) : string :=
match s with
| EmptyString => EmptyString
| String c s' =>
    match rstrip_by f s' with
    | EmptyString => if f c then EmptyString else String c EmptyString
    | r => String c r
    end
end.

Definition strip_by (f : ascii -> bool) (s : string) : string :=
rstrip_by f (lstrip_by f s).

Fixpoint map_chars (f : ascii -> ascii) (s : string) : string :=
match s with
| EmptyString => EmptyString
| String c s' => String (f c) (map_chars f s')
end.

Fixpoint all_chars (f : ascii -> bool) (s : string) : bool :=
match s with
| EmptyString => true
| String c s' => f c && all_chars f s'
end.

Definition hex_digit (n : N) : ascii :=
if (n <? 10)%N then ascii_of_N (48 + n) else ascii_of_N (55 + n).

(** ["%XX"] for one byte. *)
Definition percent (byte : N) : string :=
String "%" (String (hex_digit (byte / 16)) (String (hex_digit (byte mod 16))
  EmptyString)).

(** The characters [urllib.parse.quote] never escapes. *)
Definition always_safe (c : ascii) : bool :=
let n := N_of_ascii c in
(((48 <=? n) && (n <=? 57)) || ((65 <=? n) && (n <=? 90))
 || ((97 <=? n) && (n <=? 122)) || (n =? 95) || (n =? 46) || (n =? 45)
 || (n =? 126))%N.

(** [urllib.parse.quote_plus] on one character: a space becomes [+], a
    character that is not always safe is escaped byte by byte in UTF-8 (two
    bytes from code point 128 on). *)
Definition quote_plus_char (c : ascii) : string :=
let n := N_of_ascii c in
if always_safe c then String c EmptyString
else if (n =? 32)%N then "+"
else if (n <? 128)%N then percent n
else percent (192 + n / 64) ++ percent (128 + n mod 64).

Fixpoint quote_plus (s : string) : string :=
match s with
| EmptyString => EmptyString
| String c s' => quote_plus_char c ++ quote_plus s'
end.

End PyText.

(** *** [StringUtils] and [ConfigUtils] of [core/utils.py] *)

Module StringUtils.

Definition truncate_string (text : string) (max_length : Z) (suffix : string)
  : string :=
if (Z.of_nat (String.length text) <=? max_length)%Z then text
else PyText.slice_to (max_length - Z.of_nat (String.length suffix)) text
     ++ suffix.

(** The character class of the regular expression, by code point: the
    angle brackets, the colon, the double quote, the slash, the backslash,
    the bar, the question mark and the star. *)
Definition invalid_char (c : ascii) : bool :=
let n := N_of_ascii c in
((n =? 60) || (n =? 62) || (n =? 58) || (n =? 34) || (n =? 47) || (n =? 92)
 || (n =? 124) || (n =? 63) || (n =? 42))%N.

Definition underscore : ascii := ascii_of_N 95.

(** The characters of [strip('. ')]. *)
Definition dot_or_space (c : ascii) : bool :=
let n := N_of_ascii c in ((n =? 46) || (n =? 32))%N.

Definition sanitize_filename (filename : string) : string :=
let sanitized :=
  PyText.map_chars (fun c => if invalid_char c then underscore else c)
    filename in
let sanitized := PyText.strip_by dot_or_space sanitized in
match sanitized with
| EmptyString => "unnamed"
| _ => sanitized
end.

(** [format_command_string]; [CommandManager._format_command_string] has the
    same body. The ImportError branch cannot be taken: [urllib.parse] is part
    of the standard library. *)
Definition format_command_string (template query : string) : string :=
let formatted :=
  PyText.replace "{query}" (PyText.replace " " "+" query) template in
let formatted := PyText.replace "{raw_query}" query formatted in
let encoded_query := PyText.quote_plus query in
PyText.replace "{encoded_query}" encoded_query formatted.

End StringUtils.

Module ConfigUtils.

Import Py.

Definition dot : ascii := ascii_of_N 46.

(** [value[key]] for a string key: [None] is the KeyError of a dict without
    the key or the TypeError of a value that is no dict. *)
Definition subscript (value : pyval) (key : string) : option pyval :=
match value with
| PDict d => dict_get key d
| _ => None
end.

(** [for key in keys: value = value[key]]. *)
Fixpoint walk (keys : list string) (value : pyval) : option pyval :=
match keys with
| [] => Some value
| key :: rest =>
    match subscript value key with
    | Some v => walk rest v
    | None => None
    end
end.

Definition get_nested_value (data : pyval) (key_path : string)
  (default : pyval) : pyval :=
match walk (PyText.split dot key_path) data with
| Some value => value
| None => default
end.

(** The loop over [keys[:-1]] and the final assignment, on the tree that
    [data] is: the node reached is created when its key is missing, and a
    node that is no dict ends the call by an exception ([None]), which can
    only happen before anything was written. *)
Fixpoint set_path (keys : list string) (value : pyval) (current : pyval)
  : option pyval :=
match keys with
| [] => None
| [last] =>
    match current with
    | PDict d => Some (PDict (dict_set last value d))
    | _ => None
    end
| key :: rest =>
    match current with
    | PDict d =>
        let child :=
          match dict_get key d with Some c => c | None => PDict [] end in
        match set_path rest value child with
        | Some child' => Some (PDict (dict_set key child' d))
        | None => None
        end
    | _ => None
    end
end.

(** [set_nested_value]: the tree [data] is after the call, [None] when the
    call raises. *)
Definition set_nested_value (data : pyval) (key_path : string) (value : pyval)
  : option pyval :=
set_path (PyText.split dot key_path) value data.

(** [merge_dict(base, user)] for [base = base_value] when that is a dict:
    the value stored under a key of [user]. *)
Fixpoint merge_value (user_value : pyval) (base_value : option pyval)
  : pyval :=
match user_value, base_value with
| PDict u, Some (PDict b) =>
    PDict
      ((fix loop (items : list (string * pyval)) (result : dict pyval)
          : dict pyval :=
          match items with
          | [] => result
          | (key, value) :: rest =>
              loop rest
                (dict_set key (merge_value value (dict_get key result)) result)
          end) u b)
| _, _ => user_value
end.

(** The loop of [merge_dict] over [user.items()]. *)
Fixpoint merge_dict (base user : dict pyval) : dict pyval :=
match user with
| [] => base
| (key, value) :: rest =>
    merge_dict (dict_set key (merge_value value (dict_get key base)) base) rest
end.

(** [merge_configs]: [None] when the call raises ([base] without [copy],
    [user] without [items], or item assignment on a list). *)
Definition merge_configs (base_config user_config : pyval) : option pyval :=
match base_config, user_config with
| PDict b, PDict u => Some (PDict (merge_dict b u))
| PList l, PDict [] => Some (PList l)
| _, _ => None
end.

End ConfigUtils.

(** *** [CommandManager]: execution of a resolved command

    What the executors do outside the program (open a URL, start a process,
    send keys, open a dialog) is the function [io]: it takes the request and
    the state of the world, and returns the new state with whether the call
    came back without exception. *)

Module CommandExecution.

Import Py.

Inductive effect : Type :=
| OpenBrowser (url : string)
| RunBatch (command : string)
| PressKey (key : string)
| Hotkey (keys : list string)
| ShowPhrases
| ShowSettings.

Definition plus : ascii := ascii_of_N 43.

(** [[key.strip().lower() for key in shortcut_keys.split('+')]]. *)
Definition parse_keys (shortcut_keys : string) : list string :=
map (fun key => PyStr.lower (PyStr.strip key)) (PyText.split plus shortcut_keys).

(** [_format_command_string]: [None] is the AttributeError of a command that
    is no [str]. *)
Definition _format_command_string (command_string : pyval) (query : string)
  : option string :=
match command_string with
| PStr c => Some (StringUtils.format_command_string c query)
| _ => None
end.

Section WithWorld.

Variable W : Type.
Variable io : effect -> W -> bool * W.

Definition _execute_browser (url : string) (w : W) : bool * W :=
io (OpenBrowser url) w.

Definition _execute_batch (command : string) (w : W) : bool * W :=
io (RunBatch command) w.

(** [_execute_keys]: a value that is no [str] fails at [split], inside the
    [try]. *)
Definition _execute_keys (shortcut_keys : pyval) (w : W) : bool * W :=
match shortcut_keys with
| PStr s =>
    let keys := parse_keys s in
    match keys with
    | [key] => io (PressKey key) w
    | _ => io (Hotkey keys) w
    end
| _ => (false, w)
end.

Definition _execute_internal (internal_cmd : pyval) (w : W) : bool * W :=
match (if truthy internal_cmd then internal_cmd else PStr "") with
| PStr s =>
    let internal_cmd := PyStr.lower (PyStr.strip s) in
    if (internal_cmd =? "")%string then (false, w)
    else if (internal_cmd =? "show_phrases")%string then io ShowPhrases w
    else if (internal_cmd =? "show_settings")%string
            || (internal_cmd =? "open_settings")%string
    then io ShowSettings w
    else (false, w)
| _ => (false, w)
end.

(** [execute_command] over the snapshot [commands]; [None] is the
    AttributeError of [command_data.get] on a stored value that is no dict,
    raised before the [try]. *)
Definition execute_command (commands : dict pyval) (description : string)
  (additional_text : string) (w : W) : option (bool * W) :=
match dict_get description commands with
| None => Some (false, w)
| Some (PDict command_data) =>
    let action := get_or "Action" (PStr "command") command_data in
    let command := get_or "Command" (PStr "") command_data in
    if eq_str action "browser" then
      match _format_command_string command additional_text with
      | Some formatted_command => Some (_execute_browser formatted_command w)
      | None => Some (false, w)
      end
    else if eq_str action "command" then
      match _format_command_string command additional_text with
      | Some formatted_command => Some (_execute_batch formatted_command w)
      | None => Some (false, w)
      end
    else if eq_str action "keys" then
      let shortcut_keys := get_or "Command" PNone command_data in
      if negb (truthy shortcut_keys) then Some (false, w)
      else Some (_execute_keys shortcut_keys w)
    else if eq_str action "internal" then
      Some (_execute_internal (get_or "Command" (PStr "") command_data) w)
    else Some (false, w)
| Some _ => None
end.

(** [handle_voice_command]: an empty description counts as no match. *)
Definition handle_voice_command (commands : dict pyval) (voice_text : string)
  (w : W) : option (bool * W) :=
match CommandManager.parse_voice_command commands voice_text with
| None => None
| Some (description, _, additional_text) =>
    match description with
    | Some d =>
        if negb (d =? "")%string
        then execute_command commands d additional_text w
        else Some (false, w)
    | None => Some (false, w)
    end
end.

End WithWorld.

End CommandExecution.

(** *** [ConfigManager]: loading and importing the command map

    The content of a JSON file is the value [json.load] returns for it;
    [json.dump] followed by [json.load] gives back a value made of dicts with
    string keys, lists, strings, integers, booleans and [None]. *)

Module ConfigFiles.

Import Py ConfigManager.

(** [_load_configurations], as far as the command map goes.
    [commands_file] is what [json.load] returns for [commands.json], [None]
    when the file is missing or is not JSON ([load_json] then returns the
    default [{}]). A document that is no object has no [items]: the
    exception is caught and the map stays as it was. *)
Definition _load_configurations (st : state) (commands_file : option pyval)
  : state :=
let commands_data :=
  match commands_file with Some v => v | None => PDict [] end in
match commands_data with
| PDict d =>
    with_commands st
      (filter (fun kv => negb (fst kv =? "settings")%string) d)
| _ => st
end.

(** [reload_all]: the exceptions are caught inside [_load_configurations],
    so the result is always [True]. *)
Definition reload_all (st : state) (commands_file : option pyval)
  : state * bool :=
(_load_configurations st commands_file, true).

(** [self._commands.update(data)] for a dict [data]. *)
Definition dict_update {V} (base data : dict V) : dict V :=
fold_left (fun acc kv => dict_set (fst kv) (snd kv) acc) data base.

(** [import_config(file_path, 'commands', merge)] for a file holding a JSON
    object [data] ([None] when [load_json] returns [None]): nothing is
    validated; with auto-save on, [save_settings] and [save_commands] are
    called and their results are not looked at. *)
Definition import_commands (disk_ok : bool) (st : state)
  (data : option (dict pyval)) (merge : bool) : state * bool :=
match data with
| None | Some [] => (st, false)
| Some d =>
    let st' :=
      with_commands st (if merge then dict_update (_commands st) d else d) in
    if _auto_save st' then (fst (save_commands disk_ok st'), true)
    else (st', true)
end.

End ConfigFiles.

(** *** [save_commands] with the file it writes

    The same function as [ConfigManager.save_commands], with the call of
    [JsonUtils.save_json] kept as a call: [save_json] takes the data and the
    disk and returns its result and the disk it leaves. *)

Module CommandsFile.

Import Py ConfigManager.

Section WithDisk.

Variable D : Type.
Variable save_json : dict pyval -> D -> bool * D.

Definition save_commands (st : state) (disk : D) : state * bool * D :=
let conflicts := _validate_all_phrase_conflicts (_commands st) in
match conflicts with
| _ :: _ =>
    let message :=
      "Duplicate phrase(s) detected across commands: "
      ++ PyStr.join ", " (map quoted_line conflicts) ++ tail_message in
    (with_error st message conflicts, false, disk)
| [] =>
    let commands_data := _commands st in
    let (success, disk') := save_json commands_data disk in
    (st, success, disk')
end.

End WithDisk.

End CommandsFile.

(** *** The phrase listing ([core/command_manager.py]) *)

Module PhraseListing.

Import Py.

(** One entry of [phrases_info]. *)
Record info : Type := mk_info {
  phrase : string;
  description : string;
  action : pyval;
  command : pyval
}.

(** [len(v)]: [None] is the TypeError of a value without a length. *)
Definition len (v : pyval) : option nat :=
match v with
| PStr s => Some (String.length s)
| PList l => Some (List.length l)
| PDict d => Some (List.length d)
| _ => None
end.

(** [command if len(command) <= 80 else command[:80] + "..."]: a sliced
    list cannot be added to a [str], and a dict cannot be sliced. *)
Definition display_command (command : pyval) : option pyval :=
match len command with
| None => None
| Some n =>
    if (n <=? 80)%nat then Some command
    else
      match command with
      | PStr s => Some (PStr (PyText.take 80 s ++ "..."))
      | _ => None
      end
end.

(** The body of [for phrase in phrases]. *)
Definition add_phrase (description : string) (action display_command : pyval)
  (phrase : pyval) : Exc.t (list info) unit :=
(s <- Exc.lift (strip phrase) ;;
 if negb (s =? "")%string
 then Exc.modify
        (fun phrases_info =>
           (phrases_info ++ [mk_info s description action display_command])%list)
 else Exc.ret tt)%exc.

(** The body of [for description, cmd_data in self.commands.items()]. *)
Definition add_command_phrases (entry : string * pyval)
  : Exc.t (list info) unit :=
let (description, cmd_data) := entry in
match cmd_data with
| PDict d =>
    let phrases := get_or "Phrases" (PList []) d in
    let action := get_or "Action" (PStr "command") d in
    let command := get_or "Command" (PStr "") d in
    (display <- Exc.lift (display_command command) ;;
     items <- Exc.lift (iter phrases) ;;
     Exc.for_each items (add_phrase description action display))%exc
| _ => Exc.raise
end.

(** [phrases_info.sort(key=lambda x: x['phrase'].lower())], a stable sort. *)
Fixpoint insert (x : info) (l : list info) : list info :=
match l with
| [] => [x]
| y :: l' =>
    if String.ltb (PyStr.lower (phrase y)) (PyStr.lower (phrase x))
    then y :: insert x l'
    else x :: y :: l'
end.

Fixpoint sort (l : list info) : list info :=
match l with
| [] => []
| x :: l' => insert x (sort l')
end.

(** [get_all_phrases_with_descriptions] over the snapshot [commands]: the
    list built so far is returned also when an exception ends the loops,
    which then skips the sort. *)
Definition get_all_phrases_with_descriptions (commands : dict pyval)
  : list info :=
Exc.exec
  (_ <- Exc.for_each commands add_command_phrases ;; Exc.modify sort)%exc
  [].

End PhraseListing.

(** *** The settings and their cache ([core/config_manager.py])

    [get_setting] caches the object it finds and [set_setting] writes into
    the settings in place, so the settings are modelled as objects of the
    heap: a cached dict is the settings' own object, not a copy. *)

Module SettingsStore.

Import Py Heap.

Record state : Type := mk_state {
  objects : heap;
  _settings : hval;
  _cache : dict hval;
  _auto_save : bool
}.

Definition cache_key (key_path : string) : string := "setting:" ++ key_path.

(** [for key in keys: value = value[key]]: [None] is the KeyError or
    TypeError that ends the walk. *)
Fixpoint lookup_path (h : heap) (keys : list string) (value : hval)
  : option hval :=
match keys with
| [] => Some value
| key :: rest =>
    match getitem h value key with
    | Some v => lookup_path h rest v
    | None => None
    end
end.

Definition get_setting (st : state) (key_path : string) (default : hval)
  : state * hval :=
match dict_get (cache_key key_path) (_cache st) with
| Some cached => (st, cached)
| None =>
    match lookup_path (objects st) (PyText.split ConfigUtils.dot key_path)
            (_settings st)
    with
    | Some value =>
        (mk_state (objects st) (_settings st)
           (dict_set (cache_key key_path) value (_cache st)) (_auto_save st),
         value)
    | None => (st, default)
    end
end.

(** [for key in keys[:-1]: if key not in current: current[key] = {};
    current = current[key]], with the heap it leaves; a node that is no dict
    raises at the membership test, the assignment or the subscript. *)
Fixpoint navigate (h : heap) (keys : list string) (current : hval)
  : heap * option hval :=
match keys with
| [] => (h, Some current)
| key :: rest =>
    match current with
    | HRef a =>
        match read h a with
        | Some (ODict d) =>
            match dict_get key d with
            | Some next => navigate h rest next
            | None =>
                let (h1, fresh) := alloc h (ODict []) in
                navigate (write h1 a (ODict (dict_set key fresh d))) rest fresh
            end
        | _ => (h, None)
        end
    | _ => (h, None)
    end
end.

(** [set_setting]; [disk_ok] is what [save_settings] returns. The
    [current.get] before the assignment raises on a node that is no dict,
    as the assignment would. *)
Definition set_setting (disk_ok : bool) (st : state) (key_path : string)
  (value : hval) (save : option bool) : state * bool :=
let keys := PyText.split ConfigUtils.dot key_path in
match navigate (objects st) (removelast keys) (_settings st) with
| (h, Some current) =>
    match setitem h current (last keys EmptyString) value with
    | Some h' =>
        let st' :=
          mk_state h' (_settings st)
            (dict_del (cache_key key_path) (_cache st)) (_auto_save st) in
        if match save with Some b => b | None => _auto_save st end
        then (st', disk_ok)
        else (st', true)
    | None =>
        (mk_state h (_settings st) (_cache st) (_auto_save st), false)
    end
| (h, None) => (mk_state h (_settings st) (_cache st) (_auto_save st), false)
end.

(** [clear_cache]. *)
Definition clear_cache (st : state) : state :=
mk_state (objects st) (_settings st) [] (_auto_save st).

End SettingsStore.

(** *** Vocabulary of the further properties *)

Module Props.

Import Py.

(** [a] is an initial part of [s]. *)
Definition starts (a s : string) : Prop := exists rest, s = a ++ rest.

(** The first segment of a dotted path. *)
Definition first_segment (key_path : string) : string :=
hd EmptyString (PyText.split ConfigUtils.dot key_path).

(** What [merge_dict] stores under a key of the user configuration: the
    recursive merge when both sides hold a dict, the user's value
    otherwise. *)
Definition merged_entry (user_value : pyval) (base_value : option pyval)
  : pyval :=
match user_value, base_value with
| PDict u, Some (PDict b) => PDict (ConfigUtils.merge_dict b u)
| _, _ => user_value
end.

(** The path [keys] runs into an existing node of [data] that is no dict
    while keys are still left. *)
Definition blocked (keys : list string) (data : pyval) : Prop :=
exists pre post node,
  keys = (pre ++ post)%list /\ post <> []
  /\ ConfigUtils.walk pre data = Some node /\ isinstance_dict node = false.

Definition brace : ascii := ascii_of_N 123.

(** The text has no opening brace. *)
Definition no_brace (s : string) : bool :=
PyText.all_chars (fun c => negb (Ascii.eqb c brace)) s.

(** The request [_execute_keys] makes for a shortcut. *)
Definition key_effect (shortcut_keys : string) : CommandExecution.effect :=
match CommandExecution.parse_keys shortcut_keys with
| [key] => CommandExecution.PressKey key
| keys => CommandExecution.Hotkey keys
end.

(** The request a validated record makes: by its action, a URL or a shell
    command formatted with the remainder, or a key combination. *)
Definition request_of (action command query : string)
  : CommandExecution.effect :=
if (action =? "browser")%string
then CommandExecution.OpenBrowser
       (StringUtils.format_command_string command query)
else if (action =? "command")%string
then CommandExecution.RunBatch
       (StringUtils.format_command_string command query)
else key_effect command.

(** Every record of the map passes structural validation. *)
Definition all_valid (commands : dict pyval) : Prop :=
forall o cmd,
  In (o, cmd) commands -> ValidationUtils.is_valid_command_data cmd = true.

(** An executor that records the requests it gets and reports success. *)
Definition recording_io (e : CommandExecution.effect)
  (w : list CommandExecution.effect) : bool * list CommandExecution.effect :=
(true, (w ++ [e])%list).

(** A conflict the whole-map sweep may report: [o] is a command that shares a
    non-blank normal form with another command being checked. *)
Definition real_conflict (commands : dict pyval) (o : string) : Prop :=
exists desc cmd cmd' n,
  In (desc, cmd) commands /\ In (o, cmd') commands
  /\ ConfigManager.excluded (Some desc) o = false
  /\ In n (Spec.owned cmd) /\ In n (Spec.owned cmd').

(** Every command of the map has a string in its [Command] field, or no
    such field. *)
Definition displayable (commands : dict pyval) : Prop :=
forall o d,
  In (o, PDict d) commands ->
  Spec.is_str (get_or "Command" (PStr "") d) = true.

(** The order of the phrase listing: by lower-cased phrase, ascending. *)
Definition listed_before (a b : PhraseListing.info) : Prop :=
String.leb (PyStr.lower (PhraseListing.phrase a))
           (PyStr.lower (PhraseListing.phrase b)) = true.

(** The entries the listing has for the items of one phrase list, in the
    order of the list. *)
Fixpoint phrase_entries (description : string) (action display : pyval)
  (items : list pyval) : list PhraseListing.info :=
match items with
| [] => []
| PStr p :: rest =>
    if Spec.blank p then phrase_entries description action display rest
    else PhraseListing.mk_info (PyStr.strip p) description action display
         :: phrase_entries description action display rest
| _ :: rest => phrase_entries description action display rest
end.

(** The entries the listing has for one command of the map. *)
Definition command_entries (entry : string * pyval)
  : list PhraseListing.info :=
match snd entry with
| PDict d =>
    match PhraseListing.display_command (get_or "Command" (PStr "") d) with
    | Some display =>
        phrase_entries (fst entry) (get_or "Action" (PStr "command") d)
          display (Spec.phrase_list (get_or "Phrases" (PList []) d))
    | None => []
    end
| _ => []
end.

(** Every item of a dict of [h1] is an item of that dict in [h2]. *)
Definition kept (h1 h2 : Heap.heap) : Prop :=
forall t k v, Heap.getitem h1 t k = Some v -> Heap.getitem h2 t k = Some v.

(** The same, except for the items under the key [k]. *)
Definition kept_off (k : string) (h1 h2 : Heap.heap) : Prop :=
forall t k' v,
  k' <> k -> Heap.getitem h1 t k' = Some v -> Heap.getitem h2 t k' = Some v.

(** A settings store whose root dict holds the section [Application]. *)
Definition application_settings : SettingsStore.state :=
SettingsStore.mk_state
  [Heap.ODict [("Application", Heap.HRef 1)];
   Heap.ODict [("Theme", Heap.HStr "light")]]
  (Heap.HRef 0)
  [("setting:Application.Theme", Heap.HStr "light")]
  false.

(** How many times the character [c] occurs in [s]. *)
Fixpoint count_char (c : ascii) (s : string) : nat :=
match s with
| EmptyString => 0
| String c' s' => (if Ascii.eqb c' c then 1 else 0) + count_char c s'
end.

(** A disk that records what is written to it; every write succeeds. *)
Definition recording_disk (data : dict pyval) (disk : list (dict pyval))
  : bool * list (dict pyval) :=
(true, (disk ++ [data])%list).

End Props.

(** ** Part II. Properties *)

Section DictFacts.

Context {V : Type}.

Lemma dict_set_entry (k : string) (v : V) (d : Py.dict V) k' v' :
  In (k', v') (Py.dict_set k v d) -> In (k', v') d \/ (k' = k /\ v' = v).
Proof.
induction d as [|[k0 v0] d IH]; simpl.
- intros [H|[]]. inversion H. now right.
- destruct (String.eqb_spec k0 k) as [->|Hne]; simpl.
  + intros [H|H]; [inversion H; now right | left; now right].
  + intros [H|H]; [left; now left|].
    destruct (IH H) as [H1|H1]; [left; now right | now right].
Qed.

Lemma dict_set_nonempty (k : string) (v : V) (d : Py.dict V) :
  Py.dict_set k v d <> [].
Proof. destruct d as [|[k0 v0] d]; simpl; [|destruct (k0 =? k)%string]; discriminate. Qed.

Lemma dict_get_set_same (k : string) (v : V) (d : Py.dict V) :
  Py.dict_get k (Py.dict_set k v d) = Some v.
Proof.
induction d as [|[k0 v0] d IH]; simpl.
- now rewrite String.eqb_refl.
- destruct (String.eqb_spec k0 k) as [->|Hne]; simpl.
  + now rewrite String.eqb_refl.
  + destruct (String.eqb_spec k0 k); [contradiction | exact IH].
Qed.

Lemma dict_get_set_other (k k' : string) (v : V) (d : Py.dict V) :
  k' <> k -> Py.dict_get k' (Py.dict_set k v d) = Py.dict_get k' d.
Proof.
intros Hne. induction d as [|[k0 v0] d IH]; simpl.
- destruct (String.eqb_spec k k'); [congruence | reflexivity].
- destruct (String.eqb_spec k0 k) as [->|Hne0]; simpl.
  + destruct (String.eqb_spec k k'); [congruence | reflexivity].
  + destruct (String.eqb_spec k0 k'); [reflexivity | exact IH].
Qed.

Lemma dict_get_set_some (k k' : string) (v : V) (d : Py.dict V) :
  Py.dict_get k' d <> None -> Py.dict_get k' (Py.dict_set k v d) <> None.
Proof.
intros H. destruct (String.eqb_spec k' k) as [->|Hne].
- rewrite dict_get_set_same. discriminate.
- now rewrite dict_get_set_other.
Qed.

Lemma dict_get_in (k : string) (v : V) (d : Py.dict V) :
  Py.dict_get k d = Some v -> In (k, v) d.
Proof.
induction d as [|[k0 v0] d IH]; simpl; [discriminate|].
destruct (String.eqb_spec k0 k) as [->|Hne].
- intros H; inversion H; now left.
- intros H; right; auto.
Qed.

Lemma dict_del_entry (k : string) (d : Py.dict V) k' v' :
  In (k', v') (Py.dict_del k d) -> In (k', v') d.
Proof.
induction d as [|[k0 v0] d IH]; simpl; [tauto|].
destruct (k0 =? k)%string; simpl; [now right|].
intros [H|H]; [now left | right; auto].
Qed.

Lemma dict_set_keys_in (k : string) (v : V) (d : Py.dict V) k' :
  In k' (map fst (Py.dict_set k v d)) -> k' = k \/ In k' (map fst d).
Proof.
induction d as [|[k0 v0] d IH]; simpl.
- intros [H|[]]; now left.
- destruct (String.eqb_spec k0 k) as [->|Hne]; simpl.
  + intros [H|H]; [right; now left | right; now right].
  + intros [H|H]; [right; now left|].
    destruct (IH H); [now left | right; now right].
Qed.

Lemma dict_set_nodup (k : string) (v : V) (d : Py.dict V) :
  NoDup (map fst d) -> NoDup (map fst (Py.dict_set k v d)).
Proof.
induction d as [|[k0 v0] d IH]; simpl; intros Hnd.
- constructor; [tauto | constructor].
- inversion Hnd as [|? ? Hnot Hnd']; subst.
  destruct (String.eqb_spec k0 k) as [->|Hne]; simpl.
  + now constructor.
  + constructor; [|auto].
    intros Hin. apply dict_set_keys_in in Hin. destruct Hin; congruence.
Qed.

Lemma dict_del_keys_in (k : string) (d : Py.dict V) k' :
  In k' (map fst (Py.dict_del k d)) -> In k' (map fst d).
Proof.
induction d as [|[k0 v0] d IH]; simpl; [tauto|].
destruct (k0 =? k)%string; simpl; [now right|].
intros [H|H]; [now left | right; auto].
Qed.

Lemma dict_del_nodup (k : string) (d : Py.dict V) :
  NoDup (map fst d) -> NoDup (map fst (Py.dict_del k d)).
Proof.
induction d as [|[k0 v0] d IH]; simpl; intros Hnd; [constructor|].
inversion Hnd as [|? ? Hnot Hnd']; subst.
destruct (k0 =? k)%string; simpl; [assumption|].
constructor; [|auto].
intros Hin. apply dict_del_keys_in in Hin. contradiction.
Qed.

Lemma dict_mem_keys (k : string) (d : Py.dict V) :
  Py.dict_mem k d = true <-> In k (map fst d).
Proof.
unfold Py.dict_mem. induction d as [|[k0 v0] d IH]; simpl.
- split; [discriminate | tauto].
- destruct (String.eqb_spec k0 k) as [->|Hne].
  + split; [now left | reflexivity].
  + rewrite IH. split; [now right | intros [H|H]; [contradiction | exact H]].
Qed.

End DictFacts.

Section LoopFacts.

Context {S A : Type}.

(** A property of the state that every iteration keeps is kept by the loop,
    also when an iteration raises. *)
Lemma for_each_keeps (I : S -> Prop) (l : list A) (body : A -> Exc.t S unit) :
  (forall x s, In x l -> I s -> I (fst (body x s))) ->
  forall s, I s -> I (fst (Exc.for_each l body s)).
Proof.
induction l as [|x l IH]; simpl; intros Hbody s Hs; [exact Hs|].
unfold Exc.bind.
pose proof (Hbody x s (or_introl eq_refl) Hs) as Hx.
destruct (body x s) as [s' [[]|]]; simpl in *; [|exact Hx].
apply IH; [|exact Hx]. intros y t Hy. apply Hbody. now right.
Qed.

(** If no iteration raises before establishing [Q], every iteration keeps
    [Q], and some iteration establishes it, the loop ends in [Q]. *)
Lemma for_each_reaches (Q : S -> Prop) (l : list A) (body : A -> Exc.t S unit) :
  (forall x s, In x l -> Q s -> Q (fst (body x s))) ->
  (forall x s, In x l -> snd (body x s) <> None \/ Q (fst (body x s))) ->
  (exists x, In x l /\ forall s, Q (fst (body x s))) ->
  forall s, Q (fst (Exc.for_each l body s)).
Proof.
induction l as [|x l IH]; simpl; intros Hkeep Hrun [y [Hy Hest]] s; [contradiction|].
unfold Exc.bind.
destruct Hy as [->|Hy].
- pose proof (Hest s) as Hq.
  destruct (body y s) as [s' [[]|]]; simpl in *; [|exact Hq].
  apply for_each_keeps; [|exact Hq].
  intros z t Hz. apply Hkeep. now right.
- pose proof (Hrun x s (or_introl eq_refl)) as Hr.
  destruct (body x s) as [s' [[]|]] eqn:E; simpl in *.
  + apply IH.
    * intros z t Hz. apply Hkeep. now right.
    * intros z t Hz. apply Hrun. now right.
    * exists y. split; assumption.
  + destruct Hr as [Hr|Hr]; [congruence | exact Hr].
Qed.

(** A loop whose iterations never raise does not raise. *)
Lemma for_each_runs (l : list A) (body : A -> Exc.t S unit) :
  (forall x s, In x l -> snd (body x s) <> None) ->
  forall s, snd (Exc.for_each l body s) <> None.
Proof.
induction l as [|x l IH]; simpl; intros Hrun s; [discriminate|].
unfold Exc.bind.
pose proof (Hrun x s (or_introl eq_refl)) as Hx.
destruct (body x s) as [s' [[]|]]; simpl in *; [|congruence].
apply IH. intros y t Hy. apply Hrun. now right.
Qed.

(** A loop over a concatenation runs the loops one after the other. *)
Lemma for_each_app (l1 l2 : list A) (body : A -> Exc.t S unit) s :
  Exc.for_each (l1 ++ l2)%list body s
  = Exc.bind (Exc.for_each l1 body) (fun _ => Exc.for_each l2 body) s.
Proof.
revert s. induction l1 as [|x l1 IH]; intros s; [reflexivity|].
cbn [app Exc.for_each]. unfold Exc.bind.
destruct (body x s) as [s' [[]|]]; [|reflexivity].
rewrite IH. reflexivity.
Qed.

End LoopFacts.

Section ConflictFacts.

Import Py ConfigManager Spec.

Lemma normalized_norms items nn :
  normalized items = Some nn -> nn = norms items.
Proof.
revert nn. induction items as [|p items IH]; simpl; intros nn H.
- now inversion H.
- destruct p as [| b | z | s | l | d]; simpl in H;
    try (destruct (truthy _) eqn:E in H; [discriminate | auto]); auto.
  + destruct b; [discriminate | auto].
  + destruct (negb (z =? 0)%Z); [discriminate | auto].
  + unfold blank, norm.
    destruct (negb (s =? "")%string) eqn:Es.
    * destruct (PyStr.strip s =? "")%string; [auto|].
      destruct (normalized items) as [nn'|]; [|discriminate].
      simpl in H. inversion H. f_equal. auto.
    * apply negb_false_iff, String.eqb_eq in Es. subst s. simpl. auto.
  + destruct l; [auto | discriminate].
  + destruct d; [auto | discriminate].
Qed.

Lemma normalized_typed items :
  forallb is_str items = true -> normalized items = Some (norms items).
Proof.
induction items as [|p items IH]; simpl; intros H; [reflexivity|].
apply andb_true_iff in H. destruct H as [Hp Hr].
destruct p; try discriminate. simpl. unfold blank, norm.
destruct (negb (s =? "")%string) eqn:Es.
- destruct (PyStr.strip s =? "")%string; [auto|]. now rewrite (IH Hr).
- apply negb_false_iff, String.eqb_eq in Es. subst s. simpl. auto.
Qed.

Lemma combine_in_right {X Y} (l : list X) (l' : list Y) x y :
  In (x, y) (combine l l') -> In y l'.
Proof. apply in_combine_r. Qed.

Lemma norms_in_item items s :
  In (PStr s) items -> blank s = false -> In (norm s) (norms items).
Proof.
induction items as [|p items IH]; simpl; [tauto|].
intros [->|Hin] Hb.
- rewrite Hb. now left.
- destruct p; auto. destruct (blank s0); [auto | right; auto].
Qed.

Lemma norms_from_item items n :
  In n (norms items) -> exists s, In (PStr s) items /\ blank s = false /\ n = norm s.
Proof.
induction items as [|p items IH]; simpl; [tauto|].
intros H.
assert (Hrest : In n (norms items) ->
        exists s, (p = PStr s \/ In (PStr s) items) /\ blank s = false /\ n = norm s).
{ intros Hn. destruct (IH Hn) as [s [H1 H2]]. exists s. split; [now right | exact H2]. }
destruct p; auto.
destruct (blank s) eqn:Eb; auto.
destruct H as [<-|H]; auto.
exists s. split; [now left | split; [exact Eb | reflexivity]].
Qed.

Lemma all_entries_set P (s : dict string) k o :
  all_entries P s -> P k o -> all_entries P (dict_set k o s).
Proof.
intros Hs Hk k' o' Hin. apply dict_set_entry in Hin.
destruct Hin as [Hin|[-> ->]]; auto.
Qed.

(** Every entry written by the innermost loop is justified. *)
Lemma check_existing_sound commands exclude phrases nn desc cmd eps ep s :
  In (desc, cmd) commands -> excluded exclude desc = false ->
  iter (phrases_field cmd) = Some eps -> In ep eps ->
  all_entries (justified commands exclude phrases nn) s ->
  all_entries (justified commands exclude phrases nn)
    (fst (check_existing phrases nn desc ep s)).
Proof.
intros Hcmd Hex Heps Hep Hs. unfold check_existing.
destruct (truthy ep) eqn:Et; simpl; [|exact Hs].
unfold Exc.bind.
destruct ep as [| | | e | |]; simpl; try exact Hs.
destruct (PyStr.strip e =? "")%string eqn:Eb; simpl; [exact Hs|].
destruct (iter phrases) as [raw|] eqn:Eraw; simpl; [|exact Hs].
apply for_each_keeps; [|exact Hs].
intros [item np] t Hin Ht. unfold check_pair.
destruct (String.eqb_spec np (PyStr.lower (PyStr.strip e))) as [Hnp|Hnp];
  simpl; [|exact Ht].
unfold Exc.bind.
destruct (strip item) as [k|] eqn:Ek; simpl; [|exact Ht].
apply all_entries_set; [exact Ht|].
exists cmd, raw, item, np. repeat split; auto.
rewrite Hnp. unfold owned, phrase_items, phrase_list. rewrite Heps.
apply (norms_in_item eps e Hep). exact Eb.
Qed.

Lemma check_command_sound commands exclude phrases nn entry s :
  In entry commands ->
  all_entries (justified commands exclude phrases nn) s ->
  all_entries (justified commands exclude phrases nn)
    (fst (check_command phrases nn exclude entry s)).
Proof.
intros Hin Hs. destruct entry as [desc cmd]. unfold check_command.
destruct (excluded exclude desc) eqn:Eex; simpl; [exact Hs|].
unfold Exc.bind.
destruct (iter (phrases_field cmd)) as [eps|] eqn:Eeps; simpl; [|exact Hs].
apply for_each_keeps; [|exact Hs].
intros ep t Hep Ht. eapply check_existing_sound; eauto.
Qed.

Lemma find_conflicts_justified commands nd phrases exclude k o :
  In (k, o) (_find_phrase_conflicts commands nd phrases exclude) ->
  exists raw,
    iter phrases = Some raw
    /\ justified commands exclude phrases (norms raw) k o.
Proof.
unfold _find_phrase_conflicts, Exc.exec, find_body, Exc.bind.
destruct (iter (if truthy phrases then phrases else PList [])) as [items|] eqn:Ei;
  simpl; [|tauto].
destruct (normalized items) as [nn|] eqn:En; simpl; [|tauto].
apply normalized_norms in En.
destruct nn as [|n0 nn]; simpl; [tauto|].
intros Hin.
assert (Hall : all_entries (justified commands exclude phrases (n0 :: nn))
                 (fst (Exc.for_each commands
                         (check_command phrases (n0 :: nn) exclude) []))).
{ apply for_each_keeps; [|intros ? ? []].
  intros entry t Hentry Ht. now apply check_command_sound. }
specialize (Hall k o Hin).
destruct (truthy phrases) eqn:Et.
- exists items. split; [exact Ei|]. now rewrite <- En.
- simpl in Ei. inversion Ei; subst items. discriminate.
Qed.

(** Soundness of [_find_phrase_conflicts], whatever the types of the values
    involved: each reported owner is a command of the map, not excluded, that
    owns the normal form of one of the candidate phrases. *)
Lemma find_conflicts_sound commands nd phrases exclude k o :
  In (k, o) (_find_phrase_conflicts commands nd phrases exclude) ->
  exists cmd n,
    In (o, cmd) commands /\ excluded exclude o = false
    /\ In n (norms (phrase_list phrases)) /\ In n (owned cmd).
Proof.
intros Hin. apply find_conflicts_justified in Hin.
destruct Hin as [raw [Hraw [cmd [raw' [item [np [H1 [H2 [H3 [H4 [H5 H6]]]]]]]]]]].
exists cmd, np. repeat split; auto.
unfold phrase_list. rewrite Hraw. eapply in_combine_r; eauto.
Qed.

(** Without matching pairs the conflict map is empty. *)
Lemma find_conflicts_none commands nd phrases exclude :
  (forall o cmd n, In (o, cmd) commands -> excluded exclude o = false ->
     In n (norms (phrase_list phrases)) -> In n (owned cmd) -> False) ->
  _find_phrase_conflicts commands nd phrases exclude = [].
Proof.
intros H.
destruct (_find_phrase_conflicts commands nd phrases exclude) as [|[k o] r] eqn:E;
  [reflexivity|].
destruct (find_conflicts_sound commands nd phrases exclude k o) as [cmd [n Hn]].
- rewrite E. now left.
- exfalso. destruct Hn as [H1 [H2 [H3 H4]]]. eauto.
Qed.

Lemma iter_nonempty_truthy v x l : iter v = Some (x :: l) -> truthy v = true.
Proof.
destruct v as [| | | s0 | l0 | d0]; simpl; try discriminate.
- destruct s0; simpl; [discriminate | reflexivity].
- intros H; inversion H; reflexivity.
- destruct d0; simpl; [discriminate | reflexivity].
Qed.

Lemma norms_length items : length (norms items) <= length items.
Proof.
induction items as [|p items IH]; simpl; [lia|].
destruct p; simpl; try lia. destruct (blank s); simpl; lia.
Qed.

Lemma combine_covers {X Y} (l : list X) (l' : list Y) y :
  length l' <= length l -> In y l' -> exists x, In (x, y) (combine l l').
Proof.
revert l. induction l' as [|y' l' IH]; intros l Hlen Hin; [contradiction|].
destruct l as [|x l]; simpl in *; [lia|].
destruct Hin as [->|Hin].
- exists x. now left.
- destruct (IH l) as [x' Hx']; [lia | exact Hin|]. exists x'. now right.
Qed.

Lemma forallb_is_str_in items v :
  forallb is_str items = true -> In v items -> exists s, v = PStr s.
Proof.
intros H Hin. rewrite forallb_forall in H. specialize (H v Hin).
destruct v; try discriminate. eauto.
Qed.

Lemma check_pair_keeps (Q : dict string -> Prop) desc ep_norm pr s :
  (forall k v t, Q t -> Q (dict_set k v t)) ->
  Q s -> Q (fst (check_pair desc ep_norm pr s)).
Proof.
intros Hset Hs. destruct pr as [item np]. unfold check_pair.
destruct (np =? ep_norm)%string; simpl; [|exact Hs].
unfold Exc.bind. destruct (strip item); simpl; auto.
Qed.

Lemma check_existing_keeps (Q : dict string -> Prop) phrases nn desc ep s :
  (forall k v t, Q t -> Q (dict_set k v t)) ->
  Q s -> Q (fst (check_existing phrases nn desc ep s)).
Proof.
intros Hset Hs. unfold check_existing.
destruct (negb (truthy ep)); simpl; [exact Hs|].
unfold Exc.bind. destruct (strip ep) as [e|]; simpl; [|exact Hs].
destruct (e =? "")%string; simpl; [exact Hs|].
destruct (iter phrases) as [raw|]; simpl; [|exact Hs].
apply for_each_keeps; [|exact Hs].
intros pr t _ Ht. now apply check_pair_keeps.
Qed.

Lemma check_command_keeps (Q : dict string -> Prop) phrases nn exclude entry s :
  (forall k v t, Q t -> Q (dict_set k v t)) ->
  Q s -> Q (fst (check_command phrases nn exclude entry s)).
Proof.
intros Hset Hs. destruct entry as [desc cmd]. unfold check_command.
destruct (excluded exclude desc); simpl; [exact Hs|].
unfold Exc.bind. destruct (iter (phrases_field cmd)) as [eps|]; simpl; [|exact Hs].
apply for_each_keeps; [|exact Hs].
intros ep t _ Ht. now apply check_existing_keeps.
Qed.

Lemma check_pair_runs desc ep_norm raw nn pr s :
  forallb is_str raw = true -> In pr (combine raw nn) ->
  snd (check_pair desc ep_norm pr s) <> None.
Proof.
intros Hraw Hin. destruct pr as [item np]. unfold check_pair.
destruct (np =? ep_norm)%string; simpl; [|discriminate].
apply in_combine_l in Hin.
destruct (forallb_is_str_in raw item Hraw Hin) as [e ->].
unfold Exc.bind. simpl. discriminate.
Qed.

Lemma check_existing_runs phrases raw nn desc eps ep s :
  iter phrases = Some raw -> forallb is_str raw = true ->
  forallb is_str eps = true -> In ep eps ->
  snd (check_existing phrases nn desc ep s) <> None.
Proof.
intros Hraw Hstr Heps Hep.
destruct (forallb_is_str_in eps ep Heps Hep) as [e ->].
unfold check_existing.
destruct (negb (truthy (PStr e))); simpl; [discriminate|].
unfold Exc.bind. simpl.
destruct (PyStr.strip e =? "")%string; simpl; [discriminate|].
rewrite Hraw. simpl.
apply for_each_runs. intros pr t Hpr.
apply (check_pair_runs desc (PyStr.lower (PyStr.strip e)) raw nn pr t Hstr Hpr).
Qed.

Lemma check_command_runs commands phrases raw nn exclude entry s :
  iter phrases = Some raw -> forallb is_str raw = true ->
  typed_store commands -> In entry commands ->
  snd (check_command phrases nn exclude entry s) <> None.
Proof.
intros Hraw Hstr Hty Hin. destruct entry as [desc cmd]. unfold check_command.
destruct (excluded exclude desc); simpl; [discriminate|].
destruct (Hty desc cmd Hin) as [eps [Heps Hall]].
unfold Exc.bind. rewrite Heps. simpl.
apply for_each_runs. intros ep t Hep. eapply check_existing_runs; eauto.
Qed.

(** On well-typed inputs the loops reach every matching pair: a property of
    the conflict map that assignments keep and that the assignment for the
    pair [(item, n)] under owner [o] establishes holds of the result. *)
Lemma find_conflicts_reaches (Q : dict string -> Prop)
  commands nd phrases exclude raw o cmd item n :
  (forall k v t, Q t -> Q (dict_set k v t)) ->
  iter phrases = Some raw -> forallb is_str raw = true ->
  typed_store commands ->
  In (o, cmd) commands -> excluded exclude o = false -> In n (owned cmd) ->
  In (item, n) (combine raw (norms raw)) ->
  (forall k t, strip item = Some k -> Q (dict_set k o t)) ->
  Q (_find_phrase_conflicts commands nd phrases exclude).
Proof.
intros Hset Hraw Hstr Hty Hcmd Hex Hown Hpair Hest.
unfold _find_phrase_conflicts, Exc.exec, find_body, Exc.bind.
assert (Hne : raw <> []) by (intros ->; simpl in Hpair; contradiction).
assert (Ht : truthy phrases = true).
{ destruct raw as [|x raw']; [congruence|]. eapply iter_nonempty_truthy; eauto. }
rewrite Ht, Hraw. simpl. rewrite (normalized_typed raw Hstr). simpl.
destruct (norms raw) as [|n0 nn] eqn:En.
{ apply in_combine_r in Hpair. contradiction. }
apply for_each_reaches.
- intros entry t _ Hq. now apply check_command_keeps.
- intros entry t Hentry. left. eapply check_command_runs; eauto.
- exists (o, cmd). split; [exact Hcmd|]. intros t.
  unfold check_command. rewrite Hex. simpl.
  destruct (Hty o cmd Hcmd) as [eps [Heps Hall]].
  unfold Exc.bind. rewrite Heps. simpl.
  unfold owned, phrase_items, phrase_list in Hown. rewrite Heps in Hown.
  destruct (norms_from_item eps n Hown) as [e [He [Hb Hn]]].
  apply for_each_reaches.
  + intros ep u _ Hq. now apply check_existing_keeps.
  + intros ep u Hep. left. eapply check_existing_runs; eauto.
  + exists (PStr e). split; [exact He|]. intros u.
    unfold check_existing.
    assert (Hte : truthy (PStr e) = true).
    { simpl. destruct e; [discriminate Hb | reflexivity]. }
    rewrite Hte. simpl. unfold Exc.bind. simpl.
    unfold blank in Hb. rewrite Hb. rewrite Hraw. simpl.
    apply for_each_reaches.
    * intros pr v _ Hq. now apply check_pair_keeps.
    * intros pr v Hpr. left.
      apply (check_pair_runs o (PyStr.lower (PyStr.strip e)) raw (n0 :: nn) pr v
               Hstr Hpr).
    * exists (item, n). split; [exact Hpair|]. intros v.
      unfold check_pair. unfold norm in Hn. rewrite <- Hn, String.eqb_refl.
      apply in_combine_l in Hpair.
      destruct (forallb_is_str_in raw item Hstr Hpair) as [i ->].
      unfold Exc.bind. simpl. apply Hest. reflexivity.
Qed.

(** Completeness on well-typed inputs: a matching pair makes the conflict
    map non-empty. *)
Lemma find_conflicts_complete commands nd phrases exclude raw o cmd n :
  iter phrases = Some raw -> forallb is_str raw = true ->
  typed_store commands ->
  In (o, cmd) commands -> excluded exclude o = false ->
  In n (norms raw) -> In n (owned cmd) ->
  _find_phrase_conflicts commands nd phrases exclude <> [].
Proof.
intros Hraw Hstr Hty Hcmd Hex Hn Hown.
destruct (combine_covers raw (norms raw) n (norms_length raw) Hn) as [item Hitem].
apply (find_conflicts_reaches (fun t => t <> [])
         commands nd phrases exclude raw o cmd item n); auto.
- intros k v t _. apply dict_set_nonempty.
- intros k t _. apply dict_set_nonempty.
Qed.

(** The loops of one command write under that command's description only,
    and only keys that are the trimmed text of a candidate item paired with
    the normal form of one of the command's own non-blank phrases. *)
Lemma check_pair_writes (Q : dict string -> Prop) desc ep_norm pr s :
  (forall k t, snd pr = ep_norm -> strip (fst pr) = Some k -> Q t ->
     Q (dict_set k desc t)) ->
  Q s -> Q (fst (check_pair desc ep_norm pr s)).
Proof.
intros Hset Hs. destruct pr as [item np]. unfold check_pair.
destruct (String.eqb_spec np ep_norm) as [Hnp|Hnp]; simpl; [|exact Hs].
unfold Exc.bind. destruct (strip item) as [k|] eqn:Ek; simpl; [|exact Hs].
apply Hset; auto.
Qed.

Lemma check_existing_writes (Q : dict string -> Prop) phrases raw nn desc ep s :
  iter phrases = Some raw ->
  (forall e item k t,
     ep = PStr e -> blank e = false -> In (item, norm e) (combine raw nn) ->
     strip item = Some k -> Q t -> Q (dict_set k desc t)) ->
  Q s -> Q (fst (check_existing phrases nn desc ep s)).
Proof.
intros Hraw Hset Hs. unfold check_existing.
destruct (negb (truthy ep)); simpl; [exact Hs|].
unfold Exc.bind. destruct ep as [| | | e | |]; simpl; try exact Hs.
destruct (PyStr.strip e =? "")%string eqn:Eb; simpl; [exact Hs|].
rewrite Hraw. simpl.
apply for_each_keeps; [|exact Hs].
intros [item np] t Hin Ht. apply check_pair_writes; [|exact Ht].
cbn [fst snd]. intros k u -> Hk Hu.
apply (Hset e item k u); auto.
Qed.

Lemma check_command_writes (Q : dict string -> Prop)
  phrases raw nn exclude desc cmd s :
  iter phrases = Some raw ->
  (forall e item k t,
     excluded exclude desc = false ->
     In (PStr e) (phrase_items cmd) -> blank e = false ->
     In (item, norm e) (combine raw nn) ->
     strip item = Some k -> Q t -> Q (dict_set k desc t)) ->
  Q s -> Q (fst (check_command phrases nn exclude (desc, cmd) s)).
Proof.
intros Hraw Hset Hs. unfold check_command.
destruct (excluded exclude desc) eqn:Eex; simpl; [exact Hs|].
unfold Exc.bind.
destruct (iter (phrases_field cmd)) as [eps|] eqn:Eeps; simpl; [|exact Hs].
apply for_each_keeps; [|exact Hs].
intros ep t Hep Ht. apply (check_existing_writes Q phrases raw); auto.
intros e item k u -> Hb Hin Hk Hu. apply (Hset e item k u); auto.
unfold phrase_items, phrase_list. now rewrite Eeps.
Qed.

(** On well-typed inputs the loops of an owner [o] of the normal form paired
    with [item] end in a state that has [Q], when the writes under [o] keep
    [Q] and the write for [item] establishes it. *)
Lemma check_command_establishes (Q : dict string -> Prop)
  commands phrases raw exclude o cmd item n s :
  (forall k t, Q t -> Q (dict_set k o t)) ->
  iter phrases = Some raw -> forallb is_str raw = true ->
  typed_store commands ->
  In (o, cmd) commands -> excluded exclude o = false -> In n (owned cmd) ->
  In (item, n) (combine raw (norms raw)) ->
  (forall k t, strip item = Some k -> Q (dict_set k o t)) ->
  Q (fst (check_command phrases (norms raw) exclude (o, cmd) s)).
Proof.
intros Hset Hraw Hstr Hty Hcmd Hex Hown Hpair Hest.
unfold check_command. rewrite Hex. simpl.
destruct (Hty o cmd Hcmd) as [eps [Heps Hall]].
unfold Exc.bind. rewrite Heps. simpl.
unfold owned, phrase_items, phrase_list in Hown. rewrite Heps in Hown.
destruct (norms_from_item eps n Hown) as [e [He [Hb Hn]]].
apply for_each_reaches.
- intros ep u _ Hq. apply (check_existing_writes Q phrases raw); auto.
- intros ep u Hep. left. eapply check_existing_runs; eauto.
- exists (PStr e). split; [exact He|]. intros u.
  unfold check_existing.
  assert (Hte : truthy (PStr e) = true).
  { simpl. destruct e; [discriminate Hb | reflexivity]. }
  rewrite Hte. simpl. unfold Exc.bind. simpl.
  unfold blank in Hb. rewrite Hb. rewrite Hraw. simpl.
  apply for_each_reaches.
  + intros pr v _ Hq. apply check_pair_writes; auto.
  + intros pr v Hpr. left.
    apply (check_pair_runs o (PyStr.lower (PyStr.strip e)) raw (norms raw)
             pr v Hstr Hpr).
  + exists (item, n). split; [exact Hpair|]. intros v.
    unfold check_pair. unfold norm in Hn. rewrite <- Hn, String.eqb_refl.
    apply in_combine_l in Hpair.
    destruct (forallb_is_str_in raw item Hstr Hpair) as [i ->].
    unfold Exc.bind. simpl. apply Hest. reflexivity.
Qed.

End ConflictFacts.

Section ValidationFacts.

Import Py ValidationUtils ConfigManager Spec Examples.

Lemma in_strs_three (action : pyval) :
  in_strs action ["browser"; "command"; "keys"] = true
  <-> action = PStr "browser" \/ action = PStr "command" \/ action = PStr "keys".
Proof.
unfold in_strs. simpl. destruct action as [| | | s | |]; simpl;
  try (split; [discriminate | intros [H|[H|H]]; discriminate]).
rewrite !orb_true_iff, !String.eqb_eq.
split.
- intros [H|[H|[H|H]]]; subst; auto. discriminate.
- intros [H|[H|H]]; inversion H; auto.
Qed.

Lemma valid_is_dict command_data :
  is_valid_command_data command_data = true ->
  exists d x l,
    command_data = PDict d /\ dict_get "Phrases" d = Some (PList (x :: l)).
Proof.
destruct command_data as [| | | | |d]; simpl; try discriminate.
unfold dict_mem, get_or.
destruct (dict_get "Phrases" d) as [ph|] eqn:Ep; simpl; [|discriminate].
destruct (dict_get "Action" d); simpl; [|discriminate].
destruct (dict_get "Command" d); simpl; [|discriminate].
destruct ph as [| | | | [|x l] |]; simpl; try discriminate.
intros _. exists d, x, l. split; [reflexivity | exact Ep].
Qed.

Lemma invalid_without_phrases command_data :
  lacks_phrase_list command_data ->
  is_valid_command_data command_data = false.
Proof.
intros H. destruct (is_valid_command_data command_data) eqn:E; [|reflexivity].
destruct (valid_is_dict _ E) as [d [x [l [H1 H2]]]]. exfalso. eauto.
Qed.

Lemma add_command_invalid disk_ok st description command_data save :
  is_valid_command_data command_data = false ->
  add_command disk_ok st description command_data save
  = (with_error st (invalid_message description) [], false).
Proof. intros H. unfold add_command. now rewrite H. Qed.

Lemma update_command_invalid disk_ok st description command_data save :
  is_valid_command_data command_data = false ->
  update_command disk_ok st description command_data save
  = Some (if dict_mem description (_commands st)
          then with_error st (invalid_message description) []
          else st, false).
Proof.
intros H. unfold update_command. rewrite H.
now destruct (dict_mem description (_commands st)).
Qed.

Lemma invalid_message_retrievable st description :
  get_last_error_message (with_error st (invalid_message description) [])
  = invalid_message description.
Proof. reflexivity. Qed.

(** C3, as amended: structural validation accepts exactly three action
    values. For every record whose phrase list is a non-empty list and whose
    command is a string that is not blank, validation succeeds if and only if
    [Action] is ['browser'], ['command'] or ['keys']; every other value,
    ['internal'] included, fails validation and makes [add_command] and
    [update_command] return failure. *)
Theorem C3_validation_accepts_three_actions :
  forall (d : dict pyval) (x : pyval) (l : list pyval) (action : pyval)
         (command : string),
    dict_get "Phrases" d = Some (PList (x :: l)) ->
    dict_get "Action" d = Some action ->
    dict_get "Command" d = Some (PStr command) ->
    PyStr.strip command <> "" ->
    (is_valid_command_data (PDict d) = true
     <-> action = PStr "browser" \/ action = PStr "command"
         \/ action = PStr "keys")
    /\ (is_valid_command_data (PDict d) = false ->
        forall disk_ok st description save,
          snd (add_command disk_ok st description (PDict d) save) = false
          /\ option_map snd
               (update_command disk_ok st description (PDict d) save)
             = Some false).
Proof.
intros d x l action command Hp Ha Hc Hs. split.
- rewrite <- in_strs_three.
  unfold is_valid_command_data, required_fields, dict_mem, get_or.
  cbn [forallb]. rewrite Hp, Ha, Hc.
  cbn [negb andb orb isinstance_list truthy].
  destruct (in_strs action ["browser"; "command"; "keys"]); cbn [negb].
  + destruct (String.eqb_spec (PyStr.strip command) ""); [contradiction|].
    split; reflexivity.
  + split; discriminate.
- intros Hinv disk_ok st description save.
  rewrite add_command_invalid, update_command_invalid by exact Hinv.
  split; reflexivity.
Qed.

Lemma C3_validation_accepts_three_actions_witness :
  is_valid_command_data (record ["notepad"] "keys" "ctrl+n") = true
  <-> PStr "keys" = PStr "browser" \/ PStr "keys" = PStr "command"
      \/ PStr "keys" = PStr "keys".
Proof.
apply (C3_validation_accepts_three_actions
         [("Phrases", PList [PStr "notepad"]); ("Action", PStr "keys");
          ("Command", PStr "ctrl+n")]
         (PStr "notepad") [] (PStr "keys") "ctrl+n");
  [reflexivity | reflexivity | reflexivity | vm_compute; discriminate].
Defined.

(** C3, as stated, fails at the fourth value: a record that is valid in every
    other field and has [Action = 'internal'] is rejected. *)
Lemma C3_internal_is_rejected :
  is_valid_command_data (record ["show phrases"] "internal" "show_phrases")
  = false
  /\ snd (add_command true empty_store "Show Phrases"
            (record ["show phrases"] "internal" "show_phrases") None) = false.
Proof. split; reflexivity. Qed.

(** C8, as amended: [add_command] and [update_command] return failure for
    every record whose [Phrases] field is missing, is not a list or is the
    empty list, and leave the command map as it is; [add_command], and
    [update_command] when the description exists, record the message
    ["Invalid command data for <description>"], which
    [get_last_error_message] then returns. The entries of the list are not
    inspected. *)
Theorem C8_phrase_list_validation :
  forall disk_ok st description command_data save,
    lacks_phrase_list command_data ->
    let rejected := with_error st (invalid_message description) [] in
    add_command disk_ok st description command_data save = (rejected, false)
    /\ update_command disk_ok st description command_data save
       = Some (if dict_mem description (_commands st) then rejected else st,
               false)
    /\ _commands rejected = _commands st
    /\ get_last_error_message rejected = invalid_message description.
Proof.
intros disk_ok st description command_data save H rejected.
apply invalid_without_phrases in H.
rewrite add_command_invalid, update_command_invalid by exact H.
repeat split; reflexivity.
Qed.

Lemma C8_phrase_list_validation_witness :
  add_command true notepad_store "Open Notepad"
    (PDict [("Phrases", PList []); ("Action", PStr "keys");
            ("Command", PStr "ctrl+n")]) None
  = (with_error notepad_store (invalid_message "Open Notepad") [], false)
  /\ get_last_error_message
       (with_error notepad_store (invalid_message "Open Notepad") [])
     = invalid_message "Open Notepad".
Proof.
assert (H : lacks_phrase_list
              (PDict [("Phrases", PList []); ("Action", PStr "keys");
                      ("Command", PStr "ctrl+n")])).
{ intros d x l Hd Hp. inversion Hd; subst d. discriminate Hp. }
destruct (C8_phrase_list_validation true notepad_store "Open Notepad" _ None H)
  as [H1 [_ [_ H4]]].
split; [exact H1 | exact H4].
Defined.

(** C8, as stated, fails in its last part: a phrase list made only of empty
    and whitespace-only strings passes validation, and the record is added. *)
Lemma C8_blank_phrases_are_accepted :
  is_valid_command_data (record [" "; ""] "command" "notepad.exe") = true
  /\ add_command true empty_store "Blank"
       (record [" "; ""] "command" "notepad.exe") None
     = (mk_state [("Blank", record [" "; ""] "command" "notepad.exe")]
          true "" [], true).
Proof. split; reflexivity. Qed.

End ValidationFacts.

Section StoreFacts.

Import Py ValidationUtils ConfigManager Spec Examples.

Lemma finish_commands disk_ok st save :
  _commands (fst (finish disk_ok st save)) = _commands st.
Proof.
unfold finish, save_commands.
destruct (wants_save st save); [|reflexivity].
destruct (_validate_all_phrase_conflicts (_commands st)); reflexivity.
Qed.

Lemma finish_result disk_ok st save :
  (wants_save st save = false -> snd (finish disk_ok st save) = true)
  /\ (wants_save st save = true ->
      _validate_all_phrase_conflicts (_commands st) = [] ->
      snd (finish disk_ok st save) = disk_ok).
Proof.
unfold finish, save_commands. split.
- intros ->. reflexivity.
- intros -> ->. reflexivity.
Qed.

(** What [add_command] does on a valid record, by the conflict map. *)
Lemma add_command_valid disk_ok st description command_data save :
  is_valid_command_data command_data = true ->
  let conflicts :=
    _find_phrase_conflicts (_commands st) description
      (phrases_field command_data) None in
  (conflicts <> [] ->
   snd (add_command disk_ok st description command_data save) = false
   /\ _commands (fst (add_command disk_ok st description command_data save))
      = _commands st
   /\ _last_conflicts
        (fst (add_command disk_ok st description command_data save))
      = conflicts)
  /\ (conflicts = [] ->
      add_command disk_ok st description command_data save
      = finish disk_ok
          (with_commands st
             (dict_set description command_data (_commands st))) save).
Proof.
intros Hv conflicts. unfold add_command. rewrite Hv. simpl. fold conflicts.
destruct conflicts as [|e c]; split; intros H; try congruence.
repeat split; reflexivity.
Qed.

Lemma update_command_valid disk_ok st description command_data save old :
  dict_get description (_commands st) = Some old ->
  is_valid_command_data command_data = true ->
  let conflicts :=
    _find_phrase_conflicts (_commands st) description
      (phrases_field command_data) (Some description) in
  (conflicts <> [] ->
   exists st',
     update_command disk_ok st description command_data save
     = Some (st', false)
     /\ _commands st' = _commands st)
  /\ (conflicts = [] ->
      update_command disk_ok st description command_data save
      = if has_copy old
        then Some (finish disk_ok
                     (with_commands st
                        (dict_set description command_data (_commands st)))
                     save)
        else None).
Proof.
intros Hg Hv conflicts. unfold update_command, old_value_copy, dict_mem.
rewrite Hg, Hv. simpl. fold conflicts.
destruct conflicts as [|e c]; split; intros H; try congruence.
- now destruct (has_copy old).
- eexists. split; reflexivity.
Qed.

Lemma excluded_self d : d <> "" -> excluded (Some d) d = true.
Proof.
intros H. unfold excluded. rewrite String.eqb_refl.
destruct (String.eqb_spec d ""); [contradiction | reflexivity].
Qed.

Lemma excluded_other d o : o <> d -> excluded (Some d) o = false.
Proof.
intros H. unfold excluded.
destruct (String.eqb_spec o d); [contradiction|]. apply andb_false_r.
Qed.

Lemma excluded_false_cases d o :
  excluded (Some d) o = false -> d = "" \/ o <> d.
Proof.
unfold excluded. destruct (String.eqb_spec d "") as [->|Hd]; [now left|].
destruct (String.eqb_spec o d) as [->|Ho]; [discriminate | now right].
Qed.

Lemma nonblank_items_are_str raw :
  forallb nonblank_str raw = true -> forallb is_str raw = true.
Proof.
induction raw as [|v raw IH]; simpl; [reflexivity|].
intros H. apply andb_true_iff in H. destruct H as [Hv Hr].
destruct v; try discriminate. simpl. auto.
Qed.

(** When no item is blank, [zip(phrases, normalized_new)] pairs every phrase
    with its own normal form. *)
Lemma aligned_pairs raw item np :
  forallb nonblank_str raw = true ->
  (In (item, np) (combine raw (norms raw))
   <-> exists s, item = PStr s /\ np = norm s /\ In (PStr s) raw).
Proof.
induction raw as [|v raw IH]; simpl; intros H.
- split; [tauto | intros [s [_ [_ []]]]].
- apply andb_true_iff in H. destruct H as [Hv Hr].
  destruct v as [| | | s0 | |]; try discriminate. simpl in Hv.
  apply negb_true_iff in Hv. rewrite Hv. simpl. rewrite (IH Hr). split.
  + intros [H|[s [H1 [H2 H3]]]].
    * inversion H; subst. exists s0. auto.
    * exists s. auto.
  + intros [s [H1 [H2 [H3|H3]]]].
    * inversion H3; subst. now left.
    * right. exists s. auto.
Qed.

End StoreFacts.

Section StoreTheorems.

Import Py ValidationUtils ConfigManager Spec Examples.

Lemma owner_or_none (l : dict pyval) n :
  (exists o cmd, In (o, cmd) l /\ In n (owned cmd))
  \/ (forall o cmd, In (o, cmd) l -> ~ In n (owned cmd)).
Proof.
induction l as [|[o0 c0] l IH]; [right; intros o cmd []|].
destruct IH as [[o [cmd [H1 H2]]] | Hno].
- left. exists o, cmd. split; [now right | exact H2].
- destruct (in_dec string_dec n (owned c0)) as [Hin|Hout].
  + left. exists o0, c0. split; [now left | exact Hin].
  + right. intros o cmd [H|H]; [inversion H; subst; exact Hout | eauto].
Qed.

(** A normal form that some command owns has a last owner in map order. *)
Lemma last_owner_exists (commands : dict pyval) n :
  (exists o cmd, In (o, cmd) commands /\ In n (owned cmd)) ->
  exists o, last_owner commands n o.
Proof.
induction commands as [|[o0 c0] l IH]; intros [o [cmd [Hin Hown]]];
  [destruct Hin|].
destruct (owner_or_none l n) as [Hex|Hno].
- destruct (IH Hex) as [o' [before [cmd' [after [E [H1 H2]]]]]].
  exists o', ((o0, c0) :: before)%list, cmd', after.
  split; [simpl; now rewrite E | auto].
- destruct Hin as [Hin|Hin]; [|exfalso; eapply Hno; eauto].
  inversion Hin; subst. exists o, []%list, cmd, l. auto.
Qed.

(** When no candidate phrase is blank, the key of a candidate phrase ends
    with the last command in map order that owns its normal form: each owner
    overwrites the entry, and the commands after the last owner do not write
    under this key. *)
Lemma find_conflicts_last_owner commands nd phrases raw p o :
  iter phrases = Some raw -> forallb is_str raw = true ->
  forallb nonblank_str raw = true ->
  typed_store commands ->
  In (PStr p) raw -> last_owner commands (norm p) o ->
  dict_get (PyStr.strip p) (_find_phrase_conflicts commands nd phrases None)
  = Some o.
Proof.
intros Hraw Hstr Hnb Hty Hp [l1 [cmd [l2 [Hc [Hown Hno]]]]].
assert (Hb : blank p = false).
{ rewrite forallb_forall in Hnb. specialize (Hnb _ Hp). simpl in Hnb.
  now apply negb_true_iff in Hnb. }
assert (Hpair : In (PStr p, norm p) (combine raw (norms raw))).
{ apply aligned_pairs; [exact Hnb|]. exists p. auto. }
assert (Hcmd : In (o, cmd) commands).
{ rewrite Hc. apply in_or_app. right. now left. }
unfold _find_phrase_conflicts, Exc.exec, find_body, Exc.bind.
assert (Ht : truthy phrases = true).
{ destruct raw as [|x raw']; [destruct Hp|]. eapply iter_nonempty_truthy; eauto. }
rewrite Ht, Hraw. simpl. rewrite (normalized_typed raw Hstr). simpl.
destruct (norms raw) as [|n0 nn] eqn:En.
{ apply in_combine_r in Hpair. contradiction. }
rewrite <- En in Hpair |- *. clear n0 nn En.
set (body := check_command phrases (norms raw) None).
set (Q := fun t : dict string => dict_get (PyStr.strip p) t = Some o).
change (Q (fst (Exc.for_each commands body []))).
assert (Hruns : forall entry t, In entry commands -> snd (body entry t) <> None).
{ intros entry t Hin. unfold body. eapply check_command_runs; eauto. }
rewrite Hc at 1. rewrite for_each_app. unfold Exc.bind.
pose proof (for_each_runs l1 body) as Hr1.
destruct (Exc.for_each l1 body []) as [s1 [[]|]] eqn:E1.
2:{ exfalso. apply (Hr1 (fun x t Hx => Hruns x t ltac:(rewrite Hc; apply in_or_app; now left)) []).
    now rewrite E1. }
cbn [Exc.for_each]. unfold Exc.bind.
assert (Hq : Q (fst (body (o, cmd) s1))).
{ unfold body. apply (check_command_establishes Q commands phrases raw None
                        o cmd (PStr p) (norm p)); auto.
  - intros k t Hqt. unfold Q in *.
    destruct (String.eqb_spec (PyStr.strip p) k) as [<-|Hne].
    + apply dict_get_set_same.
    + rewrite dict_get_set_other; [exact Hqt | exact Hne].
  - intros k t Hk. simpl in Hk. inversion Hk; subst k. unfold Q.
    apply dict_get_set_same. }
pose proof (Hruns (o, cmd) s1 Hcmd) as Hr.
destruct (body (o, cmd) s1) as [s2 [[]|]]; simpl in *; [|congruence].
apply for_each_keeps; [|exact Hq].
intros [o' c'] t Hin Hqt. unfold body.
apply (check_command_writes Q phrases raw); auto.
intros e item k u _ He Hbe Hin' Hk Hu.
apply (aligned_pairs raw item (norm e) Hnb) in Hin'.
destruct Hin' as [s0 [-> [Hn _]]]. simpl in Hk. inversion Hk; subst k.
unfold Q in *. rewrite dict_get_set_other; [exact Hu|].
intros Heq. apply (Hno o' c' Hin).
assert (Hnp : norm p = norm e).
{ rewrite Hn. unfold norm. now rewrite Heq. }
rewrite Hnp. unfold owned. now apply norms_in_item.
Qed.

(** C2, as amended: conflict rejection by [add_command] is atomic and
    structured. Whenever [add_command] is called on a well-typed store with a
    structurally valid record whose phrases are strings, one of which is not
    blank and, trimmed and lower-cased, equals the trimmed lower-cased form of
    a phrase of an existing command, the call returns failure, the command
    map is unchanged, and the stored conflict map is non-empty and names only
    commands of the map that own the normal form of a candidate phrase; when
    moreover no candidate phrase is blank, the conflict map associates the
    trimmed phrase with the last command in map order that owns its normal
    form. *)
Theorem C2_conflict_rejection_is_atomic :
  forall disk_ok st description command_data save raw p o cmd,
    is_valid_command_data command_data = true ->
    iter (phrases_field command_data) = Some raw ->
    forallb is_str raw = true ->
    typed_store (_commands st) ->
    In (PStr p) raw -> blank p = false ->
    In (o, cmd) (_commands st) -> In (norm p) (owned cmd) ->
    let r := add_command disk_ok st description command_data save in
    snd r = false
    /\ _commands (fst r) = _commands st
    /\ _last_conflicts (fst r) <> []
    /\ (forall k o', In (k, o') (_last_conflicts (fst r)) ->
        exists cmd' n,
          In (o', cmd') (_commands st) /\ In n (norms raw)
          /\ In n (owned cmd'))
    /\ (forallb nonblank_str raw = true ->
        exists o',
          last_owner (_commands st) (norm p) o'
          /\ dict_get (PyStr.strip p) (_last_conflicts (fst r)) = Some o').
Proof.
intros disk_ok st description command_data save raw p o cmd
  Hv Hraw Hstr Hty Hp Hb Hcmd Hown r.
pose proof (norms_in_item raw p Hp Hb) as Hn.
assert (Hne : _find_phrase_conflicts (_commands st) description
                (phrases_field command_data) None <> []).
{ eapply find_conflicts_complete; eauto. }
destruct (add_command_valid disk_ok st description command_data save Hv)
  as [Hfail _].
destruct (Hfail Hne) as [H1 [H2 H3]]. subst r.
rewrite H3. repeat split; auto.
- intros k o' Hin.
  destruct (find_conflicts_sound _ _ _ _ _ _ Hin) as [cmd' [n [Ha [_ [Hb' Hc]]]]].
  exists cmd', n. unfold phrase_list in Hb'. rewrite Hraw in Hb'. auto.
- intros Hnb.
  destruct (last_owner_exists (_commands st) (norm p)) as [o' Hlast];
    [eauto|].
  exists o'. split; [exact Hlast|].
  now apply (find_conflicts_last_owner _ _ _ raw).
Qed.

Lemma C2_conflict_rejection_is_atomic_witness :
  snd (add_command true notepad_store "Launch Notepad"
         (record ["notepad"] "command" "notepad.exe") None) = false
  /\ _commands
       (fst (add_command true notepad_store "Launch Notepad"
               (record ["notepad"] "command" "notepad.exe") None))
     = _commands notepad_store.
Proof.
assert (Hty : typed_store (_commands notepad_store)).
{ intros o cmd [H|[]]. inversion H; subst.
  exists [PStr "notepad"]. split; reflexivity. }
destruct (C2_conflict_rejection_is_atomic true notepad_store "Launch Notepad"
            (record ["notepad"] "command" "notepad.exe") None
            [PStr "notepad"] "notepad" "Open Notepad"
            (record ["notepad"] "command" "notepad.exe"))
  as [H1 [H2 _]]; try reflexivity; try exact Hty;
  try (left; reflexivity).
split; [exact H1 | exact H2].
Defined.

(** C2, as stated, fails in three ways: on a record that is not structurally
    valid the conflict map is cleared, so the colliding phrase is not in it; a
    blank phrase that equals a stored blank phrase after trimming is not
    rejected and the map is changed; and when a blank entry precedes the
    colliding phrase, the map is keyed by the wrong entry. *)
Lemma C2_rejection_needs_valid_nonblank :
  (snd (add_command true notepad_store "Launch Notepad"
          (record ["notepad"] "internal" "notepad.exe") None) = false
   /\ _last_conflicts
        (fst (add_command true notepad_store "Launch Notepad"
                (record ["notepad"] "internal" "notepad.exe") None)) = [])
  /\ (In (norm " ") (all_norms (phrase_items (record [""] "keys" "ctrl+b")))
      /\ add_command true blank_store "Other" (record [" "] "keys" "ctrl+o")
           None
         = (mk_state [("Blank", record [""] "keys" "ctrl+b");
                      ("Other", record [" "] "keys" "ctrl+o")] true "" [],
            true))
  /\ _last_conflicts
       (fst (add_command true notepad_store "Launch Notepad"
               (record [""; "notepad"] "command" "notepad.exe") None))
     = [("", "Open Notepad")].
Proof. repeat split; try reflexivity. vm_compute. now left. Qed.

(** C7, as amended: self-collision is excluded on the update path only. For
    every store in which the non-empty description [d] maps to a record,
    [update_command d r] with a structurally valid [r] that shares no
    non-blank normal form with any other command replaces [d]'s record,
    whatever [r] shares with [d]'s current entry; it returns [True] when no
    save is made, and the result of the save otherwise. The conflict map
    computed with [exclude_description = d] never names [d]. ([add_command]
    makes no such exclusion.) *)
Theorem C7_self_exclusion_on_update :
  forall disk_ok st d old command_data save,
    d <> "" ->
    dict_get d (_commands st) = Some (PDict old) ->
    is_valid_command_data command_data = true ->
    (forall o cmd n,
       In (o, cmd) (_commands st) -> o <> d ->
       In n (owned command_data) -> In n (owned cmd) -> False) ->
    (exists r,
       update_command disk_ok st d command_data save = Some r
       /\ _commands (fst r) = dict_set d command_data (_commands st)
       /\ (wants_save st save = false -> snd r = true)
       /\ (wants_save st save = true ->
           _validate_all_phrase_conflicts
             (dict_set d command_data (_commands st)) = [] ->
           snd r = disk_ok))
    /\ (forall nd phrases k,
          ~ In (k, d) (_find_phrase_conflicts (_commands st) nd phrases (Some d))).
Proof.
intros disk_ok st d old command_data save Hd Hg Hv Hfree. split.
- assert (Hnone : _find_phrase_conflicts (_commands st) d
                    (phrases_field command_data) (Some d) = []).
  { apply find_conflicts_none. intros o cmd n Hin Hex Hn Ho.
    apply excluded_false_cases in Hex.
    destruct Hex as [Hex|Hex]; [contradiction|]. eapply Hfree; eauto. }
  destruct (update_command_valid disk_ok st d command_data save _ Hg Hv)
    as [_ Hok].
  rewrite (Hok Hnone). simpl. eexists. split; [reflexivity|].
  rewrite finish_commands.
  destruct (finish_result disk_ok
              (with_commands st (dict_set d command_data (_commands st))) save)
    as [F1 F2].
  repeat split; auto.
- intros nd phrases k Hin.
  destruct (find_conflicts_sound _ _ _ _ _ _ Hin) as [cmd [n [_ [Hex _]]]].
  rewrite (excluded_self d Hd) in Hex. discriminate.
Qed.

Lemma C7_self_exclusion_on_update_witness :
  exists r,
    update_command true go_store "X" (record ["Go "; "gogo"] "keys" "ctrl+g")
      (Some false) = Some r
    /\ _commands (fst r) = [("X", record ["Go "; "gogo"] "keys" "ctrl+g")]
    /\ snd r = true.
Proof.
destruct (C7_self_exclusion_on_update true go_store "X"
            [("Phrases", PList [PStr "go"]); ("Action", PStr "keys");
             ("Command", PStr "ctrl+g")]
            (record ["Go "; "gogo"] "keys" "ctrl+g") (Some false))
  as [[r [H1 [H2 [H3 _]]]] _].
- discriminate.
- reflexivity.
- reflexivity.
- intros o cmd n [H|[]] Ho. inversion H; subst. contradiction.
- exists r. split; [exact H1|]. split; [exact H2 | apply H3; reflexivity].
Defined.

(** C7, as stated, fails on the [add_command] path: a command checked against
    the map is compared with its own entry too, and the conflict is reported
    under its own description. *)
Lemma C7_add_path_reports_self_conflict :
  add_command true go_store "X" (record ["go"] "keys" "ctrl+g") (Some false)
  = (mk_state (_commands go_store) true
       ("Duplicate phrase(s) detected: " ++ PyStr.nl ++ "go -> X. " ++ PyStr.nl
        ++ "Remove the old command(s) or Update the phrase(s) to resolve the conflict.")
       [("go", "X")],
     false).
Proof. reflexivity. Qed.

(** C10, as amended: [add_command] is an upsert. For every store in which
    [d] already maps to a record, [add_command d r'] with a structurally valid
    [r'] that shares no non-blank normal form with any existing command
    ([d]'s own entry included) replaces [d]'s record with [r'] and leaves the
    other entries alone, rather than failing because [d] exists; it returns
    [True] when no save is made, and the result of [save_commands] otherwise:
    [False] when the whole map has a phrase conflict, else the outcome of the
    write. *)
Theorem C10_add_command_is_an_upsert :
  forall disk_ok st d r r' save,
    dict_get d (_commands st) = Some r ->
    is_valid_command_data r' = true ->
    (forall o cmd n,
       In (o, cmd) (_commands st) ->
       In n (owned r') -> In n (owned cmd) -> False) ->
    let res := add_command disk_ok st d r' save in
    _commands (fst res) = dict_set d r' (_commands st)
    /\ dict_get d (_commands (fst res)) = Some r'
    /\ (forall d', d' <> d ->
          dict_get d' (_commands (fst res)) = dict_get d' (_commands st))
    /\ (wants_save st save = false -> snd res = true)
    /\ (wants_save st save = true ->
        _validate_all_phrase_conflicts (dict_set d r' (_commands st)) = [] ->
        snd res = disk_ok).
Proof.
intros disk_ok st d r r' save Hd Hv Hfree res.
assert (Hnone : _find_phrase_conflicts (_commands st) d (phrases_field r') None
                = []).
{ apply find_conflicts_none. intros o cmd n Hin _ Hn Ho. eapply Hfree; eauto. }
destruct (add_command_valid disk_ok st d r' save Hv) as [_ Hok].
subst res. rewrite (Hok Hnone). rewrite finish_commands.
destruct (finish_result disk_ok
            (with_commands st (dict_set d r' (_commands st))) save)
  as [F1 F2].
simpl. repeat split; auto.
- apply dict_get_set_same.
- intros d' Hne. now apply dict_get_set_other.
Qed.

Lemma C10_add_command_is_an_upsert_witness :
  _commands
    (fst (add_command true go_store "X" (record ["stop"] "keys" "ctrl+s")
            (Some false)))
  = [("X", record ["stop"] "keys" "ctrl+s")]
  /\ snd (add_command true go_store "X" (record ["stop"] "keys" "ctrl+s")
            (Some false)) = true.
Proof.
destruct (C10_add_command_is_an_upsert true go_store "X"
            (record ["go"] "keys" "ctrl+g") (record ["stop"] "keys" "ctrl+s")
            (Some false))
  as [H1 [_ [_ [H4 _]]]].
- reflexivity.
- reflexivity.
- intros o cmd n [H|[]] Hn Ho. inversion H; subst.
  vm_compute in Hn, Ho. destruct Hn as [<-|[]]. destruct Ho as [Ho|[]].
  discriminate Ho.
- split; [exact H1 | apply H4; reflexivity].
Defined.

(** C10, as stated, fails on the returned value when the call saves: with
    auto-save on, a phrase conflict between two other commands of the map, or
    a failed write, makes the call return [False] although the record was
    replaced. *)
Lemma C10_upsert_may_report_failure :
  (dict_get "D" (_commands imported_store)
   = Some (record ["dee"] "keys" "ctrl+d")
   /\ snd (add_command true imported_store "D"
             (record ["delta"] "keys" "ctrl+d") None) = false
   /\ dict_get "D"
        (_commands
           (fst (add_command true imported_store "D"
                   (record ["delta"] "keys" "ctrl+d") None)))
      = Some (record ["delta"] "keys" "ctrl+d"))
  /\ add_command false go_store "X" (record ["stop"] "keys" "ctrl+s") None
     = (mk_state [("X", record ["stop"] "keys" "ctrl+s")] true "" [], false).
Proof. repeat split; reflexivity. Qed.

End StoreTheorems.

Section InvariantFacts.

Import Py ValidationUtils ConfigManager Spec Examples.

Lemma typed_store_set commands d cd :
  typed_store commands -> typed_record cd ->
  typed_store (dict_set d cd commands).
Proof.
intros Hty Hcd o cmd Hin. apply dict_set_entry in Hin.
destruct Hin as [Hin|[_ ->]]; [eapply Hty; eauto | exact Hcd].
Qed.

Lemma typed_store_del commands d :
  typed_store commands -> typed_store (dict_del d commands).
Proof. intros Hty o cmd Hin. apply dict_del_entry in Hin. eapply Hty; eauto. Qed.

Lemma conflict_free_del commands d :
  conflict_free commands -> conflict_free (dict_del d commands).
Proof.
intros Hcf o1 c1 o2 c2 n H1 H2. apply dict_del_entry in H1, H2.
eapply Hcf; eauto.
Qed.

(** Storing a record for which the conflict check came back empty keeps the
    map conflict-free, on the add path (nothing excluded) and on the update
    path (the description itself excluded). *)
Lemma conflict_free_set commands d cd exclude :
  typed_store commands -> typed_record cd -> conflict_free commands ->
  exclude = None \/ exclude = Some d ->
  _find_phrase_conflicts commands d (phrases_field cd) exclude = [] ->
  conflict_free (dict_set d cd commands).
Proof.
intros Hty [raw [Hraw Hstr]] Hcf Hex Hnone.
assert (Hclash : forall o c n, In (o, c) commands -> o <> d ->
                   In n (owned cd) -> In n (owned c) -> False).
{ intros o c n Hin Hne Hn Ho.
  apply (find_conflicts_complete commands d (phrases_field cd) exclude raw o c n);
    auto.
  - destruct Hex as [->| ->]; [reflexivity | now apply excluded_other].
  - unfold owned, phrase_items, phrase_list in Hn. now rewrite Hraw in Hn. }
intros o1 c1 o2 c2 n H1 H2 Hne Hn1 Hn2.
apply dict_set_entry in H1, H2.
destruct H1 as [H1|[-> ->]], H2 as [H2|[-> ->]].
- eapply Hcf; eauto.
- eapply Hclash; eauto.
- eapply Hclash; eauto.
- congruence.
Qed.

Lemma add_command_keeps disk_ok st description command_data save :
  typed_record command_data ->
  typed_store (_commands st) -> conflict_free (_commands st) ->
  typed_store
    (_commands (fst (add_command disk_ok st description command_data save)))
  /\ conflict_free
       (_commands (fst (add_command disk_ok st description command_data save))).
Proof.
intros Hcd Hty Hcf.
destruct (is_valid_command_data command_data) eqn:Ev.
- destruct (add_command_valid disk_ok st description command_data save Ev)
    as [Hfail Hok].
  destruct (_find_phrase_conflicts (_commands st) description
              (phrases_field command_data) None) as [|e c] eqn:Ec.
  + rewrite (Hok eq_refl), finish_commands. simpl. split.
    * now apply typed_store_set.
    * apply (conflict_free_set _ _ _ None); auto.
  + destruct Hfail as [_ [H _]]; [discriminate|]. rewrite H. auto.
- rewrite add_command_invalid by exact Ev. auto.
Qed.

Lemma update_command_keeps disk_ok st description command_data save :
  typed_record command_data ->
  typed_store (_commands st) -> conflict_free (_commands st) ->
  typed_store
    (_commands
       (after st (update_command disk_ok st description command_data save)))
  /\ conflict_free
       (_commands
          (after st (update_command disk_ok st description command_data save))).
Proof.
intros Hcd Hty Hcf.
destruct (dict_get description (_commands st)) as [old|] eqn:Eg.
- destruct (is_valid_command_data command_data) eqn:Ev.
  + destruct (update_command_valid disk_ok st description command_data save
                old Eg Ev) as [Hfail Hok].
    destruct (_find_phrase_conflicts (_commands st) description
                (phrases_field command_data) (Some description))
      as [|e c] eqn:Ec.
    * rewrite (Hok eq_refl). destruct (has_copy old); simpl; [|auto].
      rewrite finish_commands. simpl. split.
      -- now apply typed_store_set.
      -- apply (conflict_free_set _ _ _ (Some description)); auto.
    * destruct Hfail as [st' [H1 H2]]; [discriminate|].
      rewrite H1. simpl. rewrite H2. auto.
  + rewrite update_command_invalid by exact Ev. simpl.
    destruct (dict_mem description (_commands st)); auto.
- unfold update_command, dict_mem. rewrite Eg. simpl. auto.
Qed.

Lemma remove_command_keeps disk_ok st description save :
  typed_store (_commands st) -> conflict_free (_commands st) ->
  typed_store
    (_commands (after st (remove_command disk_ok st description save)))
  /\ conflict_free
       (_commands (after st (remove_command disk_ok st description save))).
Proof.
intros Hty Hcf. unfold remove_command.
destruct (dict_mem description (_commands st)); simpl; [|auto].
destruct (old_value_copy st description); simpl; [|auto].
rewrite finish_commands. simpl. split.
- now apply typed_store_del.
- now apply conflict_free_del.
Qed.

Lemma step_keeps st st' :
  step st st' ->
  typed_store (_commands st) /\ conflict_free (_commands st) ->
  typed_store (_commands st') /\ conflict_free (_commands st').
Proof.
intros Hstep [Hty Hcf]. destruct Hstep.
- now apply add_command_keeps.
- now apply update_command_keeps.
- now apply remove_command_keeps.
Qed.

Lemma reachable_keeps st st' :
  reachable st st' ->
  typed_store (_commands st) /\ conflict_free (_commands st) ->
  typed_store (_commands st') /\ conflict_free (_commands st').
Proof.
intros Hr H. induction Hr as [|st1 st2 Hr IH Hs]; [exact H|].
eapply step_keeps; eauto.
Qed.

Lemma fold_left_fixed {X Y} (f : X -> Y -> X) (l : list Y) (x : X) :
  (forall y, In y l -> f x y = x) -> fold_left f l x = x.
Proof.
induction l as [|y l IH]; simpl; intros H; [reflexivity|].
rewrite (H y (or_introl eq_refl)). apply IH. intros z Hz. apply H. now right.
Qed.

(** In a conflict-free map without the empty description the whole-map
    sweep finds nothing. *)
Lemma validate_all_empty commands :
  conflict_free commands -> dict_mem "" commands = false ->
  _validate_all_phrase_conflicts commands = [].
Proof.
intros Hcf Hmem. unfold _validate_all_phrase_conflicts.
apply fold_left_fixed. intros [desc cmd] Hin. unfold validate_step.
destruct (negb (truthy (phrases_field cmd))); [reflexivity|].
rewrite find_conflicts_none; [reflexivity|].
intros o c n Ho Hex Hn Hc.
apply excluded_false_cases in Hex. destruct Hex as [->|Hne].
- assert (Hk : dict_mem "" commands = true).
  { apply dict_mem_keys. apply (in_map fst) in Hin. exact Hin. }
  congruence.
- eapply (Hcf o c desc cmd n); eauto.
Qed.

Lemma merge_first_keeps cmd_conflicts conflicts :
  conflicts <> [] -> merge_first cmd_conflicts conflicts <> [].
Proof.
unfold merge_first. revert conflicts.
induction cmd_conflicts as [|[k o] l IH]; intros conflicts H; simpl; [exact H|].
apply IH. destruct (dict_mem k conflicts); [exact H | apply dict_set_nonempty].
Qed.

Lemma merge_first_nonempty cmd_conflicts conflicts :
  cmd_conflicts <> [] -> merge_first cmd_conflicts conflicts <> [].
Proof.
destruct cmd_conflicts as [|[k o] l]; [congruence|]. intros _.
unfold merge_first. simpl.
apply (merge_first_keeps l).
destruct (dict_mem k conflicts) eqn:E; [|apply dict_set_nonempty].
intros ->. discriminate E.
Qed.

Lemma validate_step_keeps commands conflicts entry :
  conflicts <> [] -> validate_step commands conflicts entry <> [].
Proof.
intros H. destruct entry as [desc cmd]. unfold validate_step.
destruct (negb (truthy (phrases_field cmd))); [exact H|].
now apply merge_first_keeps.
Qed.

Lemma fold_validate_keeps commands l conflicts :
  conflicts <> [] -> fold_left (validate_step commands) l conflicts <> [].
Proof.
revert conflicts. induction l as [|e l IH]; intros conflicts H; simpl;
  [exact H|].
apply IH. now apply validate_step_keeps.
Qed.

Lemma fold_validate_finds commands l conflicts entry :
  In entry l ->
  (forall c, validate_step commands c entry <> []) ->
  fold_left (validate_step commands) l conflicts <> [].
Proof.
revert conflicts. induction l as [|e l IH]; intros conflicts Hin Hstep;
  [contradiction|].
simpl. destruct Hin as [->|Hin].
- apply fold_validate_keeps, Hstep.
- now apply IH.
Qed.

(** On a well-typed map the whole-map sweep finds every conflict: with the
    lemma before, an empty sweep and conflict-freedom are the same thing
    when no command has the empty description. *)
Lemma validate_all_detects commands :
  typed_store commands ->
  _validate_all_phrase_conflicts commands = [] -> conflict_free commands.
Proof.
intros Hty Hsweep o1 c1 o2 c2 n H1 H2 Hne Hn1 Hn2.
apply (fold_validate_finds commands commands [] (o1, c1) H1); [|exact Hsweep].
intros c. unfold validate_step.
destruct (Hty o1 c1 H1) as [raw [Hraw Hstr]].
assert (Hown : In n (norms raw)).
{ unfold owned, phrase_items, phrase_list in Hn1. now rewrite Hraw in Hn1. }
assert (Ht : truthy (phrases_field c1) = true).
{ destruct raw as [|x raw']; [contradiction|].
  eapply iter_nonempty_truthy; eauto. }
rewrite Ht. simpl. apply merge_first_nonempty.
apply (find_conflicts_complete commands o1 (phrases_field c1) (Some o1)
         raw o2 c2 n); auto.
now apply excluded_other.
Qed.

(** C1, as amended: the uniqueness invariant. For every command-map state
    reachable from a well-typed conflict-free state by any finite sequence of
    [add_command], [update_command] and [remove_command] calls on records
    with string phrases, no two distinct command descriptions own non-blank
    phrases that are equal after trimming and lower-casing; and, when no
    command has the empty description, [_validate_all_phrase_conflicts]
    returns an empty conflict map. *)
Theorem C1_uniqueness_invariant :
  forall st st',
    typed_store (_commands st) -> conflict_free (_commands st) ->
    reachable st st' ->
    conflict_free (_commands st')
    /\ (dict_mem "" (_commands st') = false ->
        _validate_all_phrase_conflicts (_commands st') = []).
Proof.
intros st st' Hty Hcf Hr.
destruct (reachable_keeps st st' Hr (conj Hty Hcf)) as [_ Hcf'].
split; [exact Hcf' | now apply validate_all_empty].
Qed.

Lemma C1_uniqueness_invariant_witness :
  _validate_all_phrase_conflicts
    (_commands
       (fst (add_command true notepad_store "Open Browser"
               (record ["browser"; "Open Browser"] "browser" "https://example.org")
               None)))
  = [].
Proof.
apply (C1_uniqueness_invariant empty_store).
- intros o cmd [].
- intros o1 c1 o2 c2 n [].
- apply reach_step with (st1 := notepad_store).
  + apply reach_step with (st1 := empty_store); [apply reach_here|].
    apply (step_add empty_store true "Open Notepad"
             (record ["notepad"] "command" "notepad.exe") None).
    exists [PStr "notepad"]. split; reflexivity.
  + apply step_add.
    exists [PStr "browser"; PStr "Open Browser"]. split; reflexivity.
- reflexivity.
Defined.

(** C1, as stated, fails in both of its forms. Blank phrases are skipped by
    the conflict check, so two commands added to the empty store may own
    phrases that are equal after trimming and lower-casing; and a command
    stored under the empty description is not excluded from its own check,
    so the whole-map sweep reports it against itself. *)
Lemma C1_blank_phrases_and_empty_description :
  (reachable empty_store two_blank_commands
   /\ overlap_after_normalizing (_commands two_blank_commands))
  /\ (reachable empty_store empty_description_command
      /\ _validate_all_phrase_conflicts (_commands empty_description_command)
         = [("go", "")]).
Proof.
split; split.
- unfold two_blank_commands.
  eapply reach_step; [eapply reach_step; [apply reach_here|]|].
  + apply (step_add empty_store true "A" (record [" "] "keys" "ctrl+a") None).
    exists [PStr " "]. split; reflexivity.
  + apply step_add. exists [PStr ""]. split; reflexivity.
- exists "A", (record [" "] "keys" "ctrl+a"),
         "B", (record [""] "keys" "ctrl+b"), "".
  repeat split; try (vm_compute; tauto); discriminate.
- unfold empty_description_command.
  eapply reach_step; [apply reach_here|].
  apply step_add. exists [PStr "go"]. split; reflexivity.
- reflexivity.
Qed.

(** A remark on the typing hypothesis of C1 and C2: an item that is no string
    ends the conflict check by an exception that is swallowed, and the
    duplicate is stored. *)
Lemma untyped_item_defeats_the_check :
  add_command true notepad_store "Launch Notepad"
    (PDict [("Phrases", PList [PStr "notepad"; PInt 5]);
            ("Action", PStr "command"); ("Command", PStr "notepad.exe")])
    (Some false)
  = (mk_state
       [("Open Notepad", record ["notepad"] "command" "notepad.exe");
        ("Launch Notepad",
         PDict [("Phrases", PList [PStr "notepad"; PInt 5]);
                ("Action", PStr "command"); ("Command", PStr "notepad.exe")])]
       true "" [],
     true).
Proof. reflexivity. Qed.

End InvariantFacts.

Section StringFacts.

Lemma prefix_nil s : prefix "" s = true.
Proof. destruct s; reflexivity. Qed.

Lemma prefix_app_r p a t : prefix p a = true -> prefix p (a ++ t) = true.
Proof.
revert a. induction p as [|c p IH]; intros a H; [apply prefix_nil|].
destruct a as [|c' a]; simpl in *; [discriminate|].
destruct (ascii_dec c c'); [auto | discriminate].
Qed.

Lemma prefix_empty_r p : prefix p "" = true -> p = "".
Proof. destruct p; [reflexivity | discriminate]. Qed.

Lemma contains_empty s : PyStr.contains "" s = true.
Proof. destruct s; reflexivity. Qed.


Lemma contains_app_r p a t :
  PyStr.contains p a = true -> PyStr.contains p (a ++ t) = true.
Proof.
induction a as [|c a IH]; simpl.
- rewrite orb_false_r. intros H. apply prefix_empty_r in H. subst p.
  apply contains_empty.
- intros H. apply orb_true_iff in H. destruct H as [H|H].
  + apply (prefix_app_r p (String c a) t) in H. simpl in H. rewrite H.
    reflexivity.
  + rewrite (IH H). apply orb_true_r.
Qed.

Lemma contains_lstrip p s :
  PyStr.contains p (PyStr.lstrip s) = true -> PyStr.contains p s = true.
Proof.
induction s as [|c s IH]; [auto|].
cbn [PyStr.lstrip]. destruct (PyStr.isspace c); [|auto].
intros H. cbn [PyStr.contains]. rewrite (IH H). apply orb_true_r.
Qed.

Lemma rstrip_is_prefix s : exists t, s = PyStr.rstrip s ++ t.
Proof.
induction s as [|c s [t Ht]]; [exists ""; reflexivity|].
cbn [PyStr.rstrip]. destruct (PyStr.rstrip s) as [|c' r] eqn:E.
- destruct (PyStr.isspace c).
  + exists (String c s). reflexivity.
  + exists t. simpl. simpl in Ht. now rewrite <- Ht.
- exists t. simpl. f_equal. exact Ht.
Qed.

Lemma contains_rstrip p s :
  PyStr.contains p (PyStr.rstrip s) = true -> PyStr.contains p s = true.
Proof.
intros H. destruct (rstrip_is_prefix s) as [t Ht]. rewrite Ht.
now apply contains_app_r.
Qed.

(** What occurs in the trimmed text occurs in the text. *)
Lemma contains_strip p s :
  PyStr.contains p (PyStr.strip s) = true -> PyStr.contains p s = true.
Proof.
unfold PyStr.strip. intros H. apply contains_lstrip, contains_rstrip, H.
Qed.

Lemma contains_prefix_false old s :
  PyStr.contains old s = false -> prefix old s = false.
Proof.
destruct s; simpl; intros H; apply orb_false_iff in H; tauto.
Qed.

Lemma remove_from_absent old s :
  PyStr.contains old s = false -> PyStr.remove_from old 0 s = s.
Proof.
induction s as [|c s IH]; [reflexivity|].
intros H. pose proof (contains_prefix_false old _ H) as Hp.
cbn [PyStr.remove_from]. rewrite Hp. f_equal. apply IH.
cbn [PyStr.contains] in H. apply orb_false_iff in H. tauto.
Qed.

(** [replace] leaves a text without occurrence as it is. *)
Lemma replace_absent old s :
  PyStr.contains old s = false -> PyStr.replace_with_empty old s = s.
Proof.
intros H. destruct old; [reflexivity|]. now apply remove_from_absent.
Qed.

Lemma remove_from_skip old a s :
  PyStr.remove_from old (String.length a) (a ++ s) = PyStr.remove_from old 0 s.
Proof.
induction a as [|c a IH]; [reflexivity|]. simpl. exact IH.
Qed.

Lemma prefix_self_app a s : prefix a (a ++ s) = true.
Proof.
induction a as [|c a IH]; [apply prefix_nil|]. simpl.
destruct (ascii_dec c c); [exact IH | contradiction].
Qed.

(** [replace] passes over an occurrence at the front and goes on after it. *)
Lemma replace_at_occurrence old s :
  old <> "" ->
  PyStr.replace_with_empty old (old ++ s) = PyStr.replace_with_empty old s.
Proof.
intros Hne. destruct old as [|c o]; [contradiction|].
unfold PyStr.replace_with_empty.
change (String c o ++ s) with (String c (o ++ s)).
cbn [PyStr.remove_from].
change (String c (o ++ s)) with (String c o ++ s).
rewrite prefix_self_app.
cbn [String.length]. rewrite Nat.sub_1_r. cbn [Nat.pred].
apply remove_from_skip.
Qed.

(** [replace] keeps a character at which no occurrence starts. *)
Lemma replace_keeps_char old c s :
  prefix old (String c s) = false ->
  PyStr.replace_with_empty old (String c s)
  = String c (PyStr.replace_with_empty old s).
Proof.
intros H. destruct old as [|c' o]; [discriminate|].
unfold PyStr.replace_with_empty. cbn [PyStr.remove_from]. now rewrite H.
Qed.

(** Lower-casing keeps the length: the length compared by the resolver is
    the length of the phrase. *)
Lemma lower_length s : String.length (PyStr.lower s) = String.length s.
Proof. induction s as [|c s IH]; simpl; [reflexivity | now rewrite IH]. Qed.

Lemma ascii_compare_refl c : Ascii.compare c c = Eq.
Proof. unfold Ascii.compare. apply N.compare_refl. Qed.

Lemma str_compare_refl s : String.compare s s = Eq.
Proof.
induction s as [|c s IH]; [reflexivity|]. simpl.
now rewrite ascii_compare_refl.
Qed.

Lemma str_compare_lt_trans a b c :
  String.compare a b = Lt -> String.compare b c = Lt ->
  String.compare a c = Lt.
Proof.
revert b c. induction a as [|x a IH]; intros [|y b] [|z c]; simpl;
  try discriminate; try reflexivity.
destruct (Ascii.compare x y) eqn:Exy; try discriminate;
  destruct (Ascii.compare y z) eqn:Eyz; try discriminate; intros H1 H2.
- apply Ascii.compare_eq_iff in Exy, Eyz. subst.
  rewrite ascii_compare_refl. eauto.
- apply Ascii.compare_eq_iff in Exy. subst. now rewrite Eyz.
- apply Ascii.compare_eq_iff in Eyz. subst. now rewrite Exy.
- unfold Ascii.compare in *. rewrite N.compare_lt_iff in *.
  assert (Hlt : (N_of_ascii x < N_of_ascii z)%N) by lia.
  apply N.compare_lt_iff in Hlt. now rewrite Hlt.
Qed.

Lemma str_ltb_irrefl s : String.ltb s s = false.
Proof. unfold String.ltb. now rewrite str_compare_refl. Qed.

Lemma str_ltb_false_leb a b : String.ltb a b = false -> String.leb b a = true.
Proof.
unfold String.ltb, String.leb. rewrite (String.compare_antisym a b).
destruct (String.compare b a); simpl; intros H; auto; discriminate.
Qed.

(** If neither [c < y] nor [y < x] then not [c < x]. *)
Lemma str_ltb_negtrans c y x :
  String.ltb c y = false -> String.ltb y x = false -> String.ltb c x = false.
Proof.
unfold String.ltb. intros H1 H2.
destruct (String.compare c x) eqn:Ecx; try reflexivity. exfalso.
destruct (String.compare c y) eqn:Ecy; try discriminate.
- apply String.compare_eq_iff in Ecy. subst. rewrite Ecx in H2. discriminate.
- destruct (String.compare y x) eqn:Eyx; try discriminate.
  + apply String.compare_eq_iff in Eyx. subst. congruence.
  + rewrite String.compare_antisym in Ecy, Eyx.
    destruct (String.compare y c) eqn:Eyc; try discriminate.
    destruct (String.compare x y) eqn:Exy; try discriminate.
    pose proof (str_compare_lt_trans _ _ _ Exy Eyc) as Hxc.
    rewrite String.compare_antisym, Hxc in Ecx. discriminate.
Qed.

End StringFacts.

Section BoundaryFacts.

Import CommandManager.

Lemma prefix_split p s : prefix p s = true -> exists b, s = p ++ b.
Proof.
revert s. induction p as [|c p IH]; intros s H; [exists s; reflexivity|].
destruct s as [|c' s]; simpl in H; [discriminate|].
destruct (ascii_dec c c') as [->|]; [|discriminate].
destruct (IH _ H) as [b ->]. exists b. reflexivity.
Qed.

Lemma drop_app a b : PyStr.drop (String.length a) (a ++ b) = b.
Proof. induction a as [|c a IH]; [reflexivity | exact IH]. Qed.

Lemma last_char_app dflt a b :
  PyStr.last_char dflt (a ++ b) = PyStr.last_char (PyStr.last_char dflt a) b.
Proof.
revert dflt. induction a as [|c a IH]; intros dflt; [reflexivity|].
simpl. apply IH.
Qed.

Lemma search_bounded_occurrence before lit s :
  PyStr.search_bounded before lit s = true <->
  exists a b,
    s = a ++ lit ++ b
    /\ PyStr.word_boundary (PyStr.last_char before a) (PyStr.head (lit ++ b))
       = true
    /\ PyStr.word_boundary (PyStr.last_char before (a ++ lit)) (PyStr.head b)
       = true.
Proof.
assert (Hhere : forall before s,
          PyStr.match_bounded before lit s = true <->
          exists b,
            s = lit ++ b
            /\ PyStr.word_boundary before (PyStr.head (lit ++ b)) = true
            /\ PyStr.word_boundary (PyStr.last_char before lit) (PyStr.head b)
               = true).
{ intros bf t. unfold PyStr.match_bounded. split.
  - intros H. apply andb_true_iff in H. destruct H as [H H3].
    apply andb_true_iff in H. destruct H as [H1 H2].
    destruct (prefix_split _ _ H2) as [b ->]. exists b.
    rewrite drop_app in H3. auto.
  - intros [b [-> [H1 H2]]]. rewrite H1, prefix_self_app, drop_app, H2.
    reflexivity. }
revert before. induction s as [|c s IH]; intros before.
- cbn [PyStr.search_bounded]. rewrite orb_false_r, Hhere. split.
  + intros [b [E [H1 H2]]]. exists "", b. auto.
  + intros [a [b [E [H1 H2]]]]. destruct a; [|discriminate].
    exists b. auto.
- cbn [PyStr.search_bounded]. rewrite orb_true_iff, Hhere, IH. split.
  + intros [[b [E [H1 H2]]] | [a [b [E [H1 H2]]]]].
    * exists "", b. auto.
    * exists (String c a), b. rewrite E. auto.
  + intros [a [b [E [H1 H2]]]]. destruct a as [|c' a].
    * left. exists b. auto.
    * right. simpl in E. inversion E; subst. exists a, b. auto.
Qed.

Lemma word_boundary_sides before after :
  PyStr.word_boundary before after = true
  <-> Spec.word_char before <> Spec.word_char after.
Proof.
unfold PyStr.word_boundary, Spec.word_char.
destruct (match before with Some c => PyStr.isword c | None => false end),
         (match after with Some c => PyStr.isword c | None => false end);
  simpl; split; congruence.
Qed.

(** The flag the resolver records is the word-boundary occurrence of the
    phrase in the text. *)
Lemma boundary_match_occurrence search_text pattern :
  _is_word_boundary_match search_text pattern = true
  <-> Spec.at_word_boundary search_text pattern.
Proof.
unfold _is_word_boundary_match, Spec.at_word_boundary.
rewrite search_bounded_occurrence. split.
- intros [a [b [H1 [H2 H3]]]]. exists a, b.
  rewrite <- !word_boundary_sides. auto.
- intros [a [b [H1 [H2 H3]]]]. exists a, b.
  rewrite !word_boundary_sides. auto.
Qed.

(** X19: what a word-boundary match is: [_is_word_boundary_match] answers
    [True] exactly when the pattern occurs in the text at a place where a
    word boundary lies just before the occurrence and just after it, a word
    boundary being a place with a word character on one side only (the ends
    of the text count as no word character). *)
Theorem X19_word_boundary_match_is_a_bounded_occurrence :
  forall search_text pattern,
    _is_word_boundary_match search_text pattern = true <->
    exists a b,
      search_text = a ++ pattern ++ b
      /\ PyStr.word_boundary (PyStr.last_char None a)
           (PyStr.head (pattern ++ b)) = true
      /\ PyStr.word_boundary (PyStr.last_char None (a ++ pattern))
           (PyStr.head b) = true.
Proof.
intros search_text pattern. apply search_bounded_occurrence.
Qed.

End BoundaryFacts.

Section ResolverFacts.

Import Py CommandManager Spec Examples.

Lemma key_lt_irrefl k : key_lt k k = false.
Proof.
destruct k as [[b z] s]. unfold key_lt.
rewrite Bool.eqb_reflx, Z.eqb_refl. simpl. apply str_ltb_irrefl.
Qed.

Lemma str_ltb_asym a b : String.ltb a b = true -> String.ltb b a = false.
Proof.
unfold String.ltb. rewrite (String.compare_antisym a b).
destruct (String.compare b a); simpl; auto; discriminate.
Qed.

Lemma key_lt_asym k1 k2 : key_lt k1 k2 = true -> key_lt k2 k1 = false.
Proof.
destruct k1 as [[b1 z1] s1], k2 as [[b2 z2] s2]. unfold key_lt, bool_lt.
destruct b1, b2; simpl; try discriminate; try reflexivity;
  destruct (Z.eqb_spec z1 z2), (Z.eqb_spec z2 z1); simpl;
  try lia; try apply str_ltb_asym;
  rewrite Z.ltb_lt, Z.ltb_ge; lia.
Qed.

Lemma key_lt_negtrans c y x :
  key_lt c y = false -> key_lt y x = false -> key_lt c x = false.
Proof.
destruct c as [[b1 z1] s1], y as [[b2 z2] s2], x as [[b3 z3] s3].
unfold key_lt, bool_lt.
destruct b1, b2, b3; simpl; try discriminate; try reflexivity;
  destruct (Z.eqb_spec z1 z2), (Z.eqb_spec z2 z3), (Z.eqb_spec z1 z3); simpl;
  try lia; try apply str_ltb_negtrans;
  rewrite ?Z.ltb_ge, ?Z.ltb_lt; try lia; intros; try discriminate; try lia.
Qed.

Lemma insert_in x l c : In c (insert x l) <-> c = x \/ In c l.
Proof.
induction l as [|y l IH]; cbn [insert].
- simpl.
  split; [intros [H|[]]; left; congruence | intros [H|[]]; left; congruence].
- destruct (key_lt (sort_key y) (sort_key x)); cbn [In]; rewrite ?IH.
  + tauto.
  + split; [intros [H|H]; [left; congruence | now right]
           | intros [H|H]; [left; congruence | now right]].
Qed.

Lemma sort_in l c : In c (sort l) <-> In c l.
Proof.
induction l as [|x l IH]; simpl; [tauto|].
rewrite insert_in, IH.
split; (intros [H|H]; [left; congruence | now right]).
Qed.

(** The first element of the sorted list is one of the candidates, and no
    candidate has a strictly smaller key. *)
Lemma sort_head_min l best rest :
  sort l = best :: rest ->
  In best l
  /\ forall c, In c l -> key_lt (sort_key c) (sort_key best) = false.
Proof.
revert best rest. induction l as [|x l IH]; intros best rest; cbn [sort];
  [discriminate|].
destruct (sort l) as [|y s'] eqn:E; cbn [insert].
- intros H. inversion H; subst. split; [now left|].
  assert (Hl : l = []).
  { destruct l as [|z l']; [reflexivity|].
    assert (Hz : In z (sort (z :: l'))) by (apply sort_in; now left).
    rewrite E in Hz. contradiction. }
  subst l. intros c [<-|[]]. apply key_lt_irrefl.
- destruct (IH y s' eq_refl) as [Hy Hmin].
  destruct (key_lt (sort_key y) (sort_key x)) eqn:Eyx; intros H;
    inversion H; subst.
  + split; [now right|]. intros c [<-|Hc]; [now apply key_lt_asym | auto].
  + split; [now left|]. intros c [<-|Hc]; [apply key_lt_irrefl|].
    eapply key_lt_negtrans; eauto.
Qed.

Lemma key_lt_false_ranks best c :
  key_lt (sort_key c) (sort_key best) = false -> ranks_no_later best c.
Proof.
unfold key_lt, sort_key, bool_lt, ranks_no_later.
destruct (is_word_boundary c), (is_word_boundary best); simpl;
  try discriminate; auto;
  (destruct (Z.eqb_spec (- Z.of_nat (match_length c))
               (- Z.of_nat (match_length best))); simpl;
   [ intros H; right; split; [reflexivity|]; right; split; [lia|];
     now apply str_ltb_false_leb
   | rewrite Z.ltb_ge; intros H; right; split; [reflexivity|]; left; lia ]).
Qed.

Lemma scan_phrases_spec desc vt phrases :
  forallb is_str phrases = true ->
  forall matches,
  exists new,
    scan_phrases desc vt (comparison_text vt) phrases matches
    = Some (matches ++ new)%list
    /\ forall c,
         In c new <->
         exists p, In (PStr p) phrases
                   /\ PyStr.contains (PyStr.lower p) (comparison_text vt) = true
                   /\ c = candidate_for desc vt p.
Proof.
induction phrases as [|v phrases IH]; intros Hstr matches.
- exists []. simpl. rewrite app_nil_r. split; [reflexivity|].
  intros c. split; [tauto | intros [p [[] _]]].
- simpl in Hstr. apply andb_true_iff in Hstr. destruct Hstr as [Hv Hr].
  destruct v as [| | | p0 | |]; try discriminate. cbn [scan_phrases].
  destruct (PyStr.contains (PyStr.lower p0) (comparison_text vt)) eqn:Ec.
  + destruct (IH Hr (matches ++ [candidate_for desc vt p0])%list) as [new [H1 H2]].
    exists (candidate_for desc vt p0 :: new). split.
    * unfold candidate_for in H1 at 1. rewrite H1, <- app_assoc. reflexivity.
    * intros c. simpl. rewrite H2. split.
      -- intros [<-|[p [Hp Hq]]]; [exists p0 | exists p]; auto.
      -- intros [p [[Hp|Hp] [Hq ->]]]; [inversion Hp; now left|].
         right. exists p. auto.
  + destruct (IH Hr matches) as [new [H1 H2]].
    exists new. split; [exact H1|].
    intros c. rewrite H2. split.
    * intros [p [Hp Hq]]. exists p. simpl. auto.
    * intros [p [[Hp|Hp] [Hq ->]]].
      -- inversion Hp; subst. congruence.
      -- exists p. auto.
Qed.

Lemma resolvable_tail entry commands :
  resolvable (entry :: commands) -> resolvable commands.
Proof. intros H o cmd Hin. apply (H o cmd). now right. Qed.

Lemma scan_commands_spec vt commands :
  resolvable commands ->
  forall matches,
  exists new,
    scan_commands vt (comparison_text vt) commands matches
    = Some (matches ++ new)%list
    /\ forall c, In c new <-> is_candidate commands vt c.
Proof.
induction commands as [|[desc cmd] commands IH]; intros Hres matches.
- exists []. simpl. rewrite app_nil_r. split; [reflexivity|].
  intros c. split; [tauto | intros [o [d [p [[] _]]]]].
- destruct (Hres desc cmd (or_introl eq_refl)) as [d [items [-> [Hit Hstr]]]].
  cbn [scan_commands]. rewrite Hit.
  destruct (scan_phrases_spec desc vt items Hstr matches) as [new1 [H1 H2]].
  rewrite H1.
  destruct (IH (resolvable_tail _ _ Hres) (matches ++ new1)%list) as [new2 [H3 H4]].
  exists (new1 ++ new2)%list. split; [rewrite H3, <- app_assoc; reflexivity|].
  intros c. rewrite in_app_iff, H2, H4. split.
  + intros [[p [Hp [Hq ->]]]|[o [d' [p [Ho Hp]]]]].
    * exists desc, d, p. repeat split; auto; [now left|].
      unfold phrase_list. now rewrite Hit.
    * exists o, d', p. destruct Hp as [Hp [Hq ->]].
      repeat split; auto. now right.
  + intros [o [d' [p [[Ho|Ho] [Hp [Hq ->]]]]]].
    * inversion Ho; subst. left. exists p. repeat split; auto.
      unfold phrase_list in Hp. now rewrite Hit in Hp.
    * right. exists o, d', p. auto.
Qed.

Lemma best_candidate_result commands voice_text :
  resolvable commands ->
  (exists c, is_candidate commands voice_text c) ->
  exists best,
    is_candidate commands voice_text best
    /\ (forall c, is_candidate commands voice_text c -> ranks_no_later best c)
    /\ parse_voice_command commands voice_text
       = Some (Some (description best), pattern best,
               PyStr.strip
                 (PyStr.replace_with_empty (pattern best) voice_text)).
Proof.
intros Hres [c0 Hc0].
destruct (scan_commands_spec voice_text commands Hres []) as [new [H1 H2]].
simpl in H1. unfold parse_voice_command.
fold (comparison_text voice_text). rewrite H1.
destruct (sort new) as [|best rest] eqn:Es.
- exfalso. assert (H : In c0 (sort new)) by (apply sort_in, H2, Hc0).
  rewrite Es in H. contradiction.
- destruct (sort_head_min new best rest Es) as [Hin Hmin].
  exists best. split; [now apply H2|]. split; [|reflexivity].
  intros c Hc. apply key_lt_false_ranks, Hmin, H2, Hc.
Qed.

Lemma candidate_is_match commands voice_text c :
  is_candidate commands voice_text c <->
  exists desc p,
    is_match commands voice_text desc p /\ c = candidate_for desc voice_text p.
Proof.
unfold is_candidate, is_match. split.
- intros [desc [d [p [H1 [H2 [H3 H4]]]]]]. exists desc, p. eauto.
- intros [desc [p [[d [H1 [H2 H3]]] H4]]]. exists desc, d, p. auto.
Qed.

(** The rank of the recorded candidates is the order of step 4 on the
    matches they record. *)
Lemma ranks_comes_no_later voice_text desc1 p1 desc2 p2 :
  ranks_no_later (candidate_for desc1 voice_text p1)
                 (candidate_for desc2 voice_text p2) ->
  comes_no_later (comparison_text voice_text) desc1 p1 desc2 p2.
Proof.
unfold ranks_no_later, comes_no_later, candidate_for.
cbn [is_word_boundary match_length description].
intros [[H1 H2] | [H1 H2]].
- left. split.
  + now apply boundary_match_occurrence.
  + intros H. apply boundary_match_occurrence in H. congruence.
- right. split; [|exact H2].
  rewrite <- !boundary_match_occurrence. now rewrite H1.
Qed.

(** C4, as amended: the resolver's tie-break order. For every command map
    the resolver can scan and every input text for which at least one phrase
    matches (its lower-cased form is a substring of the trimmed, lower-cased
    text), resolution returns the description and the phrase of a match that
    comes no later than every match in the order: a phrase that occurs in
    the comparison text at word boundaries before one that does not, among
    ties the longer lower-cased phrase, among remaining ties the description
    that is first in lexicographic order. *)
Theorem C4_resolver_tie_break :
  forall commands voice_text,
    resolvable commands ->
    (exists desc p, is_match commands voice_text desc p) ->
    exists desc p,
      parse_voice_command commands voice_text
      = Some (Some desc, p,
              PyStr.strip (PyStr.replace_with_empty p voice_text))
      /\ is_match commands voice_text desc p
      /\ forall desc' p',
           is_match commands voice_text desc' p' ->
           comes_no_later (comparison_text voice_text) desc p desc' p'.
Proof.
intros commands vt Hres [desc0 [p0 Hm0]].
destruct (best_candidate_result commands vt Hres) as [best [Hb [Hmin Hres']]].
{ exists (candidate_for desc0 vt p0). apply candidate_is_match. eauto. }
apply candidate_is_match in Hb. destruct Hb as [desc [p [Hm ->]]].
exists desc, p. split; [exact Hres'|]. split; [exact Hm|].
intros desc' p' Hm'. apply ranks_comes_no_later, Hmin.
apply candidate_is_match. eauto.
Qed.

Lemma C4_resolver_tie_break_witness :
  exists desc p,
    parse_voice_command browser_commands "please open browser now"
    = Some (Some desc, p,
            PyStr.strip
              (PyStr.replace_with_empty p "please open browser now"))
    /\ is_match browser_commands "please open browser now" desc p
    /\ forall desc' p',
         is_match browser_commands "please open browser now" desc' p' ->
         comes_no_later (comparison_text "please open browser now")
           desc p desc' p'.
Proof.
apply (C4_resolver_tie_break browser_commands "please open browser now").
- intros o cmd [H|[H|[]]]; inversion H; subst;
    eexists _, _; (split; [reflexivity | split; reflexivity]).
- exists "B", "browser".
  exists [("Phrases", PList [PStr "browser"]); ("Action", PStr "browser");
          ("Command", PStr "https://example.org")].
  repeat split; [right; left; reflexivity | left; reflexivity].
Defined.

(** C4, as stated, fails for a phrase that is a case-insensitive substring
    of the text but not of the trimmed text: the phrase ["go "] occurs in the
    text ["go "], and resolution returns no match. *)
Lemma C4_match_in_untrimmed_text_is_no_match :
  PyStr.contains (PyStr.lower "go ") (PyStr.lower "go ") = true
  /\ parse_voice_command trailing_space_commands "go "
     = Some (None, "", "go ").
Proof. split; reflexivity. Qed.

(** [replace] removes the first occurrence and goes on with what follows
    it. *)
Lemma replace_first_occurrence p a b :
  p <> "" -> no_start_within p a (p ++ b) ->
  PyStr.replace_with_empty p (a ++ p ++ b)
  = a ++ PyStr.replace_with_empty p b.
Proof.
intros Hp. induction a as [|c a IH]; intros Hno.
- simpl. now apply replace_at_occurrence.
- change (String c a ++ p ++ b) with (String c (a ++ p ++ b)).
  rewrite replace_keeps_char.
  + simpl. f_equal. apply IH. intros a1 c' a2 Ha.
    apply (Hno (String c a1) c' a2). simpl. now rewrite Ha.
  + apply (Hno "" c a). reflexivity.
Qed.

(** C5, as amended: the remainder returned with a match is the original-cased
    input text with every occurrence of the winning phrase removed, scanning
    from the left without overlap, and the result trimmed at both ends: the
    text up to the first occurrence is kept, the occurrence is dropped, and
    removal goes on in what follows; a phrase that does not literally occur
    leaves the trimmed text. *)
Theorem C5_remainder_removes_every_occurrence :
  forall commands voice_text desc p remainder,
    parse_voice_command commands voice_text = Some (Some desc, p, remainder) ->
    remainder = PyStr.strip (PyStr.replace_with_empty p voice_text)
    /\ (PyStr.contains p voice_text = false ->
        remainder = PyStr.strip voice_text)
    /\ (forall a b,
          p <> "" -> voice_text = a ++ p ++ b ->
          no_start_within p a (p ++ b) ->
          remainder = PyStr.strip (a ++ PyStr.replace_with_empty p b)).
Proof.
intros commands vt desc p remainder H.
unfold parse_voice_command in H.
destruct (scan_commands vt (PyStr.strip (PyStr.lower vt)) commands [])
  as [matches|]; [|discriminate].
destruct (sort matches) as [|best rest]; inversion H; subst.
split; [reflexivity|]. split.
- intros Hc. now rewrite replace_absent.
- intros a b Hp -> Hno. now rewrite replace_first_occurrence.
Qed.

Lemma C5_remainder_removes_every_occurrence_witness :
  "please  now"
  = PyStr.strip
      (PyStr.replace_with_empty "open browser" "please open browser now").
Proof.
apply (C5_remainder_removes_every_occurrence browser_commands
         "please open browser now" "A" "open browser" "please  now").
reflexivity.
Defined.

(** C5, as stated, fails: in its own example the remainder keeps the two
    spaces that surrounded the phrase, and where the phrase occurs twice both
    occurrences are removed, not the first only. *)
Lemma C5_remainder_differs_from_first_occurrence :
  parse_voice_command browser_commands "please open browser now"
  = Some (Some "A", "open browser", "please  now")
  /\ "please  now" <> "please now"
  /\ parse_voice_command go_commands "go go home"
     = Some (Some "G", "go", "home")
  /\ PyStr.strip (spec_remove_first "go" "go go home") = "go home".
Proof. repeat split; try reflexivity. discriminate. Qed.

(** C6: no match. For every command map the resolver can scan and every input
    text in which no phrase of any command occurs as a case-insensitive
    substring, resolution returns no description, the empty matched phrase
    and, as the remainder, the input text as it was given. *)
Theorem C6_no_match_returns_text :
  forall commands voice_text,
    resolvable commands ->
    (forall desc d p,
       In (desc, PDict d) commands ->
       In (PStr p) (phrase_list (get_or "Phrases" (PList []) d)) ->
       PyStr.contains (PyStr.lower p) (PyStr.lower voice_text) = false) ->
    parse_voice_command commands voice_text = Some (None, "", voice_text).
Proof.
intros commands vt Hres Hno.
destruct (scan_commands_spec vt commands Hres []) as [new [H1 H2]].
simpl in H1. unfold parse_voice_command.
fold (comparison_text vt). rewrite H1.
destruct new as [|c new]; [reflexivity|]. exfalso.
destruct (proj1 (H2 c) (or_introl eq_refl)) as [desc [d [p [Hd [Hp [Hc _]]]]]].
apply contains_strip in Hc. rewrite (Hno desc d p Hd Hp) in Hc. discriminate.
Qed.

Lemma C6_no_match_returns_text_witness :
  parse_voice_command browser_commands "  What time is it  "
  = Some (None, "", "  What time is it  ").
Proof.
apply (C6_no_match_returns_text browser_commands "  What time is it  ").
- intros o cmd [H|[H|[]]]; inversion H; subst;
    eexists _, _; (split; [reflexivity | split; reflexivity]).
- intros desc d p [H|[H|[]]] Hp; inversion H; subst;
    vm_compute in Hp; destruct Hp as [Hp|[]]; inversion Hp; reflexivity.
Defined.

End ResolverFacts.

Section SnapshotFacts.

Import Py Heap Spec Examples.

#[local] Open Scope list_scope.

Lemma read_old h e a : a < length h -> read (h ++ e) a = read h a.
Proof. intros H. unfold read. now apply nth_error_app1. Qed.

Lemma read_fresh h o : read (h ++ [o]) (length h) = Some o.
Proof.
unfold read. rewrite nth_error_app2 by lia. now rewrite Nat.sub_diag.
Qed.

Lemma read_some_bound h a o : read h a = Some o -> a < length h.
Proof. intros H. apply nth_error_Some. unfold read in H. congruence. Qed.

Lemma write_at_end h o o' : write (h ++ [o]) (length h) o' = (h ++ [o'])%list.
Proof. induction h as [|x h IH]; simpl; [reflexivity | now rewrite IH]. Qed.

(** Objects added to a closed heap do not change what its values denote. *)
Lemma reify_ext fuel h e v :
  closed h -> bounded (length h) v -> reify fuel (h ++ e) v = reify fuel h v.
Proof.
intros Hc. revert v. induction fuel as [|n IH]; intros v Hb;
  destruct v as [| | | |a]; try reflexivity.
simpl in Hb. cbn [reify]. rewrite (read_old h e a Hb).
destruct (read h a) as [o|] eqn:Er; [|reflexivity].
destruct o as [d|l].
- f_equal. apply map_ext_in. intros [k v] Hin. simpl. f_equal.
  apply IH. apply (Hc a (ODict d) v Er). simpl.
  apply (in_map snd) in Hin. exact Hin.
- f_equal. apply map_ext_in. intros v Hin.
  apply IH. apply (Hc a (OList l) v Er). exact Hin.
Qed.

Lemma reify_fresh fuel h e o :
  closed h -> (forall v, In v (obj_values o) -> bounded (length h) v) ->
  reify fuel ((h ++ e) ++ [o]) (HRef (length (h ++ e)))
  = reify fuel (h ++ [o]) (HRef (length h)).
Proof.
intros Hc Ho. destruct fuel as [|n]; [reflexivity|].
cbn [reify]. rewrite !read_fresh. destruct o as [d|l].
- f_equal. apply map_ext_in. intros [k v] Hin. simpl. f_equal.
  rewrite <- app_assoc, !reify_ext; auto;
    apply Ho; simpl; apply (in_map snd) in Hin; exact Hin.
- f_equal. apply map_ext_in. intros v Hin.
  rewrite <- app_assoc, !reify_ext; auto.
Qed.

(** A copy taken in an extended heap shows what a copy taken in the heap
    itself shows. *)
Lemma copy_ext fuel h e v :
  closed h -> bounded (length h) v ->
  view fuel (copy (h ++ e) v) = view fuel (copy h v).
Proof.
intros Hc Hb. destruct v as [| | | |a]; try reflexivity.
simpl in Hb. unfold copy. rewrite (read_old h e a Hb).
destruct (read h a) as [o|] eqn:Er; [|reflexivity].
unfold alloc, view. f_equal. apply reify_fresh; [exact Hc|].
intros v Hv. apply (Hc a o v Er Hv).
Qed.

Lemma get_all_commands_ext fuel h e cm d :
  closed h -> read h cm = Some (ODict d) ->
  view fuel (get_all_commands (h ++ e) cm) = view fuel (get_all_commands h cm).
Proof.
intros Hc Hr. unfold get_all_commands. apply copy_ext; [exact Hc|].
simpl. eapply read_some_bound; eauto.
Qed.

Lemma get_command_ext fuel h e cm d description :
  closed h -> read h cm = Some (ODict d) ->
  view fuel (get_command (h ++ e) cm description)
  = view fuel (get_command h cm description).
Proof.
intros Hc Hr. unfold get_command.
rewrite (read_old h e cm (read_some_bound h cm _ Hr)), Hr.
destruct (dict_get description d) as [v|] eqn:Ev;
  [|destruct fuel; reflexivity].
apply copy_ext; [exact Hc|].
apply (Hc cm (ODict d) v Hr). simpl.
apply dict_get_in in Ev. apply (in_map snd) in Ev. exact Ev.
Qed.

Lemma copy_result h v h1 a :
  copy h v = Some (h1, HRef a) ->
  exists o, h1 = (h ++ [o])%list /\ a = length h.
Proof.
unfold copy, alloc. destruct v as [| | | |r]; try discriminate.
destruct (read h r) as [o|]; [|discriminate].
intros H. inversion H. exists o. split; reflexivity.
Qed.

(** C9, as amended: [get_command] and [get_all_commands] return shallow
    copies. For every closed heap and command map, whatever is written to
    the object a call returned (entries of the returned map, or fields of the
    returned record, added, removed or rebound) does not change what any
    later [get_command] or [get_all_commands] call shows. (The objects inside
    the returned one, the records of the map and each [Phrases] list, are the
    store's own.) *)
Theorem C9_snapshots_are_shallow_copies :
  forall h cm d asked h1 a o' description fuel,
    closed h -> read h cm = Some (ODict d) ->
    get_all_commands h cm = Some (h1, HRef a)
    \/ get_command h cm asked = Some (h1, HRef a) ->
    let h2 := write h1 a o' in
    view fuel (get_command h2 cm description)
    = view fuel (get_command h1 cm description)
    /\ view fuel (get_all_commands h2 cm) = view fuel (get_all_commands h1 cm).
Proof.
intros h cm d asked h1 a o' description fuel Hc Hr Hsnap h2.
assert (Hshape : exists o, h1 = (h ++ [o])%list /\ a = length h).
{ destruct Hsnap as [H|H].
  - unfold get_all_commands in H. eapply copy_result; exact H.
  - unfold get_command in H. rewrite Hr in H.
    destruct (dict_get asked d) as [v|]; [|discriminate].
    eapply copy_result; exact H. }
destruct Hshape as [o [-> ->]]. subst h2. rewrite write_at_end.
rewrite !(get_command_ext fuel h _ cm d), !(get_all_commands_ext fuel h _ cm d)
  by assumption.
split; reflexivity.
Qed.

Lemma go_heap_closed : closed go_heap.
Proof.
intros a o v Hr Hin. unfold read, go_heap in Hr.
destruct a as [|[|[|a]]]; simpl in Hr;
  try (destruct a; discriminate); inversion Hr; subst; simpl in Hin;
  repeat (destruct Hin as [Hin|Hin]; [subst v; simpl; try lia; exact I|]);
  contradiction.
Qed.

Lemma C9_snapshots_are_shallow_copies_witness :
  view 3 (get_command (write (go_heap ++ [ODict [("X", HRef 1)]]) 3 (ODict []))
            0 "X")
  = view 3 (get_command (go_heap ++ [ODict [("X", HRef 1)]]) 0 "X").
Proof.
apply (C9_snapshots_are_shallow_copies go_heap 0 [("X", HRef 1)] "X"
         (go_heap ++ [ODict [("X", HRef 1)]])%list 3 (ODict []) "X" 3).
- exact go_heap_closed.
- reflexivity.
- left. reflexivity.
Defined.

(** C9, as stated, fails for nested objects: a phrase appended to the
    [Phrases] list reached through a returned map, or through a returned
    record, is in the store, is shown by the next [get_command], and changes
    how a later snapshot resolves a text. *)
Lemma C9_nested_objects_are_shared :
  later_get_command (Some go_heap) 0 "X"
  = Some (record ["go"] "keys" "ctrl+g")
  /\ later_get_command (append_through_snapshot go_heap 0) 0 "X"
     = Some (record ["go"; "stop"] "keys" "ctrl+g")
  /\ later_get_command (append_through_record go_heap 0) 0 "X"
     = Some (record ["go"; "stop"] "keys" "ctrl+g")
  /\ CommandManager.parse_voice_command (snapshot_value (Some go_heap) 0) "stop"
     = Some (None, "", "stop")
  /\ CommandManager.parse_voice_command
       (snapshot_value (append_through_record go_heap 0) 0) "stop"
     = Some (Some "X", "stop", "").
Proof. repeat split; reflexivity. Qed.

End SnapshotFacts.

Section TextFacts.

Lemma str_length_app a b :
  String.length (a ++ b) = String.length a + String.length b.
Proof. induction a as [|c a IH]; simpl; [reflexivity | now rewrite IH]. Qed.

Lemma take_length n s :
  String.length (PyText.take n s) = Nat.min n (String.length s).
Proof.
revert s. induction n as [|n IH]; intros [|c s]; simpl; auto.
Qed.

Lemma take_starts n s : Props.starts (PyText.take n s) s.
Proof.
revert s. induction n as [|n IH]; intros s.
- exists s. reflexivity.
- destruct s as [|c s]; [exists ""; reflexivity|].
  destruct (IH s) as [rest Hr]. exists rest. simpl. now rewrite <- Hr.
Qed.

Lemma slice_to_starts k s : Props.starts (PyText.slice_to k s) s.
Proof. unfold PyText.slice_to. destruct (0 <=? k)%Z; apply take_starts. Qed.

Lemma split_nonempty sep s : PyText.split sep s <> [].
Proof.
destruct s as [|c s]; simpl; [discriminate|].
destruct (Ascii.eqb c sep); [discriminate|].
destruct (PyText.split sep s); discriminate.
Qed.

Lemma all_chars_lstrip f g s :
  PyText.all_chars f s = true -> PyText.all_chars f (PyText.lstrip_by g s) = true.
Proof.
induction s as [|c s IH]; [auto|]. cbn [PyText.lstrip_by].
destruct (g c); [|auto]. simpl. intros H. apply andb_true_iff in H. tauto.
Qed.

Lemma all_chars_rstrip f g s :
  PyText.all_chars f s = true -> PyText.all_chars f (PyText.rstrip_by g s) = true.
Proof.
induction s as [|c s IH]; [auto|]. cbn [PyText.rstrip_by].
intros H. cbn [PyText.all_chars] in H.
apply andb_true_iff in H. destruct H as [Hc Hs].
specialize (IH Hs). destruct (PyText.rstrip_by g s) as [|c' r].
- destruct (g c); simpl; [reflexivity | now rewrite Hc].
- change (f c && PyText.all_chars f (String c' r) = true).
  now rewrite Hc, IH.
Qed.

Lemma lstrip_head f s :
  match PyStr.head (PyText.lstrip_by f s) with
  | Some c => f c = false
  | None => True
  end.
Proof.
induction s as [|c s IH]; simpl; [exact I|].
destruct (f c) eqn:E; [exact IH | simpl; exact E].
Qed.

Lemma rstrip_head f s :
  match PyStr.head s with Some c => f c = false | None => True end ->
  PyStr.head (PyText.rstrip_by f s) = PyStr.head s.
Proof.
destruct s as [|c s]; [reflexivity|]. cbn [PyText.rstrip_by PyStr.head].
intros Hc. destruct (PyText.rstrip_by f s); [now rewrite Hc | reflexivity].
Qed.

Lemma rstrip_last f s :
  match PyStr.last_char None (PyText.rstrip_by f s) with
  | Some c => f c = false
  | None => True
  end.
Proof.
induction s as [|c s IH]; [exact I|]. cbn [PyText.rstrip_by].
destruct (PyText.rstrip_by f s) as [|c' r] eqn:E.
- destruct (f c) eqn:Ec; simpl; [exact I | exact Ec].
- exact IH.
Qed.

Lemma lstrip_fixed f s :
  match PyStr.head s with Some c => f c = false | None => True end ->
  PyText.lstrip_by f s = s.
Proof. destruct s as [|c s]; simpl; [reflexivity|]. now intros ->. Qed.

Lemma rstrip_fixed f s :
  match PyStr.last_char None s with Some c => f c = false | None => True end ->
  PyText.rstrip_by f s = s.
Proof.
induction s as [|c s IH]; [reflexivity|]. cbn [PyText.rstrip_by PyStr.last_char].
destruct s as [|c' s'].
- simpl. now intros ->.
- intros H. rewrite IH; [reflexivity|].
  cbn [PyStr.last_char] in *. clear IH.
  revert c' H. induction s' as [|c2 s2 IH2]; intros c' H; simpl in *; auto.
Qed.

Lemma map_chars_fixed f s :
  PyText.all_chars (fun c => Ascii.eqb (f c) c) s = true ->
  PyText.map_chars f s = s.
Proof.
induction s as [|c s IH]; simpl; [reflexivity|].
intros H. apply andb_true_iff in H. destruct H as [Hc Hs].
apply Ascii.eqb_eq in Hc. now rewrite Hc, IH.
Qed.

Lemma all_chars_imp (f g : ascii -> bool) s :
  (forall c, f c = true -> g c = true) ->
  PyText.all_chars f s = true -> PyText.all_chars g s = true.
Proof.
intros Hfg. induction s as [|c s IH]; simpl; [reflexivity|].
intros H. apply andb_true_iff in H. destruct H as [Hc Hs].
now rewrite (Hfg c Hc), IH.
Qed.

End TextFacts.

Section StringUtilsFacts.

Import StringUtils Props.

(** X1: [truncate_string] keeps a text that fits; when the text is too long
    and the suffix fits, the result is an initial part of the text followed
    by the suffix and is exactly [max_length] long; when the suffix is longer
    than [max_length] the result is longer than [max_length]. So the result
    is within [max_length] exactly when the text or the suffix is. *)
Theorem X1_truncate_string_length :
  forall text max_length suffix,
    let n := Z.of_nat (String.length text) in
    let ls := Z.of_nat (String.length suffix) in
    let r := truncate_string text max_length suffix in
    ((n <= max_length)%Z -> r = text)
    /\ ((max_length < n)%Z ->
        exists kept, r = kept ++ suffix /\ starts kept text)
    /\ ((max_length < n)%Z -> (ls <= max_length)%Z ->
        Z.of_nat (String.length r) = max_length)
    /\ ((Z.of_nat (String.length r) <= max_length)%Z
        <-> (n <= max_length)%Z \/ (ls <= max_length)%Z).
Proof.
intros text max_length suffix n ls r. subst r. unfold truncate_string.
fold n. fold ls.
assert (Hlen : (max_length < n)%Z ->
          Z.of_nat (String.length
                      (PyText.slice_to (max_length - ls) text ++ suffix))
          = (if (0 <=? max_length - ls)%Z then max_length
             else Z.max (n + (max_length - ls)) 0 + ls)%Z).
{ intros Hlt. rewrite str_length_app. unfold PyText.slice_to.
  destruct (Z.leb_spec 0 (max_length - ls)) as [Hk|Hk];
    rewrite take_length; subst n ls; lia. }
destruct (Z.leb_spec n max_length) as [Hfit|Hlong].
- repeat split; try lia; auto.
- split; [lia|]. split; [|split].
  + intros _. eexists. split; [reflexivity | apply slice_to_starts].
  + intros _ Hs. rewrite (Hlen Hlong).
    destruct (Z.leb_spec 0 (max_length - ls)); lia.
  + rewrite (Hlen Hlong).
    destruct (Z.leb_spec 0 (max_length - ls)); subst n ls; lia.
Qed.

Lemma invalid_replaced c :
  invalid_char (if invalid_char c then underscore else c) = false.
Proof. destruct (invalid_char c) eqn:E; [reflexivity | exact E]. Qed.

Lemma map_chars_valid s :
  PyText.all_chars (fun c => negb (invalid_char c))
    (PyText.map_chars (fun c => if invalid_char c then underscore else c) s)
  = true.
Proof.
induction s as [|c s IH]; simpl; [reflexivity|].
now rewrite invalid_replaced, IH.
Qed.

(** The string [sanitize_filename] has before the fallback to ["unnamed"]. *)
Lemma stripped_clean filename :
  let y :=
    PyText.strip_by dot_or_space
      (PyText.map_chars (fun c => if invalid_char c then underscore else c)
         filename) in
  PyText.all_chars (fun c => negb (invalid_char c)) y = true
  /\ match PyStr.head y with Some c => dot_or_space c = false | None => True end
  /\ match PyStr.last_char None y with
     | Some c => dot_or_space c = false
     | None => True
     end.
Proof.
intros y. subst y. unfold PyText.strip_by. split; [|split].
- apply all_chars_rstrip, all_chars_lstrip, map_chars_valid.
- pose proof (lstrip_head dot_or_space
                (PyText.map_chars
                   (fun c => if invalid_char c then underscore else c)
                   filename)) as Hh.
  destruct (PyStr.head (PyText.rstrip_by dot_or_space _)) as [c|] eqn:E;
    [|exact I].
  assert (Hsome : PyStr.head
                    (PyText.lstrip_by dot_or_space
                       (PyText.map_chars
                          (fun c => if invalid_char c then underscore else c)
                          filename)) = Some c).
  { rewrite <- (rstrip_head dot_or_space _ Hh). exact E. }
  now rewrite Hsome in Hh.
- apply rstrip_last.
Qed.

(** X2: [sanitize_filename] never returns the empty string, its result has
    none of the nine characters the pattern replaces, and it neither starts
    nor ends with a dot or a space. *)
Theorem X2_sanitize_filename_clean :
  forall filename,
    let r := sanitize_filename filename in
    r <> ""
    /\ PyText.all_chars (fun c => negb (invalid_char c)) r = true
    /\ match PyStr.head r with Some c => dot_or_space c = false | None => False end
    /\ match PyStr.last_char None r with
       | Some c => dot_or_space c = false
       | None => False
       end.
Proof.
intros filename r. subst r. unfold sanitize_filename.
destruct (stripped_clean filename) as [H1 [H2 H3]].
destruct (PyText.strip_by dot_or_space _) as [|c y] eqn:E.
- repeat split; try reflexivity. discriminate.
- split; [discriminate|]. split; [exact H1|]. split; [exact H2|].
  destruct (PyStr.last_char None (String c y)) eqn:El; [exact H3|].
  exfalso. clear -El. cbn [PyStr.last_char] in El.
  revert c El. induction y as [|c' y IH]; intros c El; [discriminate|].
  exact (IH c' El).
Qed.

(** X3: [sanitize_filename] is idempotent: a sanitized name is left as it
    is. *)
Theorem X3_sanitize_filename_idempotent :
  forall filename,
    sanitize_filename (sanitize_filename filename) = sanitize_filename filename.
Proof.
intros filename.
destruct (stripped_clean filename) as [H1 [H2 H3]].
unfold sanitize_filename at 2 3.
destruct (PyText.strip_by dot_or_space _) as [|c y] eqn:E; [reflexivity|].
unfold sanitize_filename.
rewrite (map_chars_fixed _ (String c y)).
- unfold PyText.strip_by.
  rewrite (lstrip_fixed dot_or_space (String c y) H2).
  now rewrite (rstrip_fixed dot_or_space (String c y) H3).
- revert H1. apply all_chars_imp. intros a Ha.
  apply negb_true_iff in Ha. rewrite Ha. apply Ascii.eqb_refl.
Qed.

End StringUtilsFacts.

Section ConfigUtilsFacts.

Import Py ConfigUtils Props.

#[local] Open Scope list_scope.

Lemma set_path_walk keys value current current' :
  set_path keys value current = Some current' ->
  walk keys current' = Some value.
Proof.
revert current current'. induction keys as [|key rest IH];
  intros current current'; [discriminate|].
cbn [set_path]. destruct rest as [|key2 rest].
- destruct current as [| | | | |d]; try discriminate.
  intros H. inversion H. simpl. now rewrite dict_get_set_same.
- destruct current as [| | | | |d]; try discriminate.
  destruct (set_path (key2 :: rest) value _) as [child'|] eqn:E;
    [|discriminate].
  intros H. inversion H. cbn [walk subscript].
  rewrite dict_get_set_same. eapply IH; eauto.
Qed.

Lemma set_path_top keys value current current' :
  set_path keys value current = Some current' ->
  exists key rest d child,
    keys = key :: rest /\ current = PDict d
    /\ current' = PDict (dict_set key child d).
Proof.
destruct keys as [|key rest]; [discriminate|]. cbn [set_path].
destruct rest as [|key2 rest].
- destruct current as [| | | | |d]; try discriminate.
  intros H. inversion H. exists key, [], d, value. auto.
- destruct current as [| | | | |d]; try discriminate.
  destruct (set_path (key2 :: rest) value _) as [child'|]; [|discriminate].
  intros H. inversion H. exists key, (key2 :: rest), d, child'. auto.
Qed.

(** X4: a value stored by [set_nested_value] is what [get_nested_value]
    returns for the same path, whatever the default. *)
Theorem X4_set_then_get_nested_value :
  forall data key_path value data' default,
    set_nested_value data key_path value = Some data' ->
    get_nested_value data' key_path default = value.
Proof.
intros data key_path value data' default H.
unfold set_nested_value in H. unfold get_nested_value.
now rewrite (set_path_walk _ _ _ _ H).
Qed.

Lemma X4_set_then_get_nested_value_witness :
  get_nested_value
    (PDict [("Floating_Icon",
             PDict [("Position", PDict [("Offset_X", PInt 12)])])])
    "Floating_Icon.Position.Offset_X" PNone
  = PInt 12.
Proof.
apply (X4_set_then_get_nested_value (PDict [])
         "Floating_Icon.Position.Offset_X" (PInt 12)).
reflexivity.
Defined.

(** X5: [set_nested_value] leaves every path under another first segment as
    it was: [get_nested_value] returns for it what it returned before. *)
Theorem X5_set_nested_value_frame :
  forall data key_path value data' other default,
    set_nested_value data key_path value = Some data' ->
    first_segment other <> first_segment key_path ->
    get_nested_value data' other default = get_nested_value data other default.
Proof.
intros data key_path value data' other default H Hne.
unfold set_nested_value in H.
destruct (set_path_top _ _ _ _ H) as [key [rest [d [child [Hk [Hd Hd']]]]]].
unfold get_nested_value, first_segment in *. rewrite Hk in Hne. simpl in Hne.
destruct (PyText.split dot other) as [|key' rest'] eqn:Eo.
- exfalso. eapply split_nonempty; eauto.
- simpl in Hne. subst data data'. cbn [walk subscript].
  now rewrite dict_get_set_other.
Qed.

Lemma X5_set_nested_value_frame_witness :
  get_nested_value
    (PDict [("Speech", PDict [("Energy", PInt 300)]);
            ("Icon", PDict [("Size", PInt 64)])])
    "Speech.Energy" PNone
  = get_nested_value (PDict [("Speech", PDict [("Energy", PInt 300)])])
      "Speech.Energy" PNone.
Proof.
apply (X5_set_nested_value_frame
         (PDict [("Speech", PDict [("Energy", PInt 300)])]) "Icon.Size"
         (PInt 64)).
- reflexivity.
- vm_compute. discriminate.
Defined.

Lemma set_path_fresh keys value :
  keys <> [] -> set_path keys value (PDict []) <> None.
Proof.
induction keys as [|key rest IH]; [congruence|]. intros _. cbn [set_path].
destruct rest as [|key2 rest]; [discriminate|].
assert (Hr : set_path (key2 :: rest) value (PDict []) <> None)
  by (apply IH; discriminate).
simpl dict_get. cbv iota.
destruct (set_path (key2 :: rest) value (PDict [])); [discriminate|].
congruence.
Qed.

Lemma set_path_blocked keys value current :
  keys <> [] ->
  (set_path keys value current = None <-> blocked keys current).
Proof.
revert current. induction keys as [|key rest IH]; intros current Hne;
  [congruence|].
destruct current as [| | | | |d];
  try (split; [intros _; exists [], (key :: rest); eexists;
               repeat split; discriminate
              | intros _; cbn [set_path]; destruct rest; reflexivity]).
cbn [set_path]. destruct rest as [|key2 rest].
- split; [discriminate|].
  intros [pre [post [node [Hk [Hp [Hw Hn]]]]]].
  destruct pre as [|p pre].
  + simpl in Hw. inversion Hw; subst node. discriminate.
  + inversion Hk. destruct pre; destruct post; try discriminate; congruence.
- destruct (dict_get key d) as [c|] eqn:Eg.
  + specialize (IH c ltac:(discriminate)).
    destruct (set_path (key2 :: rest) value c) as [child'|] eqn:E.
    * split; [discriminate|].
      intros [pre [post [node [Hk [Hp [Hw Hn]]]]]].
      destruct pre as [|p pre].
      -- simpl in Hw. inversion Hw; subst node. discriminate.
      -- inversion Hk; subst p. cbn [walk subscript] in Hw. rewrite Eg in Hw.
         assert (Hb : blocked (key2 :: rest) c).
         { exists pre, post, node. auto. }
         apply IH in Hb. discriminate.
    * split; [intros _|reflexivity].
      destruct (proj1 IH eq_refl) as [pre [post [node [Hk [Hp [Hw Hn]]]]]].
      exists (key :: pre), post, node. repeat split; auto.
      -- simpl. now rewrite Hk.
      -- cbn [walk subscript]. now rewrite Eg.
  + destruct (set_path (key2 :: rest) value (PDict [])) as [child'|] eqn:E.
    * split; [discriminate|].
      intros [pre [post [node [Hk [Hp [Hw Hn]]]]]].
      destruct pre as [|p pre].
      -- simpl in Hw. inversion Hw; subst node. discriminate.
      -- inversion Hk; subst p. cbn [walk subscript] in Hw.
         rewrite Eg in Hw. discriminate.
    * exfalso. apply (set_path_fresh (key2 :: rest) value); [discriminate|].
      exact E.
Qed.

(** X6: [set_nested_value] raises exactly when its path runs into an existing
    value that is no dict while segments are left; missing segments are
    created. *)
Theorem X6_set_nested_value_raises_when_blocked :
  forall data key_path value,
    set_nested_value data key_path value = None
    <-> blocked (PyText.split dot key_path) data.
Proof.
intros data key_path value. unfold set_nested_value.
apply set_path_blocked, split_nonempty.
Qed.

Lemma merge_value_entry user_value base_value :
  merge_value user_value base_value = merged_entry user_value base_value.
Proof.
destruct user_value as [| | | | |u]; try reflexivity.
destruct base_value as [[| | | | |b]|]; try reflexivity.
simpl. f_equal. revert b.
induction u as [|[k v] u IH]; intros b; [reflexivity|].
cbn [merge_dict]. apply IH.
Qed.

Lemma merge_dict_get_other base user k :
  ~ In k (map fst user) ->
  dict_get k (merge_dict base user) = dict_get k base.
Proof.
revert base. induction user as [|[key value] user IH]; intros base Hk;
  [reflexivity|].
cbn [merge_dict]. simpl in Hk. rewrite IH by tauto.
apply dict_get_set_other. intros ->. tauto.
Qed.

(** X7: in the result of [merge_dict], a key of the user configuration holds
    the user's value, merged recursively with the base when both are dicts,
    and every other key holds what the base has. *)
Theorem X7_merge_dict_lookup :
  forall base user,
    NoDup (map fst user) ->
    (forall k, ~ In k (map fst user) ->
       dict_get k (merge_dict base user) = dict_get k base)
    /\ (forall k v, In (k, v) user ->
          dict_get k (merge_dict base user)
          = Some (merged_entry v (dict_get k base))).
Proof.
intros base user Hnd. split; [intros k; apply merge_dict_get_other|].
revert base. induction user as [|[key value] user IH]; intros base k v Hin;
  [contradiction|].
inversion Hnd as [|? ? Hnot Hnd']; subst. cbn [merge_dict].
destruct Hin as [Hin|Hin].
- inversion Hin; subst. rewrite merge_dict_get_other by exact Hnot.
  rewrite dict_get_set_same. now rewrite merge_value_entry.
- rewrite (IH Hnd' _ k v Hin).
  assert (Hne : k <> key).
  { intros ->. apply Hnot. apply (in_map fst) in Hin. exact Hin. }
  now rewrite dict_get_set_other.
Qed.

Lemma X7_merge_dict_lookup_witness :
  dict_get "Icon"
    (merge_dict [("Icon", PDict [("Size", PInt 64); ("Opacity", PInt 1)])]
       [("Icon", PDict [("Size", PInt 48)])])
  = Some (merged_entry (PDict [("Size", PInt 48)])
            (Some (PDict [("Size", PInt 64); ("Opacity", PInt 1)]))).
Proof.
apply (X7_merge_dict_lookup
         [("Icon", PDict [("Size", PInt 64); ("Opacity", PInt 1)])]
         [("Icon", PDict [("Size", PInt 48)])]).
- constructor; [intros [] | constructor].
- left. reflexivity.
Defined.

End ConfigUtilsFacts.

Section FormatFacts.

Import StringUtils Props.

Lemma no_brace_app a b :
  no_brace (a ++ b) = no_brace a && no_brace b.
Proof.
unfold no_brace. induction a as [|c a IH]; simpl; [reflexivity|].
now rewrite IH, andb_assoc.
Qed.

Lemma prefix_cons_ne c o c' s :
  c <> c' -> prefix (String c o) (String c' s) = false.
Proof.
intros H. cbn [prefix]. destruct (ascii_dec c c'); [contradiction | reflexivity].
Qed.

Lemma no_brace_cons c s :
  no_brace (String c s) = true -> brace <> c /\ no_brace s = true.
Proof.
unfold no_brace. cbn [PyText.all_chars]. intros H.
apply andb_true_iff in H. destruct H as [Hc Hs]. split; [|exact Hs].
apply negb_true_iff in Hc. intros <-. rewrite Ascii.eqb_refl in Hc.
discriminate.
Qed.

Lemma prefix_brace_false o s :
  no_brace s = true -> prefix (String brace o) s = false.
Proof.
destruct s as [|c s]; [reflexivity|]. intros H.
apply prefix_cons_ne. apply (no_brace_cons c s H).
Qed.

(** [replace] leaves a text without opening brace as it is when the text
    looked for starts with one. *)
Lemma replace_no_brace o new s :
  no_brace s = true -> PyText.replace (String brace o) new s = s.
Proof.
unfold PyText.replace. induction s as [|c s IH]; [reflexivity|].
intros H. cbn [PyText.replace_from].
rewrite (prefix_brace_false o _ H). f_equal. apply IH.
apply (no_brace_cons c s H).
Qed.

Lemma replace_from_skip old new a s :
  PyText.replace_from old new (String.length a) (a ++ s)
  = PyText.replace_from old new 0 s.
Proof. induction a as [|c a IH]; [reflexivity|]. simpl. exact IH. Qed.

(** Before the first opening brace nothing is replaced; a placeholder at it
    is replaced, and the rest is scanned. *)
Lemma replace_at_brace o new a b :
  no_brace a = true ->
  PyText.replace (String brace o) new (a ++ String brace o ++ b)
  = a ++ new ++ PyText.replace (String brace o) new b.
Proof.
intros Ha. unfold PyText.replace. induction a as [|c a IH].
- change ("" ++ String brace o ++ b) with (String brace (o ++ b)).
  cbn [PyText.replace_from].
  change (String brace (o ++ b)) with (String brace o ++ b).
  rewrite prefix_self_app. cbn [String.length]. rewrite Nat.sub_1_r.
  cbn [Nat.pred]. now rewrite replace_from_skip.
- change (String c a ++ String brace o ++ b)
    with (String c (a ++ String brace o ++ b)).
  cbn [PyText.replace_from].
  destruct (no_brace_cons c a Ha) as [Hc Ha'].
  rewrite (prefix_cons_ne brace o c _ Hc).
  change (String c a ++ new ++ PyText.replace_from (String brace o) new 0 b)
    with (String c (a ++ new ++ PyText.replace_from (String brace o) new 0 b)).
  f_equal. apply IH. exact Ha'.
Qed.

(** Another placeholder at the only brace of the text: nothing is
    replaced. *)
Lemma replace_other_placeholder o new a p b :
  no_brace a = true -> no_brace (p ++ b) = true ->
  prefix (String brace o) (String brace (p ++ b)) = false ->
  PyText.replace (String brace o) new (a ++ String brace p ++ b)
  = a ++ String brace p ++ b.
Proof.
intros Ha Hb Hp. unfold PyText.replace. induction a as [|c a IH].
- change ("" ++ String brace p ++ b) with (String brace (p ++ b)).
  cbn [PyText.replace_from]. rewrite Hp. f_equal.
  apply (replace_no_brace o new _ Hb).
- change (String c a ++ String brace p ++ b)
    with (String c (a ++ String brace p ++ b)).
  cbn [PyText.replace_from].
  destruct (no_brace_cons c a Ha) as [Hc Ha'].
  rewrite (prefix_cons_ne brace o c _ Hc).
  f_equal. apply IH. exact Ha'.
Qed.

Lemma plus_for_space_no_brace query :
  no_brace query = true -> no_brace (PyText.replace " " "+" query) = true.
Proof.
unfold PyText.replace. induction query as [|c q IH]; [reflexivity|].
intros H. destruct (no_brace_cons c q H) as [Hc Hq].
cbn [PyText.replace_from prefix].
destruct (ascii_dec " " c) as [<-|Hne].
- assert (Hp : prefix "" q = true) by apply prefix_nil. rewrite Hp.
  change (PyText.replace_from " " "+" (String.length " " - 1) q)
    with (PyText.replace_from " " "+" 0 q).
  change ("+" ++ PyText.replace_from " " "+" 0 q)
    with (String "+" (PyText.replace_from " " "+" 0 q)).
  unfold no_brace. cbn [PyText.all_chars]. apply andb_true_iff.
  split; [reflexivity | apply (IH Hq)].
- unfold no_brace. cbn [PyText.all_chars]. apply andb_true_iff. split.
  + apply negb_true_iff. apply Ascii.eqb_neq. congruence.
  + apply (IH Hq).
Qed.

(** X8: [format_command_string] (and [_format_command_string], which has the
    same body) returns a template without opening brace as it is; in a
    template whose only opening brace starts a placeholder,
    [{encoded_query}] is replaced by the percent-encoded query for every
    query, and [{raw_query}] and [{query}] by the query, respectively the
    query with [+] for each space, for every query without opening brace. *)
Theorem X8_format_command_string_single_placeholder :
  forall a b query,
    no_brace a = true -> no_brace b = true ->
    format_command_string a query = a
    /\ format_command_string (a ++ "{encoded_query}" ++ b) query
       = a ++ PyText.quote_plus query ++ b
    /\ (no_brace query = true ->
        format_command_string (a ++ "{raw_query}" ++ b) query
        = a ++ query ++ b
        /\ format_command_string (a ++ "{query}" ++ b) query
           = a ++ PyText.replace " " "+" query ++ b).
Proof.
intros a b query Ha Hb.
assert (Hpb : forall p, no_brace p = true -> no_brace (p ++ b) = true).
{ intros p Hp. now rewrite no_brace_app, Hp, Hb. }
unfold format_command_string. split; [|split].
- now rewrite !(replace_no_brace _ _ a Ha).
- change "{encoded_query}" with (String brace "encoded_query}").
  change "{query}" with (String brace "query}").
  change "{raw_query}" with (String brace "raw_query}").
  rewrite (replace_other_placeholder "query}" _ a "encoded_query}" b);
    [|exact Ha | now apply Hpb | reflexivity].
  rewrite (replace_other_placeholder "raw_query}" _ a "encoded_query}" b);
    [|exact Ha | now apply Hpb | reflexivity].
  rewrite replace_at_brace by exact Ha.
  now rewrite (replace_no_brace _ _ b Hb).
- intros Hq.
  change "{encoded_query}" with (String brace "encoded_query}").
  change "{query}" with (String brace "query}").
  change "{raw_query}" with (String brace "raw_query}").
  split.
  + rewrite (replace_other_placeholder "query}" _ a "raw_query}" b);
      [|exact Ha | now apply Hpb | reflexivity].
    rewrite replace_at_brace by exact Ha.
    rewrite (replace_no_brace _ _ b Hb).
    apply replace_no_brace.
    now rewrite !no_brace_app, Ha, Hq, Hb.
  + rewrite replace_at_brace by exact Ha.
    rewrite (replace_no_brace _ _ b Hb).
    pose proof (plus_for_space_no_brace query Hq) as Hq'.
    assert (Hall : no_brace (a ++ PyText.replace " " "+" query ++ b) = true)
      by now rewrite !no_brace_app, Ha, Hq', Hb.
    now rewrite !(replace_no_brace _ _ _ Hall).
Qed.

Lemma X8_format_command_string_single_placeholder_witness :
  format_command_string
    ("https://www.google.com/search?q=" ++ "{encoded_query}" ++ "&hl=en")
    "c++ & rust"
  = "https://www.google.com/search?q=" ++ PyText.quote_plus "c++ & rust"
    ++ "&hl=en".
Proof.
apply (X8_format_command_string_single_placeholder
         "https://www.google.com/search?q=" "&hl=en" "c++ & rust");
  reflexivity.
Defined.

End FormatFacts.

Section ExecutionFacts.

Import Py ValidationUtils CommandManager CommandExecution Spec Props Examples.

Variable W : Type.
Variable io : effect -> W -> bool * W.

(** What validation establishes about a record. *)
Lemma valid_record_fields d :
  is_valid_command_data (PDict d) = true ->
  exists action command,
    dict_get "Action" d = Some (PStr action)
    /\ dict_get "Command" d = Some (PStr command)
    /\ PyStr.strip command <> ""
    /\ (action = "browser" \/ action = "command" \/ action = "keys").
Proof.
unfold is_valid_command_data, required_fields, dict_mem, get_or.
cbn [forallb].
destruct (dict_get "Phrases" d) as [ph|]; [|discriminate].
destruct (dict_get "Action" d) as [a|]; [|discriminate].
destruct (dict_get "Command" d) as [c|]; [|discriminate].
cbn [negb andb].
destruct (negb (isinstance_list ph) || negb (truthy ph)); [discriminate|].
destruct (in_strs a ["browser"; "command"; "keys"]) eqn:Ea;
  cbn [negb]; [|discriminate].
apply in_strs_three in Ea.
destruct c as [| | | c | |]; try discriminate.
intros Hc. apply negb_true_iff, String.eqb_neq in Hc.
destruct Ea as [-> | [-> | ->]]; eexists _, c; repeat split; auto.
Qed.

Lemma strip_nonempty_arg s : PyStr.strip s <> "" -> s <> "".
Proof. intros H ->. apply H. reflexivity. Qed.

Lemma valid_record_executes commands description d additional_text w :
  dict_get description commands = Some (PDict d) ->
  is_valid_command_data (PDict d) = true ->
  exists action command,
    dict_get "Action" d = Some (PStr action)
    /\ dict_get "Command" d = Some (PStr command)
    /\ execute_command W io commands description additional_text w
       = Some (io (request_of action command additional_text) w).
Proof.
intros Hg Hv.
destruct (valid_record_fields d Hv) as [action [command [Ha [Hc [Hs Hact]]]]].
exists action, command. split; [exact Ha|]. split; [exact Hc|].
unfold execute_command, get_or. rewrite Hg, Ha, Hc.
unfold request_of, key_effect, _execute_browser, _execute_batch,
  _execute_keys.
destruct Hact as [-> | [-> | ->]]; simpl eq_str; cbv iota; simpl String.eqb;
  cbv iota; try reflexivity.
assert (Ht : truthy (PStr command) = true).
{ simpl. apply negb_true_iff, String.eqb_neq.
  now apply strip_nonempty_arg. }
rewrite Ht. cbn [negb].
destruct (parse_keys command) as [|k [|k2 ks]]; reflexivity.
Qed.

(** X9: a stored record that passes structural validation always reaches
    exactly one executor: [execute_command] hands the formatted URL to the
    browser for ['browser'], the formatted command to the shell for
    ['command'], and the parsed key combination to the keyboard for
    ['keys'], and returns that executor's result. *)
Theorem X9_valid_record_reaches_one_executor :
  forall commands description d additional_text w,
    dict_get description commands = Some (PDict d) ->
    is_valid_command_data (PDict d) = true ->
    exists action command,
      dict_get "Action" d = Some (PStr action)
      /\ dict_get "Command" d = Some (PStr command)
      /\ (action = "browser" \/ action = "command" \/ action = "keys")
      /\ execute_command W io commands description additional_text w
         = Some (io (request_of action command additional_text) w).
Proof.
intros commands description d q w Hg Hv.
destruct (valid_record_executes commands description d q w Hg Hv)
  as [action [command [Ha [Hc He]]]].
destruct (valid_record_fields d Hv) as [a' [c' [Ha' [_ [_ Hact]]]]].
exists action, command. repeat split; auto.
rewrite Ha in Ha'. inversion Ha'; subst a'. exact Hact.
Qed.

Lemma no_candidates_result commands voice_text :
  resolvable commands ->
  (forall c, ~ is_candidate commands voice_text c) ->
  parse_voice_command commands voice_text = Some (None, "", voice_text).
Proof.
intros Hres Hno.
destruct (scan_commands_spec voice_text commands Hres []) as [new [H1 H2]].
simpl in H1. unfold parse_voice_command.
fold (comparison_text voice_text). rewrite H1.
destruct new as [|c new]; [reflexivity|].
exfalso. apply (Hno c), H2. now left.
Qed.

(** X10: when no phrase of the map occurs in the text, [handle_voice_command]
    returns [False] and calls no executor, whatever the executors are. *)
Theorem X10_unmatched_text_executes_nothing :
  forall commands voice_text w,
    resolvable commands ->
    (forall desc d p,
       In (desc, PDict d) commands ->
       In (PStr p) (phrase_list (get_or "Phrases" (PList []) d)) ->
       PyStr.contains (PyStr.lower p) (PyStr.lower voice_text) = false) ->
    handle_voice_command W io commands voice_text w = Some (false, w).
Proof.
intros commands voice_text w Hres Hno. unfold handle_voice_command.
rewrite no_candidates_result; [reflexivity | exact Hres|].
intros c [desc [d [p [Hd [Hp [Hc _]]]]]].
apply contains_strip in Hc. rewrite (Hno desc d p Hd Hp) in Hc. discriminate.
Qed.

(** X11: resolution and execution compose. When some phrase matches,
    [handle_voice_command] executes the command of the best-ranked candidate
    with the remainder of the text as its query; a best candidate whose
    description is the empty string is treated as no match and nothing is
    executed. *)
Theorem X11_matched_text_executes_best_candidate :
  forall commands voice_text w,
    resolvable commands ->
    (exists c, is_candidate commands voice_text c) ->
    exists best,
      is_candidate commands voice_text best
      /\ (forall c, is_candidate commands voice_text c -> ranks_no_later best c)
      /\ handle_voice_command W io commands voice_text w
         = if (description best =? "")%string then Some (false, w)
           else execute_command W io commands (description best)
                  (PyStr.strip
                     (PyStr.replace_with_empty (pattern best) voice_text))
                  w.
Proof.
intros commands voice_text w Hres Hcand.
destruct (best_candidate_result commands voice_text Hres Hcand)
  as [best [Hb [Hmin Hparse]]].
exists best. split; [exact Hb|]. split; [exact Hmin|].
unfold handle_voice_command. rewrite Hparse.
now destruct (description best =? "")%string.
Qed.

Lemma dict_get_of_key {V} k (d : dict V) v :
  In (k, v) d -> exists v', dict_get k d = Some v' /\ In (k, v') d.
Proof.
induction d as [|[k0 v0] d IH]; [contradiction|]. simpl.
destruct (String.eqb_spec k0 k) as [->|Hne].
- intros _. exists v0. split; [reflexivity | now left].
- intros [H|H]; [inversion H; contradiction|].
  destruct (IH H) as [v' [H1 H2]]. exists v'. split; [exact H1 | now right].
Qed.

(** X12: on a map whose records all pass validation and none of which is
    stored under the empty description, every text in which a phrase matches
    makes [handle_voice_command] call exactly one executor and return its
    result. *)
Theorem X12_validated_map_always_executes :
  forall commands voice_text w,
    resolvable commands -> all_valid commands ->
    dict_mem "" commands = false ->
    (exists c, is_candidate commands voice_text c) ->
    exists request,
      handle_voice_command W io commands voice_text w = Some (io request w).
Proof.
intros commands voice_text w Hres Hval Hkey Hcand.
destruct (best_candidate_result commands voice_text Hres Hcand)
  as [best [Hb [_ Hparse]]].
destruct Hb as [desc [d [p [Hin [_ [_ Hbest]]]]]].
assert (Hd : description best = desc) by (subst best; reflexivity).
assert (Hne : (desc =? "")%string = false).
{ apply String.eqb_neq. intros ->.
  assert (Hk : dict_mem "" commands = true).
  { apply dict_mem_keys. apply (in_map fst) in Hin. exact Hin. }
  congruence. }
destruct (dict_get_of_key desc commands (PDict d) Hin) as [cmd [Hg Hin']].
pose proof (Hval desc cmd Hin') as Hv.
destruct (valid_is_dict cmd Hv) as [d' [x [l [-> _]]]].
destruct (valid_record_executes commands desc d'
            (PyStr.strip (PyStr.replace_with_empty (pattern best) voice_text))
            w Hg Hv) as [action [command [_ [_ Hexec]]]].
eexists. unfold handle_voice_command. rewrite Hparse, Hd, Hne. cbn [negb].
exact Hexec.
Qed.

End ExecutionFacts.

Section ExecutionWitnesses.

Import Py ValidationUtils CommandManager CommandExecution Spec Props Examples.

Lemma browser_commands_resolvable : resolvable browser_commands.
Proof.
intros o cmd [H|[H|[]]]; inversion H; subst;
  eexists _, _; (split; [reflexivity | split; reflexivity]).
Qed.

Lemma browser_commands_candidate :
  exists c, is_candidate browser_commands "open browser cats" c.
Proof.
exists (candidate_for "B" "open browser cats" "browser").
exists "B", [("Phrases", PList [PStr "browser"]); ("Action", PStr "browser");
             ("Command", PStr "https://example.org")], "browser".
repeat split; [right; left; reflexivity | left; reflexivity].
Qed.

Lemma X9_valid_record_reaches_one_executor_witness :
  exists action command,
    dict_get "Action"
      [("Phrases", PList [PStr "browser"]); ("Action", PStr "browser");
       ("Command", PStr "https://example.org")] = Some (PStr action)
    /\ dict_get "Command"
         [("Phrases", PList [PStr "browser"]); ("Action", PStr "browser");
          ("Command", PStr "https://example.org")] = Some (PStr command)
    /\ (action = "browser" \/ action = "command" \/ action = "keys")
    /\ execute_command (list effect) recording_io browser_commands "B" "cats" []
       = Some (recording_io (request_of action command "cats") []).
Proof.
apply (X9_valid_record_reaches_one_executor (list effect) recording_io
         browser_commands "B"); reflexivity.
Defined.

Lemma X10_unmatched_text_executes_nothing_witness :
  handle_voice_command (list effect) recording_io browser_commands
    "what time is it" []
  = Some (false, []).
Proof.
apply (X10_unmatched_text_executes_nothing (list effect) recording_io).
- exact browser_commands_resolvable.
- intros desc d p [H|[H|[]]] Hp; inversion H; subst;
    vm_compute in Hp; destruct Hp as [Hp|[]]; inversion Hp; reflexivity.
Defined.

Lemma X11_matched_text_executes_best_candidate_witness :
  exists best,
    is_candidate browser_commands "open browser cats" best
    /\ (forall c, is_candidate browser_commands "open browser cats" c ->
        ranks_no_later best c)
    /\ handle_voice_command (list effect) recording_io browser_commands
         "open browser cats" []
       = if (description best =? "")%string then Some (false, [])
         else execute_command (list effect) recording_io browser_commands
                (description best)
                (PyStr.strip
                   (PyStr.replace_with_empty (pattern best)
                      "open browser cats"))
                [].
Proof.
apply (X11_matched_text_executes_best_candidate (list effect) recording_io).
- exact browser_commands_resolvable.
- exact browser_commands_candidate.
Defined.

Lemma X12_validated_map_always_executes_witness :
  exists request,
    handle_voice_command (list effect) recording_io browser_commands
      "open browser cats" []
    = Some (recording_io request []).
Proof.
apply (X12_validated_map_always_executes (list effect) recording_io).
- exact browser_commands_resolvable.
- intros o cmd [H|[H|[]]]; inversion H; reflexivity.
- reflexivity.
- exact browser_commands_candidate.
Defined.

End ExecutionWitnesses.

Section SweepFacts.

Import Py ValidationUtils ConfigManager ConfigFiles Spec Props Examples.

Lemma merge_first_entries cmd_conflicts conflicts k o :
  In (k, o) (merge_first cmd_conflicts conflicts) ->
  In (k, o) conflicts \/ In (k, o) cmd_conflicts.
Proof.
unfold merge_first. revert conflicts.
induction cmd_conflicts as [|[k0 o0] l IH]; intros conflicts; simpl;
  [now left|].
intros H. apply IH in H. destruct H as [H|H]; [|right; now right].
destruct (dict_mem k0 conflicts); [now left|].
apply dict_set_entry in H. destruct H as [H|[-> ->]];
  [now left | right; now left].
Qed.

Lemma fold_left_keeps {X Y} (I : X -> Prop) (f : X -> Y -> X) (l : list Y) x :
  (forall acc y, In y l -> I acc -> I (f acc y)) -> I x ->
  I (fold_left f l x).
Proof.
revert x. induction l as [|y l IH]; intros x Hf Hx; simpl; [exact Hx|].
apply IH.
- intros acc z Hz. apply Hf. now right.
- apply Hf; [now left | exact Hx].
Qed.

(** X13: the whole-map sweep reports real conflicts only: every owner in the
    map [_validate_all_phrase_conflicts] returns is a command of the map
    that shares a non-blank normal form with a command that was being
    checked and from whose check it was not excluded. *)
Theorem X13_sweep_reports_real_conflicts :
  forall commands k o,
    In (k, o) (_validate_all_phrase_conflicts commands) ->
    real_conflict commands o.
Proof.
intros commands k o. unfold _validate_all_phrase_conflicts.
assert (H : forall k o,
          In (k, o) (fold_left (validate_step commands) commands []) ->
          real_conflict commands o); [|apply H].
apply (fold_left_keeps
         (fun acc => forall k o, In (k, o) acc -> real_conflict commands o));
  [|intros ? ? []].
intros acc [desc cmd] Hin Hacc k' o'. unfold validate_step.
destruct (negb (truthy (phrases_field cmd))); [apply Hacc|].
intros H. apply merge_first_entries in H. destruct H as [H|H]; [eauto|].
destruct (find_conflicts_sound _ _ _ _ _ _ H) as [cmd' [n [H1 [H2 [H3 H4]]]]].
exists desc, cmd, cmd', n. repeat split; auto.
Qed.

Lemma X13_sweep_reports_real_conflicts_witness :
  real_conflict (_commands imported_store) "E2".
Proof.
apply (X13_sweep_reports_real_conflicts (_commands imported_store) "x" "E2").
vm_compute. left. reflexivity.
Defined.

Lemma save_commands_commands disk_ok st :
  _commands (fst (save_commands disk_ok st)) = _commands st.
Proof.
unfold save_commands.
destruct (_validate_all_phrase_conflicts (_commands st)); reflexivity.
Qed.

(** With the write kept as a call, [save_commands] returns the state and the
    result it returns when it is given the result of the write. *)
Lemma save_commands_with_disk D (save_json : dict pyval -> D -> bool * D)
  st disk :
  fst (CommandsFile.save_commands D save_json st disk)
  = save_commands (fst (save_json (_commands st) disk)) st.
Proof.
unfold CommandsFile.save_commands, save_commands.
destruct (_validate_all_phrase_conflicts (_commands st)); [|reflexivity].
destruct (save_json (_commands st) disk); reflexivity.
Qed.

(** X14: [save_commands] writes conflict-free maps only. It never changes
    the command map, and its state and result are those of the store's
    [save_commands] given the result of the write. On a well-typed map
    without the empty description: when
    the map is conflict-free it calls [save_json] once, with the command
    map, leaves the store as it is and returns what [save_json] returns;
    when the map has a phrase conflict it returns [False] and the disk is
    what it was, whatever [save_json] would do: the map is not written. *)
Theorem X14_save_commands_writes_conflict_free_maps_only :
  forall D (save_json : dict pyval -> D -> bool * D) st disk,
    typed_store (_commands st) ->
    dict_mem "" (_commands st) = false ->
    let r := CommandsFile.save_commands D save_json st disk in
    fst r = save_commands (fst (save_json (_commands st) disk)) st
    /\ _commands (fst (fst r)) = _commands st
    /\ (conflict_free (_commands st) ->
        fst (fst r) = st
        /\ (snd (fst r), snd r) = save_json (_commands st) disk)
    /\ (~ conflict_free (_commands st) ->
        snd (fst r) = false /\ snd r = disk).
Proof.
intros D save_json st disk Hty Hkey r. subst r.
split; [apply save_commands_with_disk|].
unfold CommandsFile.save_commands.
destruct (_validate_all_phrase_conflicts (_commands st)) as [|e c] eqn:E.
- destruct (save_json (_commands st) disk) as [success disk'] eqn:Es.
  cbn [fst snd]. split; [reflexivity|]. split; [auto|].
  intros Hcf. exfalso. apply Hcf. now apply validate_all_detects.
- cbn [fst snd with_error _commands]. split; [reflexivity|]. split; [|auto].
  intros Hcf. rewrite (validate_all_empty _ Hcf Hkey) in E. discriminate.
Qed.

Lemma X14_save_commands_writes_conflict_free_maps_only_witness :
  let r := CommandsFile.save_commands (list (dict pyval)) recording_disk
             notepad_store [] in
  fst r
  = save_commands (fst (recording_disk (_commands notepad_store) []))
      notepad_store
  /\ _commands (fst (fst r)) = _commands notepad_store
  /\ (conflict_free (_commands notepad_store) ->
      fst (fst r) = notepad_store
      /\ (snd (fst r), snd r)
         = recording_disk (_commands notepad_store) [])
  /\ (~ conflict_free (_commands notepad_store) ->
      snd (fst r) = false /\ snd r = []).
Proof.
apply (X14_save_commands_writes_conflict_free_maps_only
         (list (dict pyval)) recording_disk notepad_store []).
- intros o cmd [H|[]]; inversion H; subst.
  eexists; (split; [reflexivity | reflexivity]).
- reflexivity.
Defined.

End SweepFacts.

Section RoundTripFacts.

Import Py ValidationUtils ConfigManager ConfigFiles Spec Props Examples.

Lemma with_commands_same st : with_commands st (_commands st) = st.
Proof. destruct st; reflexivity. Qed.

Lemma with_commands_twice st c c' :
  with_commands (with_commands st c) c' = with_commands st c'.
Proof. reflexivity. Qed.

Lemma dict_del_set_fresh {V} (k : string) (v : V) (d : dict V) :
  dict_mem k d = false -> dict_del k (dict_set k v d) = d.
Proof.
unfold dict_mem. induction d as [|[k0 v0] d IH]; simpl.
- now rewrite String.eqb_refl.
- destruct (k0 =? k)%string eqn:E; [discriminate|].
  intros H. simpl. rewrite E. now rewrite IH.
Qed.

(** A call that reports success left the rest of the store as it found it. *)
Lemma finish_true disk_ok st save :
  snd (finish disk_ok st save) = true -> fst (finish disk_ok st save) = st.
Proof.
unfold finish, save_commands. destruct (wants_save st save); [|reflexivity].
destruct (_validate_all_phrase_conflicts (_commands st)); simpl;
  [reflexivity | discriminate].
Qed.

Lemma add_command_true disk_ok st description command_data save :
  snd (add_command disk_ok st description command_data save) = true ->
  is_valid_command_data command_data = true
  /\ fst (add_command disk_ok st description command_data save)
     = with_commands st (dict_set description command_data (_commands st)).
Proof.
unfold add_command.
destruct (is_valid_command_data command_data); simpl; [|discriminate].
destruct (_find_phrase_conflicts _ _ _ _); simpl; [|discriminate].
intros H. split; [reflexivity | now apply finish_true].
Qed.

Lemma update_command_true disk_ok st description command_data save st' :
  update_command disk_ok st description command_data save = Some (st', true) ->
  st' = with_commands st (dict_set description command_data (_commands st)).
Proof.
unfold update_command.
destruct (dict_mem description (_commands st)); simpl; [|discriminate].
destruct (is_valid_command_data command_data); simpl; [|discriminate].
destruct (_find_phrase_conflicts _ _ _ _); simpl; [|discriminate].
destruct (old_value_copy st description); [|discriminate].
intros H. injection H as H.
assert (Hs : snd (finish disk_ok
                    (with_commands st
                       (dict_set description command_data (_commands st)))
                    save) = true) by now rewrite H.
apply finish_true in Hs. rewrite H in Hs. exact Hs.
Qed.

Lemma remove_command_true disk_ok st description save st' :
  remove_command disk_ok st description save = Some (st', true) ->
  st' = with_commands st (dict_del description (_commands st)).
Proof.
unfold remove_command.
destruct (dict_mem description (_commands st)); simpl; [|discriminate].
destruct (old_value_copy st description); [|discriminate].
intros H. injection H as H.
assert (Hs : snd (finish disk_ok
                    (with_commands st
                       (dict_del description (_commands st)))
                    save) = true) by now rewrite H.
apply finish_true in Hs. rewrite H in Hs. exact Hs.
Qed.

(** X15: adding a command under a new description and removing it again is
    a round trip: when [add_command] of a description that was absent
    reports success, [remove_command] of that description (without saving)
    succeeds and gives back the store exactly as it was before the add, the
    order of the other commands included. *)
Theorem X15_add_then_remove_restores_the_store :
  forall disk_ok disk_ok' st description command_data save,
    dict_mem description (_commands st) = false ->
    snd (add_command disk_ok st description command_data save) = true ->
    remove_command disk_ok'
      (fst (add_command disk_ok st description command_data save))
      description (Some false)
    = Some (st, true).
Proof.
intros disk_ok disk_ok' st description command_data save Hnew Hok.
destruct (add_command_true _ _ _ _ _ Hok) as [Hvalid Hst]. rewrite Hst.
unfold remove_command, old_value_copy. cbn [_commands with_commands].
unfold dict_mem. rewrite dict_get_set_same. cbn [negb].
destruct (valid_is_dict _ Hvalid) as [d [x [l [-> _]]]]. cbn [has_copy].
unfold finish. cbn [wants_save]. rewrite with_commands_twice.
rewrite dict_del_set_fresh by exact Hnew.
now rewrite with_commands_same.
Qed.

Lemma X15_add_then_remove_restores_the_store_witness :
  remove_command false
    (fst (add_command true notepad_store "Go"
            (record ["go"] "keys" "ctrl+g") None))
    "Go" (Some false)
  = Some (notepad_store, true).
Proof.
apply (X15_add_then_remove_restores_the_store true false notepad_store "Go"
         (record ["go"] "keys" "ctrl+g") None); reflexivity.
Defined.

(** X16: success never clears the error report: when [add_command],
    [update_command] or [remove_command] returns [True], the message that
    [get_last_error_message] returns is the one it returned before the call,
    so the text of an earlier failure stays readable after a success. *)
Theorem X16_success_keeps_the_last_error_message :
  forall disk_ok st description command_data save st',
    add_command disk_ok st description command_data save = (st', true)
    \/ update_command disk_ok st description command_data save
       = Some (st', true)
    \/ remove_command disk_ok st description save = Some (st', true) ->
    get_last_error_message st' = get_last_error_message st.
Proof.
intros disk_ok st description command_data save st' H.
assert (E : exists c, st' = with_commands st c).
{ destruct H as [H | [H | H]].
  - assert (Hs : snd (add_command disk_ok st description command_data save)
                 = true) by now rewrite H.
    destruct (add_command_true _ _ _ _ _ Hs) as [_ Hst].
    rewrite H in Hst. simpl in Hst. eauto.
  - apply update_command_true in H. eauto.
  - apply remove_command_true in H. eauto. }
destruct E as [c ->]. reflexivity.
Qed.

Lemma X16_success_keeps_the_last_error_message_witness :
  get_last_error_message
    (mk_state [("Go", record ["go"] "keys" "ctrl+g")] false
       "Invalid command data for Q" [])
  = get_last_error_message
      (mk_state [] false "Invalid command data for Q" []).
Proof.
apply (X16_success_keeps_the_last_error_message true
         (mk_state [] false "Invalid command data for Q" []) "Go"
         (record ["go"] "keys" "ctrl+g") None).
left. reflexivity.
Defined.

Lemma dict_get_filter_other {V} (k : string) (d : dict V) :
  k <> "settings" ->
  dict_get k (filter (fun kv => negb (fst kv =? "settings")%string) d)
  = dict_get k d.
Proof.
intros Hne. induction d as [|[k0 v0] d IH]; [reflexivity|].
cbn [filter fst dict_get].
destruct (String.eqb_spec k0 "settings") as [->|Hk0]; cbn [negb dict_get].
- destruct (String.eqb_spec "settings" k); [congruence | exact IH].
- now rewrite IH.
Qed.

Lemma dict_get_filter_settings {V} (d : dict V) :
  dict_get "settings" (filter (fun kv => negb (fst kv =? "settings")%string) d)
  = None.
Proof.
induction d as [|[k0 v0] d IH]; [reflexivity|].
cbn [filter fst]. destruct (k0 =? "settings")%string eqn:E;
  cbn [negb dict_get]; [exact IH | now rewrite E].
Qed.

Lemma filter_settings_id {V} (d : dict V) :
  dict_mem "settings" d = false ->
  filter (fun kv => negb (fst kv =? "settings")%string) d = d.
Proof.
unfold dict_mem. induction d as [|[k0 v0] d IH]; [reflexivity|].
cbn [filter fst dict_get]. destruct (k0 =? "settings")%string;
  cbn [negb]; [discriminate|]. intros H. now rewrite IH.
Qed.

(** X17: loading takes the commands file as it is, without any check: every
    entry of the document except the key [settings] becomes a command,
    whatever its value. A command called [settings] is therefore never
    loaded, and the loaded map is the document exactly when the document has
    no such key. The error report is not touched, and a document that is no
    object leaves the command map as it was. *)
Theorem X17_load_keeps_all_but_settings :
  forall st document,
    let st' := _load_configurations st (Some (PDict document)) in
    dict_get "settings" (_commands st') = None
    /\ (forall k, k <> "settings" ->
        dict_get k (_commands st') = dict_get k document)
    /\ (_commands st' = document <-> dict_mem "settings" document = false)
    /\ get_last_error_message st' = get_last_error_message st
    /\ (forall other, isinstance_dict other = false ->
        _commands (_load_configurations st (Some other)) = _commands st).
Proof.
intros st document st'. subst st'. cbn [_load_configurations _commands with_commands].
split; [apply dict_get_filter_settings|].
split; [intros k Hk; now apply dict_get_filter_other|].
split; [split|split].
- intros H. unfold dict_mem. rewrite <- H at 1.
  now rewrite dict_get_filter_settings.
- apply filter_settings_id.
- reflexivity.
- intros other Hother. destruct other; try reflexivity. discriminate.
Qed.

Lemma dict_update_get_other {V} (k : string) (data base : dict V) :
  dict_mem k data = false ->
  dict_get k (dict_update base data) = dict_get k base.
Proof.
unfold dict_update, dict_mem. revert base.
induction data as [|[k0 v0] data IH]; intros base; [reflexivity|].
cbn [fold_left fst snd dict_get].
destruct (String.eqb_spec k0 k) as [->|Hne]; [discriminate|].
intros H. rewrite (IH _ H). apply dict_get_set_other. congruence.
Qed.

Lemma dict_update_get_in {V} (k : string) (v : V) (data base : dict V) :
  NoDup (map fst data) -> In (k, v) data ->
  dict_get k (dict_update base data) = Some v.
Proof.
unfold dict_update. revert base.
induction data as [|[k0 v0] data IH]; intros base Hnd Hin; [destruct Hin|].
cbn [fold_left fst snd]. inversion Hnd as [|? ? Hnot Hnd']; subst.
destruct Hin as [Hin|Hin].
- inversion Hin; subst.
  fold (dict_update (dict_set k v base) data).
  rewrite dict_update_get_other; [apply dict_get_set_same|].
  destruct (dict_mem k data) eqn:E; [|reflexivity].
  apply dict_mem_keys in E. contradiction.
- now apply IH.
Qed.

Lemma dict_get_nodup_in {V} (k : string) (v : V) (d : dict V) :
  NoDup (map fst d) -> In (k, v) d -> dict_get k d = Some v.
Proof.
induction d as [|[k0 v0] d IH]; intros Hnd Hin; [destruct Hin|].
inversion Hnd as [|? ? Hnot Hnd']; subst. simpl.
destruct Hin as [Hin|Hin].
- inversion Hin; subst. now rewrite String.eqb_refl.
- destruct (String.eqb_spec k0 k) as [->|Hne]; [|now apply IH].
  exfalso. apply Hnot. apply (in_map fst) in Hin. exact Hin.
Qed.

(** X18: importing a commands document makes no check at all: for every
    non-empty document the call returns [True], also when [save_commands]
    then refuses to write the result, and afterwards every entry of the
    document is a command as it stands (valid or not, conflicting or not),
    while a description the document does not have keeps its command when
    merging and is gone when replacing. *)
Theorem X18_import_stores_the_document_unchecked :
  forall disk_ok st document merge,
    document <> [] ->
    NoDup (map fst document) ->
    let r := import_commands disk_ok st (Some document) merge in
    snd r = true
    /\ (forall k v, In (k, v) document ->
        dict_get k (_commands (fst r)) = Some v)
    /\ (forall k, dict_mem k document = false ->
        dict_get k (_commands (fst r))
        = if merge then dict_get k (_commands st) else None).
Proof.
intros disk_ok st document merge Hne Hnd r. subst r.
destruct document as [|e document]; [contradiction|].
set (doc := e :: document) in *.
assert (Hc : _commands (fst (import_commands disk_ok st (Some doc) merge))
             = if merge then dict_update (_commands st) doc else doc).
{ unfold import_commands, doc.
  destruct (_auto_save (with_commands st _)); cbn [fst];
    [rewrite save_commands_commands|]; reflexivity. }
split.
- unfold import_commands, doc.
  destruct (_auto_save (with_commands st _)); reflexivity.
- rewrite Hc. split.
  + intros k v Hin. destruct merge;
      [now apply dict_update_get_in | now apply dict_get_nodup_in].
  + intros k Hk. destruct merge; [now apply dict_update_get_other|].
    unfold dict_mem in Hk. destruct (dict_get k doc); [discriminate|reflexivity].
Qed.

Lemma X18_import_stores_the_document_unchecked_witness :
  let r := import_commands true notepad_store
             (Some [("E1", record ["x"] "internal" "");
                    ("E2", record ["x"] "keys" "ctrl+f")]) true in
  snd r = true
  /\ (forall k v,
      In (k, v) [("E1", record ["x"] "internal" "");
                 ("E2", record ["x"] "keys" "ctrl+f")] ->
      dict_get k (_commands (fst r)) = Some v)
  /\ (forall k,
      dict_mem k [("E1", record ["x"] "internal" "");
                  ("E2", record ["x"] "keys" "ctrl+f")] = false ->
      dict_get k (_commands (fst r))
      = if true then dict_get k (_commands notepad_store) else None).
Proof.
apply (X18_import_stores_the_document_unchecked true notepad_store
         [("E1", record ["x"] "internal" "");
          ("E2", record ["x"] "keys" "ctrl+f")] true).
- discriminate.
- repeat constructor; simpl; intuition discriminate.
Defined.

End RoundTripFacts.

Section ListingFacts.

Import Py PhraseListing Spec Props.

#[local] Open Scope list_scope.

Lemma add_phrase_str desc act disp p acc :
  add_phrase desc act disp (PStr p) acc
  = ((if blank p then acc
      else acc ++ [mk_info (PyStr.strip p) desc act disp]), Some tt).
Proof.
unfold add_phrase, Exc.bind, Exc.lift, Exc.ret, Exc.modify, blank.
cbn [strip]. destruct (PyStr.strip p =? "")%string; reflexivity.
Qed.

Lemma phrases_loop desc act disp items :
  forallb is_str items = true ->
  forall acc,
    Exc.for_each items (add_phrase desc act disp) acc
    = (acc ++ phrase_entries desc act disp items, Some tt).
Proof.
induction items as [|[| | |p| |] items IH]; cbn [forallb is_str andb];
  try discriminate; intros Hstr acc.
- cbn. now rewrite app_nil_r.
- cbn [Exc.for_each phrase_entries]. unfold Exc.bind.
  rewrite add_phrase_str, (IH Hstr).
  destruct (blank p); [reflexivity|]. now rewrite <- app_assoc.
Qed.

Lemma display_command_str c : display_command (PStr c) <> None.
Proof.
unfold display_command. cbn [len].
destruct (String.length c <=? 80)%nat; discriminate.
Qed.

Lemma command_loop commands :
  resolvable commands -> displayable commands ->
  forall acc,
    Exc.for_each commands add_command_phrases acc
    = (acc ++ flat_map command_entries commands, Some tt).
Proof.
induction commands as [|[desc cmd] rest IH]; intros Hres Hdis acc.
- cbn. now rewrite app_nil_r.
- destruct (Hres desc cmd (or_introl eq_refl)) as [d [items [-> [Hit Hstr]]]].
  pose proof (Hdis desc d (or_introl eq_refl)) as Hc.
  cbn [Exc.for_each flat_map]. unfold Exc.bind at 1.
  unfold add_command_phrases, command_entries, phrase_list.
  cbn [fst snd]. rewrite Hit.
  destruct (get_or "Command" (PStr "") d) as [| | |c| |]; try discriminate.
  pose proof (display_command_str c) as Hd.
  destruct (display_command (PStr c)) as [disp|]; [|congruence].
  unfold Exc.bind, Exc.lift, Exc.ret.
  rewrite (phrases_loop _ _ _ _ Hstr).
  rewrite IH.
  + now rewrite <- app_assoc.
  + intros o c' H. apply (Hres o c'). now right.
  + intros o d' H. apply (Hdis o d'). now right.
Qed.

Lemma listing_insert_in x l i : In i (insert x l) <-> i = x \/ In i l.
Proof.
induction l as [|y l IH]; cbn [insert].
- simpl. intuition congruence.
- destruct (String.ltb _ _); cbn [In]; rewrite ?IH; intuition congruence.
Qed.

Lemma listing_sort_in l i : In i (sort l) <-> In i l.
Proof.
induction l as [|x l IH]; simpl; [tauto|].
rewrite listing_insert_in, IH. intuition congruence.
Qed.

Lemma str_leb_ltb_false a b : String.leb a b = true -> String.ltb b a = false.
Proof.
unfold String.ltb, String.leb. rewrite (String.compare_antisym a b).
destruct (String.compare b a); simpl; intros H; auto; discriminate.
Qed.

Lemma listed_before_trans a b c :
  listed_before a b -> listed_before b c -> listed_before a c.
Proof.
unfold listed_before. intros H1 H2.
apply str_ltb_false_leb.
apply (str_ltb_negtrans _ (PyStr.lower (phrase b)));
  now apply str_leb_ltb_false.
Qed.

Lemma listing_insert_sorted x l :
  StronglySorted listed_before l -> StronglySorted listed_before (insert x l).
Proof.
induction l as [|y l IH]; intros Hs; cbn [insert].
- constructor; [constructor | constructor].
- inversion Hs as [|? ? Hs' Hall]; subst.
  destruct (String.ltb (PyStr.lower (phrase y)) (PyStr.lower (phrase x)))
    eqn:E.
  + constructor; [now apply IH|].
    apply Forall_forall. intros i Hi. apply listing_insert_in in Hi.
    destruct Hi as [->|Hi].
    * unfold listed_before. apply str_ltb_false_leb.
      now apply str_ltb_asym.
    * rewrite Forall_forall in Hall. now apply Hall.
  + assert (Hxy : listed_before x y)
      by (unfold listed_before; now apply str_ltb_false_leb).
    constructor; [exact Hs|].
    constructor; [exact Hxy|].
    apply Forall_forall. intros i Hi. rewrite Forall_forall in Hall.
    apply (listed_before_trans _ y); [exact Hxy | now apply Hall].
Qed.

Lemma listing_sort_sorted l : StronglySorted listed_before (sort l).
Proof.
induction l as [|x l IH]; simpl; [constructor|].
now apply listing_insert_sorted.
Qed.

Lemma phrase_entries_in desc act disp items i :
  In i (phrase_entries desc act disp items) <->
  exists p,
    In (PStr p) items /\ blank p = false
    /\ i = mk_info (PyStr.strip p) desc act disp.
Proof.
induction items as [|v items IH]; cbn [phrase_entries].
- split; [intros [] | intros [p [[] _]]].
- assert (Hrest : In i (phrase_entries desc act disp items) ->
                  exists p, In (PStr p) (v :: items) /\ blank p = false
                            /\ i = mk_info (PyStr.strip p) desc act disp).
  { intros H. apply IH in H. destruct H as [p [H1 H2]].
    exists p. split; [now right | exact H2]. }
  destruct v as [| | |q| |];
    try (split; [exact Hrest|];
         intros [p [[H|H] H2]]; [discriminate|]; apply IH; eauto).
  destruct (blank q) eqn:E.
  + split; [exact Hrest|]. intros [p [[H|H] [H2 H3]]].
    * inversion H; subst. congruence.
    * apply IH. eauto.
  + cbn [In]. split.
    * intros [H|H]; [|now apply Hrest].
      exists q. split; [now left | split; [exact E | now symmetry]].
    * intros [p [[H|H] [H2 H3]]].
      -- inversion H; subst. now left.
      -- right. apply IH. eauto.
Qed.

Lemma listing_value commands :
  resolvable commands -> displayable commands ->
  get_all_phrases_with_descriptions commands
  = sort (flat_map command_entries commands).
Proof.
intros Hres Hdis. unfold get_all_phrases_with_descriptions, Exc.exec.
unfold Exc.bind. rewrite (command_loop _ Hres Hdis). reflexivity.
Qed.

(** X20: the phrase listing is complete, clean and sorted: on a command map
    whose records are dicts with string phrases and a string command,
    [get_all_phrases_with_descriptions] lists exactly the phrases that are
    not blank, each one trimmed and with the description, the action and the
    displayed command of its own record, and the list is in ascending order
    of the lower-cased phrase. *)
Theorem X20_phrase_listing_is_complete_and_sorted :
  forall commands,
    resolvable commands ->
    displayable commands ->
    (forall i,
       In i (get_all_phrases_with_descriptions commands) <->
       exists desc d p display,
         In (desc, PDict d) commands
         /\ In (PStr p) (phrase_list (get_or "Phrases" (PList []) d))
         /\ blank p = false
         /\ display_command (get_or "Command" (PStr "") d) = Some display
         /\ i = mk_info (PyStr.strip p) desc
                  (get_or "Action" (PStr "command") d) display)
    /\ StronglySorted listed_before
         (get_all_phrases_with_descriptions commands).
Proof.
intros commands Hres Hdis. rewrite (listing_value _ Hres Hdis).
split; [|apply listing_sort_sorted].
intros i. rewrite listing_sort_in, in_flat_map. split.
- intros [[desc cmd] [Hin Hi]].
  destruct (Hres _ _ Hin) as [d [items [-> _]]].
  unfold command_entries in Hi. cbn [fst snd] in Hi.
  destruct (display_command (get_or "Command" (PStr "") d)) as [disp|] eqn:E;
    [|destruct Hi].
  apply phrase_entries_in in Hi. destruct Hi as [p [H1 [H2 H3]]].
  exists desc, d, p, disp. auto.
- intros [desc [d [p [disp [H1 [H2 [H3 [H4 H5]]]]]]]].
  exists (desc, PDict d). split; [exact H1|].
  unfold command_entries. cbn [fst snd]. rewrite H4.
  apply phrase_entries_in. eauto.
Qed.

(** X21: one malformed record silently cuts the listing short: when a value
    of the command map is no dict, [get_all_phrases_with_descriptions]
    returns the entries of the commands before it only, in map order and
    not sorted, and nothing of the commands after it. *)
Theorem X21_malformed_record_truncates_the_listing :
  forall good o bad rest,
    resolvable good ->
    displayable good ->
    isinstance_dict bad = false ->
    get_all_phrases_with_descriptions (good ++ (o, bad) :: rest)
    = flat_map command_entries good.
Proof.
intros good o bad rest Hres Hdis Hbad.
unfold get_all_phrases_with_descriptions, Exc.exec.
unfold Exc.bind at 1. rewrite for_each_app. unfold Exc.bind at 1.
rewrite (command_loop _ Hres Hdis). cbn [Exc.for_each app].
unfold Exc.bind, add_command_phrases.
destruct bad; try reflexivity. discriminate.
Qed.

End ListingFacts.

Section ListingWitnesses.

Import Py PhraseListing Spec Props Examples.

Lemma browser_commands_displayable : displayable browser_commands.
Proof. intros o d [H|[H|[]]]; inversion H; reflexivity. Qed.

Lemma go_commands_resolvable : resolvable go_commands.
Proof.
intros o cmd [H|[]]; inversion H; subst.
eexists _, _. split; [reflexivity | split; reflexivity].
Qed.

Lemma go_commands_displayable : displayable go_commands.
Proof. intros o d [H|[]]; inversion H; reflexivity. Qed.

Lemma X20_phrase_listing_is_complete_and_sorted_witness :
  (forall i,
     In i (get_all_phrases_with_descriptions browser_commands) <->
     exists desc d p display,
       In (desc, PDict d) browser_commands
       /\ In (PStr p) (phrase_list (get_or "Phrases" (PList []) d))
       /\ blank p = false
       /\ display_command (get_or "Command" (PStr "") d) = Some display
       /\ i = mk_info (PyStr.strip p) desc
                (get_or "Action" (PStr "command") d) display)
  /\ StronglySorted listed_before
       (get_all_phrases_with_descriptions browser_commands).
Proof.
apply (X20_phrase_listing_is_complete_and_sorted browser_commands).
- exact browser_commands_resolvable.
- exact browser_commands_displayable.
Defined.

Lemma X21_malformed_record_truncates_the_listing_witness :
  get_all_phrases_with_descriptions
    (go_commands ++ ("Bad", PStr "oops") :: browser_commands)%list
  = flat_map command_entries go_commands.
Proof.
apply (X21_malformed_record_truncates_the_listing go_commands "Bad"
         (PStr "oops") browser_commands).
- exact go_commands_resolvable.
- exact go_commands_displayable.
- reflexivity.
Defined.

End ListingWitnesses.

Section SettingsFacts.

Import Py Heap SettingsStore Props.

#[local] Open Scope list_scope.

Lemma read_write_same h a o :
  a < length h -> read (write h a o) a = Some o.
Proof.
revert a. induction h as [|x h IH]; intros a Ha; simpl in Ha; [lia|].
destruct a as [|a]; [reflexivity|]. simpl. apply IH. lia.
Qed.

Lemma read_write_other h a b o : a <> b -> read (write h a o) b = read h b.
Proof.
revert a b. induction h as [|x h IH]; intros a b Hne; [reflexivity|].
destruct a as [|a], b as [|b]; try reflexivity; [congruence|].
simpl. apply IH. congruence.
Qed.

Lemma dict_get_del_same {V} (k : string) (d : dict V) :
  NoDup (map fst d) -> dict_get k (dict_del k d) = None.
Proof.
induction d as [|[k0 v0] d IH]; intros Hnd; [reflexivity|].
inversion Hnd as [|? ? Hnot Hnd']; subst. cbn [dict_del].
destruct (String.eqb_spec k0 k) as [->|Hne].
- destruct (dict_get k d) eqn:E; [|reflexivity].
  exfalso. apply Hnot. apply dict_get_in in E.
  apply (in_map fst) in E. exact E.
- cbn [dict_get]. destruct (String.eqb_spec k0 k); [contradiction|].
  now apply IH.
Qed.

Lemma dict_get_del_other {V} (k k' : string) (d : dict V) :
  k' <> k -> dict_get k' (dict_del k d) = dict_get k' d.
Proof.
intros Hne. induction d as [|[k0 v0] d IH]; [reflexivity|].
cbn [dict_del dict_get].
destruct (String.eqb_spec k0 k) as [->|Hk0].
- destruct (String.eqb_spec k k'); [congruence | reflexivity].
- cbn [dict_get]. now rewrite IH.
Qed.

Lemma cache_key_inj p q : cache_key p = cache_key q -> p = q.
Proof. unfold cache_key. intros H. simpl in H. now inversion H. Qed.

Lemma kept_refl h : kept h h.
Proof. intros t k v H. exact H. Qed.

Lemma kept_trans h1 h2 h3 : kept h1 h2 -> kept h2 h3 -> kept h1 h3.
Proof. intros H1 H2 t k v H. apply H2, H1, H. Qed.

(** Creating a missing key keeps every item there is. *)
Lemma create_kept h a d key :
  read h a = Some (ODict d) -> dict_get key d = None ->
  kept h (write (h ++ [ODict []]) a
            (ODict (dict_set key (HRef (length h)) d))).
Proof.
intros Hr Hkey t k v H. unfold getitem in *.
destruct t as [| | | |b]; try discriminate.
pose proof (read_some_bound _ _ _ Hr) as Ha.
destruct (Nat.eq_dec a b) as [<-|Hne].
- rewrite Hr in H. rewrite read_write_same by (rewrite length_app; lia).
  rewrite dict_get_set_other; [exact H|]. congruence.
- rewrite read_write_other by exact Hne.
  destruct (read h b) as [o|] eqn:E; [|discriminate].
  rewrite read_old by (eapply read_some_bound; eauto).
  now rewrite E.
Qed.

Lemma navigate_kept keys :
  forall h current, kept h (fst (navigate h keys current)).
Proof.
induction keys as [|key rest IH]; intros h current; [apply kept_refl|].
cbn [navigate].
destruct current as [| | | |a]; try apply kept_refl.
destruct (read h a) as [[d|l]|] eqn:Hr; try apply kept_refl.
destruct (dict_get key d) as [next|] eqn:Hkey; [apply IH|].
cbn [alloc]. eapply kept_trans; [|apply IH].
now apply create_kept.
Qed.

(** The path walked by the loop leads, in the heap the loop leaves and in
    every heap that keeps its items under the keys of the path, to the dict
    the loop ends in. *)
Lemma navigate_lookup keys :
  forall h current h' c,
    navigate h keys current = (h', Some c) ->
    forall k h'',
      kept_off k h' h'' -> ~ In k keys ->
      lookup_path h'' keys current = Some c.
Proof.
induction keys as [|key rest IH]; intros h current h' c Hnav k h'' Hk Hnot.
- cbn in Hnav. inversion Hnav. reflexivity.
- cbn [navigate] in Hnav.
  destruct current as [| | | |a]; try discriminate.
  destruct (read h a) as [[d|l]|] eqn:Hr; try discriminate.
  assert (Hkey : key <> k) by (intros ->; apply Hnot; now left).
  assert (Hrest : ~ In k rest) by (intros H; apply Hnot; now right).
  cbn [lookup_path].
  destruct (dict_get key d) as [next|] eqn:Hd.
  + assert (Hg : getitem h'' (HRef a) key = Some next).
    { apply Hk; [exact Hkey|].
      pose proof (navigate_kept rest h next) as Hkept.
      rewrite Hnav in Hkept. apply Hkept.
      unfold getitem. now rewrite Hr. }
    rewrite Hg. eapply IH; eauto.
  + cbn [alloc] in Hnav.
    set (h2 := write (h ++ [ODict []]) a
                 (ODict (dict_set key (HRef (length h)) d))) in *.
    assert (Hg : getitem h'' (HRef a) key = Some (HRef (length h))).
    { apply Hk; [exact Hkey|].
      pose proof (navigate_kept rest h2 (HRef (length h))) as Hkept.
      rewrite Hnav in Hkept. apply Hkept.
      unfold getitem, h2.
      rewrite read_write_same
        by (rewrite length_app; pose proof (read_some_bound _ _ _ Hr); lia).
      apply dict_get_set_same. }
    rewrite Hg. eapply IH; eauto.
Qed.

Lemma setitem_kept_off h c k v h' :
  setitem h c k v = Some h' ->
  kept_off k h h' /\ getitem h' c k = Some v.
Proof.
unfold setitem. destruct c as [| | | |a]; try discriminate.
destruct (read h a) as [[d|l]|] eqn:Hr; try discriminate.
intros H. inversion H; subst. clear H.
pose proof (read_some_bound _ _ _ Hr) as Ha. split.
- intros t k' x Hne Hx. unfold getitem in *.
  destruct t as [| | | |b]; try discriminate.
  destruct (Nat.eq_dec a b) as [<-|Hab].
  + rewrite Hr in Hx. rewrite read_write_same by exact Ha.
    now rewrite dict_get_set_other.
  + now rewrite read_write_other.
- unfold getitem. rewrite read_write_same by exact Ha.
  apply dict_get_set_same.
Qed.

Lemma lookup_path_app h keys1 keys2 value :
  lookup_path h (keys1 ++ keys2) value
  = match lookup_path h keys1 value with
    | Some v => lookup_path h keys2 v
    | None => None
    end.
Proof.
revert value. induction keys1 as [|k keys1 IH]; intros value; [reflexivity|].
cbn [app lookup_path]. destruct (getitem h value k); [apply IH | reflexivity].
Qed.

(** What a call that returns [True] has done to the store. *)
Lemma set_setting_true disk_ok st key_path value save st' :
  set_setting disk_ok st key_path value save = (st', true) ->
  exists h current h',
    navigate (objects st)
      (removelast (PyText.split ConfigUtils.dot key_path)) (_settings st)
    = (h, Some current)
    /\ setitem h current
         (last (PyText.split ConfigUtils.dot key_path) EmptyString) value
       = Some h'
    /\ st' = mk_state h' (_settings st)
               (dict_del (cache_key key_path) (_cache st)) (_auto_save st).
Proof.
unfold set_setting.
destruct (navigate _ _ _) as [h [current|]]; [|discriminate].
destruct (setitem h current _ value) as [h'|] eqn:Hitem; [|discriminate].
intros H. exists h, current, h'. split; [reflexivity|]. split; [exact Hitem|].
destruct (match save with Some b => b | None => _auto_save st end);
  now inversion H.
Qed.

(** X22: a setting that was set is the setting that is read: when
    [set_setting] returns [True] for a path whose last key is not also an
    earlier key of the path, [get_setting] of that path returns the very
    value that was set, whatever was cached for the path before and whatever
    the shape of the settings (missing sections are created on the way). *)
Theorem X22_set_setting_then_get_setting :
  forall disk_ok st key_path value save st' default,
    NoDup (map fst (_cache st)) ->
    ~ In (last (PyText.split ConfigUtils.dot key_path) EmptyString)
         (removelast (PyText.split ConfigUtils.dot key_path)) ->
    set_setting disk_ok st key_path value save = (st', true) ->
    snd (get_setting st' key_path default) = value.
Proof.
intros disk_ok st key_path value save st' default Hnd Hlast Hset.
destruct (set_setting_true _ _ _ _ _ _ Hset)
  as [h [current [h' [Hnav [Hitem ->]]]]].
destruct (setitem_kept_off _ _ _ _ _ Hitem) as [Hoff Hget].
pose proof (navigate_lookup _ _ _ _ _ Hnav _ _ Hoff Hlast) as Hpath.
unfold get_setting. cbn [_cache objects _settings].
rewrite dict_get_del_same by exact Hnd.
rewrite (app_removelast_last EmptyString
           (split_nonempty ConfigUtils.dot key_path)).
rewrite lookup_path_app, Hpath. cbn [lookup_path]. rewrite Hget.
reflexivity.
Qed.

Lemma X22_set_setting_then_get_setting_witness :
  snd (get_setting
         (fst (set_setting true application_settings "Application.Theme"
                 (HStr "dark") None))
         "Application.Theme" HNone)
  = HStr "dark".
Proof.
apply (X22_set_setting_then_get_setting true application_settings
         "Application.Theme" (HStr "dark") None).
- repeat constructor. simpl. tauto.
- simpl. intuition discriminate.
- reflexivity.
Defined.

(** X23: [set_setting] clears the cache entry of its own path only: a value
    that is cached for any other path (a path below or above the one that is
    written included) is what [get_setting] goes on returning after the
    call, whatever was written and whether or not the call succeeded. *)
Theorem X23_other_cached_settings_survive_a_write :
  forall disk_ok st key_path value save other cached default,
    other <> key_path ->
    dict_get (cache_key other) (_cache st) = Some cached ->
    snd (get_setting (fst (set_setting disk_ok st key_path value save))
           other default)
    = cached.
Proof.
intros disk_ok st key_path value save other cached default Hne Hc.
assert (H : dict_get (cache_key other)
              (_cache (fst (set_setting disk_ok st key_path value save)))
            = Some cached).
{ unfold set_setting.
  destruct (navigate _ _ _) as [h [current|]]; [|exact Hc].
  destruct (setitem h current _ value) as [h'|]; [|exact Hc].
  destruct (match save with Some b => b | None => _auto_save st end);
    cbn [fst _cache];
    (rewrite dict_get_del_other; [exact Hc|]);
    intros E; apply cache_key_inj in E; contradiction. }
unfold get_setting. rewrite H. reflexivity.
Qed.

Lemma X23_other_cached_settings_survive_a_write_witness :
  snd (get_setting
         (fst (set_setting true application_settings "Application"
                 (HStr "none") None))
         "Application.Theme" HNone)
  = HStr "light".
Proof.
apply (X23_other_cached_settings_survive_a_write true application_settings
         "Application" (HStr "none") None "Application.Theme").
- discriminate.
- reflexivity.
Defined.

End SettingsFacts.

Section ShortcutFacts.

Import Py CommandExecution Props.

Variable W : Type.
Variable io : effect -> W -> bool * W.

Lemma split_length sep s :
  length (PyText.split sep s) = S (count_char sep s).
Proof.
induction s as [|c s IH]; [reflexivity|].
cbn [PyText.split count_char]. destruct (Ascii.eqb c sep); simpl.
- now rewrite IH.
- destruct (PyText.split sep s) as [|x rest]; simpl in *; [discriminate|].
  exact IH.
Qed.

Lemma split_without_separator sep s :
  count_char sep s = 0 -> PyText.split sep s = [s].
Proof.
induction s as [|c s IH]; [reflexivity|].
cbn [PyText.split count_char]. destruct (Ascii.eqb c sep); simpl;
  [discriminate|].
intros H. now rewrite (IH H).
Qed.

(** X24: how a shortcut is sent: [_execute_keys] makes exactly one request
    for a string; a shortcut without [+] is pressed as one key, trimmed and
    lower-cased, and a shortcut with [+] is sent as one hotkey that has a
    key for every part between the [+] signs, empty parts included, so one
    more key than there are [+] signs. *)
Theorem X24_shortcut_is_one_key_or_one_hotkey :
  forall shortcut_keys w,
    (count_char plus shortcut_keys = 0 ->
     _execute_keys W io (PStr shortcut_keys) w
     = io (PressKey (PyStr.lower (PyStr.strip shortcut_keys))) w)
    /\ (count_char plus shortcut_keys <> 0 ->
        _execute_keys W io (PStr shortcut_keys) w
        = io (Hotkey (parse_keys shortcut_keys)) w
        /\ length (parse_keys shortcut_keys)
           = S (count_char plus shortcut_keys)).
Proof.
intros s w. cbn [_execute_keys]. split.
- intros H. unfold parse_keys. rewrite (split_without_separator _ _ H).
  reflexivity.
- intros H.
  assert (Hlen : length (parse_keys s) = S (count_char plus s)).
  { unfold parse_keys. rewrite length_map. apply split_length. }
  split; [|exact Hlen].
  destruct (parse_keys s) as [|k1 [|k2 rest]]; simpl in Hlen;
    [discriminate | | reflexivity].
  exfalso. apply H. lia.
Qed.

End ShortcutFacts.
